(** * Bela-liblsl: the LSL-to-audio bridge

    A shallow embedding of [src/render_lsl_audio.cpp] (the single audio
    stream bridge: ring buffer, fill task, discovery pass, render loop) and
    of [pullSamples] of [src/render.cpp] (the multi-inlet variant), with the
    properties of the ring buffer and of the session life cycle.

    Conventions of the embedding.
    - A C++ [int] is a [Z]. Under [state_ok] the index arithmetic of the
      code stays between [-8192] and [65536], far from the limits of [int],
      so no wrap-around arises; the one cast to [unsigned int] is written
      out ([to_unsigned]).
    - A [float] audio sample is only ever copied or set to [0.0f]: it is its
      32-bit IEEE pattern as a [Z], and [0.0f] is the pattern [0].
    - A [double] (sample rates, time stamps) is a primitive binary64 float.
    - A fixed-size global array is a [list] of the declared length; an
      access outside it, or the use of a deleted inlet, is undefined
      behaviour in C++ and is [None] here.
    - The network (liblsl) is an input: what a pull returns or throws, and
      whether opening an inlet succeeds, are arguments of the functions. *)

From Stdlib Require Import ZArith Bool List String Lia PrimFloat.
From stdpp Require Import base option list.
Import ListNotations.

Local Open Scope Z_scope.

(** ** Data *)

Definition sample : Type := Z.
Definition silence : sample := 0.

(** [lsl::stream_info], as far as the code reads it. *)
Record stream_info : Type := mkInfo {
  name : string;
  channel_count : Z;
  nominal_srate : float
}.

(** The exceptions liblsl raises; both derive from [std::exception]. *)
Inductive lsl_exception : Type :=
| lost_error (what : string)
| std_exception (what : string).

(** [lsl::stream_inlet* audioInlet]: null, pointing to a live inlet, or left
    pointing to an inlet that was deleted. *)
Inductive inlet_ptr : Type :=
| InletNull
| InletLive (info : stream_info)
| InletFreed.

(** What [audioInlet->pull_chunk_multiplexed] finds on the network: the
    interleaved samples and time stamps waiting in the inlet, or an
    exception. *)
Inductive pull_result : Type :=
| PullReturns (samples : list sample) (stamps : list float)
| PullThrows (e : lsl_exception).

(** What creating and opening an inlet for a candidate does. *)
Inductive open_result : Type :=
| Opened
| CtorThrows (e : lsl_exception)
| OpenThrows (e : lsl_exception).

(** Calls into the transport and lines printed with [rt_printf]. *)
Inductive event : Type :=
| LogNoStreams
| LogInvalidChannels (n : Z)
| LogRateMismatch (info : stream_info)
| CloseInlet
| NewInlet (info : stream_info)
| OpenStream (info : stream_info)
| LogConnected (info : stream_info)
| LogInletError (e : lsl_exception)
| LogFillError (e : lsl_exception)
| LogBufferReport (frames : Z).

(** [audioWrite(context, n, ch, value)]. *)
Record audio_write : Type := mkWrite {
  w_frame : Z;
  w_channel : Z;
  w_value : sample
}.

(** ** Configuration *)

Definition AUDIO_STREAM_NAME : string := "audio".
Definition AUDIO_BUFFER_FRAMES : Z := 8192.
Definition MAX_CHANNELS : Z := 8.
Definition bufferMask : Z := AUDIO_BUFFER_FRAMES - 1.
Definition PULL_BUFFER_FRAMES : Z := 1024.

(** ** Global state of render_lsl_audio.cpp

    [resolver] is whether the pointer is set. Left out: [audioSampleRate],
    assigned on connection and read by one log line only;
    [shouldResolveStreams], never written in that file; the two task
    handles; the counters of [render] that schedule the two tasks. *)

Record state : Type := mkState {
  audioStreamActive : bool;
  resolver : bool;
  audioInlet : inlet_ptr;
  audioChannels : Z;
  belaSampleRate : float;
  audioBuffer : list sample;
  pullBuffer : list sample;
  timestampBuffer : list float;
  readPos : Z;
  writePos : Z;
  reportCounter : Z
}.

Definition set_active (b : bool) (st : state) : state :=
  mkState b (resolver st) (audioInlet st) (audioChannels st)
    (belaSampleRate st) (audioBuffer st) (pullBuffer st) (timestampBuffer st)
    (readPos st) (writePos st) (reportCounter st).

Definition set_inlet (p : inlet_ptr) (st : state) : state :=
  mkState (audioStreamActive st) (resolver st) p (audioChannels st)
    (belaSampleRate st) (audioBuffer st) (pullBuffer st) (timestampBuffer st)
    (readPos st) (writePos st) (reportCounter st).

Definition set_channels (k : Z) (st : state) : state :=
  mkState (audioStreamActive st) (resolver st) (audioInlet st) k
    (belaSampleRate st) (audioBuffer st) (pullBuffer st) (timestampBuffer st)
    (readPos st) (writePos st) (reportCounter st).

Definition set_audioBuffer (b : list sample) (st : state) : state :=
  mkState (audioStreamActive st) (resolver st) (audioInlet st)
    (audioChannels st) (belaSampleRate st) b (pullBuffer st)
    (timestampBuffer st) (readPos st) (writePos st) (reportCounter st).

Definition set_pulled (pb : list sample) (ts : list float) (st : state)
  : state :=
  mkState (audioStreamActive st) (resolver st) (audioInlet st)
    (audioChannels st) (belaSampleRate st) (audioBuffer st) pb ts
    (readPos st) (writePos st) (reportCounter st).

Definition set_readPos (p : Z) (st : state) : state :=
  mkState (audioStreamActive st) (resolver st) (audioInlet st)
    (audioChannels st) (belaSampleRate st) (audioBuffer st) (pullBuffer st)
    (timestampBuffer st) p (writePos st) (reportCounter st).

Definition set_writePos (p : Z) (st : state) : state :=
  mkState (audioStreamActive st) (resolver st) (audioInlet st)
    (audioChannels st) (belaSampleRate st) (audioBuffer st) (pullBuffer st)
    (timestampBuffer st) (readPos st) p (reportCounter st).

Definition set_reportCounter (c : Z) (st : state) : state :=
  mkState (audioStreamActive st) (resolver st) (audioInlet st)
    (audioChannels st) (belaSampleRate st) (audioBuffer st) (pullBuffer st)
    (timestampBuffer st) (readPos st) (writePos st) c.

(** ** Arrays and loops *)

(** [a[i]] read and written; [None] outside the array. *)
Definition aget {A : Type} (a : list A) (i : Z) : option A :=
  if 0 <=? i then a !! Z.to_nat i else None.

Definition aset {A : Type} (a : list A) (i : Z) (v : A) : option (list A) :=
  match aget a i with
  | Some _ => Some (<[Z.to_nat i := v]> a)
  | None => None
  end.

(** [for (i = lo; i < hi; i++) body], the bound not changed by the body. *)
Fixpoint for_loop {T : Type} (body : Z -> T -> option T) (n : nat) (i : Z)
  (s : T) : option T :=
  match n with
  | O => Some s
  | S n' =>
      match body i s with
      | Some s' => for_loop body n' (i + 1) s'
      | None => None
      end
  end.

Definition for_range {T : Type} (lo hi : Z) (body : Z -> T -> option T)
  (s : T) : option T :=
  for_loop body (Z.to_nat (hi - lo)) lo s.

(** [(unsigned int) x] for an [int] x. *)
Definition to_unsigned (x : Z) : Z := x mod 2 ^ 32.

(** ** The ring buffer *)

(** [samplesAvailable()]. *)
Definition samplesAvailable (st : state) : Z :=
  if negb (audioStreamActive st) then 0
  else
    let available := writePos st - readPos st in
    if available <? 0 then available + AUDIO_BUFFER_FRAMES else available.

(** The space [fillAudioBuffer] computes before it pulls (its local
    [available]). *)
Definition writeSpace (st : state) : Z :=
  let readPosSnapshot := readPos st in
  let available := readPosSnapshot - writePos st - 1 in
  if available <=? 0 then available + AUDIO_BUFFER_FRAMES else available.

(** [maxFramesToPull]. *)
Definition maxFramesToPull (st : state) : Z := Z.min 512 (writeSpace st).

(** The transport's side of [pull_chunk_multiplexed(data, stamps, data_len,
    stamps_len, 0.0)]: it stores at most [data_len] samples and
    [stamps_len] time stamps at the start of the two arrays and returns the
    number of samples stored. Handing it a length that an array does not
    have lets it write outside the array. *)
Definition overwrite {A : Type} (new old : list A) : list A :=
  new ++ drop (length new) old.
Global Arguments overwrite : simpl never.

Definition pull_chunk_multiplexed (samples : list sample)
  (stamps : list float) (data : list sample) (ts : list float)
  (data_len ts_len : Z) : option (list sample * list float * Z) :=
  if (data_len <=? Z.of_nat (length data)) && (ts_len <=? Z.of_nat (length ts))
  then
    let got := take (Z.to_nat data_len) samples in
    let got_ts := take (Z.to_nat ts_len) stamps in
    Some (overwrite got data, overwrite got_ts ts, Z.of_nat (length got))
  else None.

(** One pass of the channel loop: [audioBuffer[bufferIndex + ch] =
    pullBuffer[pullIndex + ch]]. *)
Definition copyChannel (pull : list sample) (pullIndex bufferIndex : Z)
  (ch : Z) (buf : list sample) : option (list sample) :=
  match aget pull (pullIndex + ch) with
  | Some v => aset buf (bufferIndex + ch) v
  | None => None
  end.

(** One pass of the frame loop of [fillAudioBuffer]: copy frame [f] of the
    pull buffer into the slot at [writePos], then advance [writePos]. *)
Definition copyFrame (f : Z) (st : state) : option state :=
  let bufferIndex := Z.land (writePos st) bufferMask * audioChannels st in
  let pullIndex := f * audioChannels st in
  match for_range 0 (audioChannels st)
          (copyChannel (pullBuffer st) pullIndex bufferIndex)
          (audioBuffer st) with
  | Some buf =>
      Some (set_writePos (Z.land (writePos st + 1) bufferMask)
              (set_audioBuffer buf st))
  | None => None
  end.

(** The entry guard of [fillAudioBuffer]. *)
Definition fillGuard (st : state) : bool :=
  audioStreamActive st
  && match audioInlet st with InletNull => false | _ => true end
  && (0 <? audioChannels st) && (audioChannels st <=? MAX_CHANNELS).

(** [fillAudioBuffer], given what the pull finds on the network. *)
Definition fillAudioBuffer (st : state) (net : pull_result)
  : option (state * list event) :=
  if negb (fillGuard st) then Some (st, [])
  else if maxFramesToPull st <=? 0 then Some (st, [])
  else
    match audioInlet st with
    | InletLive _ =>
        match net with
        | PullThrows e => Some (set_active false st, [LogFillError e])
        | PullReturns samples stamps =>
            match pull_chunk_multiplexed samples stamps (pullBuffer st)
                    (timestampBuffer st)
                    (maxFramesToPull st * audioChannels st)
                    (maxFramesToPull st) with
            | None => None
            | Some (pb, ts, samples_read) =>
                let st1 := set_pulled pb ts st in
                let framesPulled := samples_read / audioChannels st in
                if framesPulled >? 0 then
                  match for_range 0 framesPulled copyFrame st1 with
                  | None => None
                  | Some st2 =>
                      let c := reportCounter st2 + 1 in
                      let st3 := set_reportCounter c st2 in
                      if Z.rem c 1000 =? 0
                      then Some (st3, [LogBufferReport (samplesAvailable st3)])
                      else Some (st3, [])
                  end
                else Some (st1, [])
            end
        end
    | _ => None
    end.

(** ** The render loop *)

(** The channel loop of a frame that is played. *)
Definition writeChannel (buf : list sample) (bufferIndex n : Z) (ch : Z)
  (out : list audio_write) : option (list audio_write) :=
  match aget buf (to_unsigned (bufferIndex + ch)) with
  | Some v => Some (out ++ [mkWrite n ch v])
  | None => None
  end.

(** The channel loop of a silent frame. *)
Definition writeSilence (n : Z) (ch : Z) (out : list audio_write)
  : option (list audio_write) :=
  Some (out ++ [mkWrite n ch silence]).

(** The test of the output loop: [audioStreamActive && samplesAvailable() > 0]. *)
Definition frameReady (st : state) : bool :=
  audioStreamActive st && (samplesAvailable st >? 0).

(** One pass of the output loop of [render], for output frame [n]. *)
Definition renderFrame (audioOutChannels : Z) (n : Z)
  (acc : state * list audio_write) : option (state * list audio_write) :=
  let '(st, out) := acc in
  if frameReady st then
    let bufferIndex := Z.land (readPos st) bufferMask * audioChannels st in
    match for_range 0
            (Z.min (to_unsigned (audioChannels st)) audioOutChannels)
            (writeChannel (audioBuffer st) bufferIndex n) out with
    | Some out' =>
        Some (set_readPos (Z.land (readPos st + 1) bufferMask) st, out')
    | None => None
    end
  else
    match for_range 0 audioOutChannels (writeSilence n) out with
    | Some out' => Some (st, out')
    | None => None
    end.

(** The output loop of [render] for one block of [audioFrames] frames. *)
Definition renderOutput (audioFrames audioOutChannels : Z) (st : state)
  : option (state * list audio_write) :=
  for_range 0 audioFrames (renderFrame audioOutChannels) (st, []).

(** ** Discovery *)

(** [std::abs(info.nominal_srate() - belaSampleRate) < belaSampleRate * 0.001]. *)
Definition rateCompatible (info : stream_info) (st : state) : bool :=
  PrimFloat.ltb
    (PrimFloat.abs (PrimFloat.sub (nominal_srate info) (belaSampleRate st)))
    (PrimFloat.mul (belaSampleRate st) 0x1.0624dd2f1a9fcp-10%float).

(** The [try] block of [resolveStreams] from the creation of the inlet on,
    with its [catch]; the [break] follows in every case. *)
Definition openInlet (try_open : stream_info -> open_result)
  (info : stream_info) (st : state) : list event * option state :=
  match audioInlet st with
  | InletFreed => ([], None)
  | old =>
      let closed := match old with InletLive _ => [CloseInlet] | _ => [] end in
      let dangling := match old with InletLive _ => InletFreed | p => p end in
      match try_open info with
      | CtorThrows e =>
          (closed ++ [NewInlet info; LogInletError e],
           Some (set_inlet dangling st))
      | OpenThrows e =>
          (closed ++ [NewInlet info; OpenStream info; LogInletError e],
           Some (set_inlet (InletLive info) st))
      | Opened =>
          (closed ++ [NewInlet info; OpenStream info; LogConnected info],
           Some (set_active true
                   (set_writePos 0
                      (set_readPos 0 (set_inlet (InletLive info) st)))))
      end
  end.

(** The loop over the advertised streams. *)
Fixpoint scanStreams (try_open : stream_info -> open_result)
  (streams : list stream_info) (st : state) : list event * option state :=
  match streams with
  | [] => ([], Some st)
  | info :: rest =>
      if String.eqb (name info) AUDIO_STREAM_NAME then
        if rateCompatible info st then
          let st1 := set_channels (channel_count info) st in
          if (audioChannels st1 <=? 0) || (audioChannels st1 >? MAX_CHANNELS)
          then
            let '(evs, r) := scanStreams try_open rest st1 in
            (LogInvalidChannels (audioChannels st1) :: evs, r)
          else openInlet try_open info st1
        else
          let '(evs, r) := scanStreams try_open rest st in
          (LogRateMismatch info :: evs, r)
      else scanStreams try_open rest st
  end.

(** [resolveStreams], given the resolver's results. *)
Definition resolveStreams (try_open : stream_info -> open_result)
  (streams : list stream_info) (st : state) : list event * option state :=
  if negb (resolver st) then ([], Some st)
  else
    match streams with
    | [] => ([LogNoStreams], Some st)
    | _ =>
        if negb (audioStreamActive st) then scanStreams try_open streams st
        else ([], Some st)
    end.

(** The globals as [setup] leaves them, for an audio clock of [rate] Hz. *)
Definition setup (rate : float) : state :=
  mkState false true InletNull 0 rate
    (replicate (Z.to_nat (AUDIO_BUFFER_FRAMES * MAX_CHANNELS)) silence)
    (replicate (Z.to_nat (PULL_BUFFER_FRAMES * MAX_CHANNELS)) silence)
    (replicate (Z.to_nat PULL_BUFFER_FRAMES) 0%float)
    0 0 0.

(** ** pullSamples of render.cpp (the multi-inlet variant) *)

Module MultiInlet.

(** What [streamInlets[i]->pull_sample(streamData[i], sampleTimeout)]
    does: it returns a time stamp ([0.0] when nothing was waiting) with
    the vector it leaves in [streamData[i]], or it throws. *)
Inductive sample_result : Type :=
| SampleReturns (timestamp : float) (data : list sample)
| SampleThrows (e : lsl_exception).

Inductive event : Type :=
| LogSample (stream : string) (data : list sample) (timestamp : float)
| LogStreamLost (stream : string) (e : lsl_exception)
| CloseStream (i : nat)
| LogPullError (stream : string) (e : lsl_exception)
| LogAllLost.

(** An entry of [streamInlets] is a live inlet or, once lost, [nullptr]. *)
Record state : Type := mkState {
  streamInlets : list (option stream_info);
  streamData : list (list sample);
  streamNames : list string;
  streamsResolved : bool;
  shouldResolveStreams : bool
}.

Definition logNamed (st : state) (i : nat) (evs : list event)
  (line : string -> list event) (st' : state) : option (state * list event) :=
  match streamNames st !! i with
  | Some nm => Some (st', evs ++ line nm)
  | None => None
  end.

(** One pass of the loop over the inlets, with its two [catch] clauses. *)
Definition pullOne (net : nat -> sample_result) (i : nat)
  (acc : state * list event) : option (state * list event) :=
  let '(st, evs) := acc in
  match streamInlets st !! i, streamData st !! i with
  | Some (Some _), Some _ =>
      match net i with
      | SampleReturns timestamp data =>
          let st' := mkState (streamInlets st) (<[i := data]> (streamData st))
                       (streamNames st) (streamsResolved st)
                       (shouldResolveStreams st) in
          if negb (PrimFloat.eqb timestamp 0%float)
          then logNamed st i evs
                 (fun nm => [LogSample nm data timestamp]) st'
          else Some (st', evs)
      | SampleThrows (lost_error w) =>
          logNamed st i evs
            (fun nm => [LogStreamLost nm (lost_error w); CloseStream i])
            (mkState (<[i := None]> (streamInlets st)) (streamData st)
               (streamNames st) (streamsResolved st) true)
      | SampleThrows (std_exception w) =>
          logNamed st i evs
            (fun nm => [LogPullError nm (std_exception w)]) st
      end
  | _, _ => None
  end.

Fixpoint pullAll (net : nat -> sample_result) (n : nat) (i : nat)
  (acc : state * list event) : option (state * list event) :=
  match n with
  | O => Some acc
  | S n' =>
      match pullOne net i acc with
      | Some acc' => pullAll net n' (S i) acc'
      | None => None
      end
  end.

(** The clean-up loop: the three vectors are walked together and the
    entries of a [nullptr] inlet erased. *)
Fixpoint eraseClosed (inlets : list (option stream_info))
  (names : list string) (data : list (list sample))
  : option (list (option stream_info) * list string * list (list sample)) :=
  match inlets, names, data with
  | [], _, _ => Some ([], names, data)
  | None :: inlets', _ :: names', _ :: data' =>
      eraseClosed inlets' names' data'
  | Some x :: inlets', nm :: names', d :: data' =>
      match eraseClosed inlets' names' data' with
      | Some (il, nl, dl) => Some (Some x :: il, nm :: nl, d :: dl)
      | None => None
      end
  | _, _, _ => None
  end.

(** [pullSamples], given what each inlet's pull does. *)
Definition pullSamples (net : nat -> sample_result) (st : state)
  : option (state * list event) :=
  if negb (streamsResolved st)
     || match streamInlets st with [] => true | _ => false end
  then Some (st, [])
  else
    match pullAll net (length (streamInlets st)) 0 (st, []) with
    | None => None
    | Some (st1, evs) =>
        match eraseClosed (streamInlets st1) (streamNames st1)
                (streamData st1) with
        | None => None
        | Some (il, nl, dl) =>
            match il with
            | [] =>
                Some (mkState il dl nl false (shouldResolveStreams st1),
                      evs ++ [LogAllLost])
            | _ =>
                Some (mkState il dl nl (streamsResolved st1)
                        (shouldResolveStreams st1), evs)
            end
        end
    end.

End MultiInlet.

(** ** Well-formed states, traces and the queue the ring buffer holds *)

(** The arrays have their declared sizes. *)
Definition arrays_ok (st : state) : Prop :=
  length (audioBuffer st) = Z.to_nat (AUDIO_BUFFER_FRAMES * MAX_CHANNELS)
  /\ length (pullBuffer st) = Z.to_nat (PULL_BUFFER_FRAMES * MAX_CHANNELS)
  /\ length (timestampBuffer st) = Z.to_nat PULL_BUFFER_FRAMES.

(** An active session: the flag is set, the inlet is live and the channel
    count passed the check of [resolveStreams]. *)
Definition session_active (st : state) : Prop :=
  audioStreamActive st = true
  /\ (exists info, audioInlet st = InletLive info)
  /\ 0 < audioChannels st <= MAX_CHANNELS.

(** What every run of the program keeps true. *)
Definition state_ok (st : state) : Prop :=
  arrays_ok st
  /\ 0 <= readPos st < AUDIO_BUFFER_FRAMES
  /\ 0 <= writePos st < AUDIO_BUFFER_FRAMES
  /\ (audioStreamActive st = true -> session_active st).

(** The state after [j] passes of the frame loop that started in [st] and
    left [buf] in the ring. *)
Definition pushed (st : state) (j : Z) (buf : list sample) : state :=
  set_writePos ((writePos st + j) mod AUDIO_BUFFER_FRAMES)
    (set_audioBuffer buf st).

(** What one invocation of the fill task may change. *)
Definition fill_frame (st st' : state) : Prop :=
  arrays_ok st'
  /\ audioInlet st' = audioInlet st
  /\ audioChannels st' = audioChannels st
  /\ readPos st' = readPos st
  /\ (audioStreamActive st' = true -> audioStreamActive st = true)
  /\ (0 <= writePos st < AUDIO_BUFFER_FRAMES ->
      0 <= writePos st' < AUDIO_BUFFER_FRAMES).

(** The [K] samples of frame number [s] of an interleaved array. *)
Definition frameAt (a : list sample) (K : Z) (s : Z) : list sample :=
  take (Z.to_nat K) (drop (Z.to_nat (s * K)) a).

(** The frames between [readPos] and [writePos], oldest first. *)
Definition contents (st : state) : list (list sample) :=
  (fun j => frameAt (audioBuffer st) (audioChannels st)
              ((readPos st + j) mod AUDIO_BUFFER_FRAMES))
  <$> seqZ 0 (samplesAvailable st).

(** The writes that play the samples [vals] on output frame [n]. *)
Definition frameWrites (n : Z) (vals : list sample) : list audio_write :=
  imap (fun ch v => mkWrite n (Z.of_nat ch) v) vals.

(** The writes that play [frames] whole, one per output frame from frame
    [n] on. *)
Fixpoint playedFrames (n : Z) (frames : list (list sample))
  : list audio_write :=
  match frames with
  | [] => []
  | f :: rest => frameWrites n f ++ playedFrames (n + 1) rest
  end.

(** The same on an output of [outs] channels: the source channels beyond
    the output's are not written. *)
Definition blockWrites (outs : Z) (n : Z) (frames : list (list sample))
  : list audio_write :=
  playedFrames n (take (Z.to_nat outs) <$> frames).

(** The writes of [count] silent output frames from frame [n] on. *)
Fixpoint silentWrites (outs : Z) (count : nat) (n : Z) : list audio_write :=
  match count with
  | O => []
  | S c =>
      ((fun ch => mkWrite n ch silence) <$> seqZ 0 outs)
      ++ silentWrites outs c (n + 1)
  end.

(** Successive invocations of the fill task. *)
Fixpoint fills (nets : list pull_result) (st : state) : option state :=
  match nets with
  | [] => Some st
  | net :: rest =>
      match fillAudioBuffer st net with
      | Some (st', _) => fills rest st'
      | None => None
      end
  end.

(** The pull that finds exactly the frames [frames] waiting. *)
Definition chunk (frames : list (list sample)) : pull_result :=
  PullReturns (concat frames) (replicate (length frames) 0%float).

(** Pushes and pops one at a time: a pass of the frame loop of
    [fillAudioBuffer] on frame [f] of the pull buffer, or a pass of the
    output loop of [render]. *)
Inductive op : Type :=
| Push (f : Z)
| Pop (audioOutChannels : Z) (n : Z).

(** Runs the operations of [ops], one after the other. *)
Fixpoint run (ops : list op) (st : state) : option state :=
  match ops with
  | [] => Some st
  | Push f :: rest =>
      match copyFrame f st with
      | Some st' => run rest st'
      | None => None
      end
  | Pop outs n :: rest =>
      match renderFrame outs n (st, []) with
      | Some (st', _) => run rest st'
      | None => None
      end
  end.

(** The number of pushes and the number of pops of a sequence. *)
Fixpoint pushes (ops : list op) : Z :=
  match ops with
  | [] => 0
  | Push _ :: rest => 1 + pushes rest
  | Pop _ _ :: rest => pushes rest
  end.

Fixpoint pops (ops : list op) : Z :=
  match ops with
  | [] => 0
  | Push _ :: rest => pops rest
  | Pop _ _ :: rest => 1 + pops rest
  end.

(** A push is in order when its frame lies inside the pull buffer, a pop
    when the output has a channel count. *)
Definition op_ok (K : Z) (o : op) : Prop :=
  match o with
  | Push f => 0 <= f /\ (f + 1) * K <= PULL_BUFFER_FRAMES * MAX_CHANNELS
  | Pop outs _ => 0 <= outs
  end.

(** ** A mono stream at 44.1 kHz, for the concrete runs *)

Definition monoInfo : stream_info := mkInfo "audio" 1 44100%float.

(** The state in which [resolveStreams] leaves [setup 44100] once it has
    opened [monoInfo]. *)
Definition connected : state :=
  set_active true
    (set_writePos 0
       (set_readPos 0
          (set_inlet (InletLive monoInfo)
             (set_channels 1 (setup 44100%float))))).

(** [m] mono frames, every sample [v]. *)
Definition tone (v : sample) (m : Z) : list (list sample) :=
  replicate (Z.to_nat m) [v].

(** [capacity - 1] frames, as sixteen pulls. *)
Definition fullLoad (v : sample) : list (list (list sample)) :=
  replicate 15 (tone v 512) ++ [tone v 511].

(** One frame pushed and played: the buffer is empty again, both indices
    at [1]. *)
Definition warmUp (st : state) : option state :=
  match fillAudioBuffer st (chunk (tone 5 1)) with
  | Some (st1, _) =>
      match renderOutput 1 1 st1 with
      | Some (st2, _) => Some st2
      | None => None
      end
  | None => None
  end.

(** After the warm-up, [capacity - 1] frames are pushed and none popped. *)
Definition wrappedFull : option state :=
  match warmUp connected with
  | Some st => fills (chunk <$> fullLoad 7) st
  | None => None
  end.

(** [capacity] frames, as seventeen pulls. *)
Definition overLoad (v : sample) : list (list (list sample)) :=
  fullLoad v ++ [tone v 1].

(** A stereo stream whose inlet fails to open, listed before [monoInfo]. *)
Definition stereoInfo : stream_info := mkInfo "audio" 2 44100%float.

Definition stereoFails (info : stream_info) : open_result :=
  if channel_count info =? 2 then OpenThrows (std_exception "open failed")
  else Opened.

(** A stream at 48 kHz under the configured name. *)
Definition fastInfo : stream_info := mkInfo "audio" 1 48000%float.

(** The pass over [info :: rest] goes on with [rest] once [info] is dealt
    with: its outcome is that of [info] alone followed by that of [rest]. *)
Definition scanContinues (try_open : stream_info -> open_result)
  (info : stream_info) (rest : list stream_info) (st : state) : Prop :=
  match scanStreams try_open [info] st with
  | (evs, Some st') =>
      scanStreams try_open (info :: rest) st
      = (evs ++ fst (scanStreams try_open rest st'),
         snd (scanStreams try_open rest st'))
  | (_, None) => False
  end.

(** The inlets of the multi-inlet variant are all live and the three
    vectors have one length. *)
Definition inlets_ok (ms : MultiInlet.state) : Prop :=
  Forall (fun x => x <> None) (MultiInlet.streamInlets ms)
  /\ length (MultiInlet.streamNames ms) = length (MultiInlet.streamInlets ms)
  /\ length (MultiInlet.streamData ms) = length (MultiInlet.streamInlets ms).

(** No pull of the pass reports the loss of its stream. *)
Definition no_loss (net : nat -> MultiInlet.sample_result) : Prop :=
  forall i w, net i <> MultiInlet.SampleThrows (lost_error w).

(** One live inlet of the multi-inlet variant, and a network on which every
    pull fails with an error that is no loss. *)
Definition oneInlet : MultiInlet.state :=
  MultiInlet.mkState [Some monoInfo] [[silence]] ["audio"%string] true true.

Definition timeouts (i : nat) : MultiInlet.sample_result :=
  MultiInlet.SampleThrows (std_exception "timeout").

(** The state in which the first invocation of the fill task leaves
    [connected] when it finds one frame, of sample [7], waiting. *)
Definition oneFrame : state :=
  match fillAudioBuffer connected (chunk (tone 7 1)) with
  | Some (st, _) => st
  | None => connected
  end.

(** ** The rest of render_lsl_audio.cpp: scheduling and cleanup *)

Definition set_resolver (b : bool) (st : state) : state :=
  mkState (audioStreamActive st) b (audioInlet st) (audioChannels st)
    (belaSampleRate st) (audioBuffer st) (pullBuffer st) (timestampBuffer st)
    (readPos st) (writePos st) (reportCounter st).

(** [cleanup]: the inlet is closed and deleted, the resolver deleted, both
    pointers nulled and the session flag cleared. *)
Definition cleanup (st : state) : list event * option state :=
  match audioInlet st with
  | InletFreed => ([], None)
  | InletLive _ =>
      ([CloseInlet],
       Some (set_active false (set_resolver false (set_inlet InletNull st))))
  | InletNull => ([], Some (set_active false (set_resolver false st)))
  end.

(** The two auxiliary tasks [render] hands to the scheduler. *)
Inductive aux_task : Type :=
| ResolveStreamsTask
| FillAudioBufferTask.

(** The two [static] counters of [render]: [count] is an [unsigned int],
    [fillCounter] an [int]. *)
Module Statics.

Record render_statics : Type := mkStatics {
  count : Z;
  fillCounter : Z
}.

End Statics.

(** The scheduling part of [render]. [period] is the value of
    [(unsigned int)(context->audioSampleRate / context->audioFrames / 2)];
    a remainder by zero is undefined, and so is [++fillCounter] beyond the
    largest [int]. [++fillCounter] is evaluated only when the session is
    active; [count++] wraps around. *)
Definition renderSchedule (period : Z) (shouldResolveStreams : bool)
  (st : state) (c : Statics.render_statics)
  : option (Statics.render_statics * list aux_task) :=
  if period =? 0 then None
  else
    let resolve :=
      if (Statics.count c mod period =? 0) && shouldResolveStreams
      then [ResolveStreamsTask] else [] in
    let count' := (Statics.count c + 1) mod 2 ^ 32 in
    if audioStreamActive st then
      if 2 ^ 31 <=? Statics.fillCounter c + 1 then None
      else
        let fillCounter' := Statics.fillCounter c + 1 in
        Some (Statics.mkStatics count' fillCounter',
              resolve ++ (if Z.rem fillCounter' 8 =? 0
                          then [FillAudioBufferTask] else []))
    else Some (Statics.mkStatics count' (Statics.fillCounter c), resolve).

(** [render]: the tasks it schedules, then the output loop. *)
Definition render (period : Z) (shouldResolveStreams : bool)
  (audioFrames audioOutChannels : Z) (c : Statics.render_statics) (st : state)
  : option (Statics.render_statics * state * list aux_task * list audio_write) :=
  match renderSchedule period shouldResolveStreams st c with
  | None => None
  | Some (c', tasks) =>
      match renderOutput audioFrames audioOutChannels st with
      | None => None
      | Some (st', out) => Some (c', st', tasks, out)
      end
  end.

(** Successive calls of [render] while nothing else runs; the tasks
    scheduled by each call, in order. *)
Fixpoint renders (n : nat) (period : Z) (shouldResolveStreams : bool)
  (audioFrames audioOutChannels : Z) (c : Statics.render_statics) (st : state)
  : option (Statics.render_statics * state * list (list aux_task)) :=
  match n with
  | O => Some (c, st, [])
  | S n' =>
      match render period shouldResolveStreams audioFrames audioOutChannels
              c st with
      | None => None
      | Some (c', st', tasks, _) =>
          match renders n' period shouldResolveStreams audioFrames
                  audioOutChannels c' st' with
          | None => None
          | Some (c'', st'', sched) => Some (c'', st'', tasks :: sched)
          end
      end
  end.

(** An invocation of one of the three entry points, with what the network
    does during it. *)
Inductive invocation : Type :=
| RunResolve (try_open : stream_info -> open_result)
    (streams : list stream_info)
| RunFill (net : pull_result)
| RunRender (audioFrames audioOutChannels : Z).

Definition invoke (i : invocation) (st : state) : option state :=
  match i with
  | RunResolve try_open streams => snd (resolveStreams try_open streams st)
  | RunFill net =>
      match fillAudioBuffer st net with
      | Some (st', _) => Some st'
      | None => None
      end
  | RunRender audioFrames audioOutChannels =>
      match renderOutput audioFrames audioOutChannels st with
      | Some (st', _) => Some st'
      | None => None
      end
  end.

(** Invocations one after the other, in any order the scheduler picks. *)
Fixpoint invokeAll (l : list invocation) (st : state) : option state :=
  match l with
  | [] => Some st
  | i :: rest =>
      match invoke i st with
      | Some st' => invokeAll rest st'
      | None => None
      end
  end.

(** During this invocation the constructor of the inlet does not throw;
    the block size and the output channel count are unsigned. *)
Definition invocation_ok (i : invocation) : Prop :=
  match i with
  | RunResolve try_open _ => forall info e, try_open info <> CtorThrows e
  | RunFill _ => True
  | RunRender audioFrames audioOutChannels =>
      0 <= audioFrames /\ 0 <= audioOutChannels
  end.

(** A candidate that [resolveStreams] tries to open: configured name,
    compatible rate, valid channel count. *)
Definition eligible (info : stream_info) (st : state) : bool :=
  String.eqb (name info) AUDIO_STREAM_NAME
  && rateCompatible info st
  && negb ((channel_count info <=? 0) || (channel_count info >? MAX_CHANNELS)).

(** The number of inlets created in a trace. *)
Fixpoint inletsCreated (evs : list event) : nat :=
  match evs with
  | [] => 0
  | NewInlet _ :: rest => S (inletsCreated rest)
  | _ :: rest => inletsCreated rest
  end.

(** The silence of [count] output frames that follow [k] played ones. *)
Definition playedThenSilent (outs : Z) (frames : list (list sample))
  (silent : nat) : list audio_write :=
  blockWrites outs 0 frames
  ++ silentWrites outs silent (0 + Z.of_nat (length frames)).

(** How often a task is scheduled in a run of [render] calls. *)
Fixpoint timesScheduled (t : aux_task) (sched : list (list aux_task)) : Z :=
  match sched with
  | [] => 0
  | tasks :: rest =>
      (if existsb (fun u => match t, u with
                            | ResolveStreamsTask, ResolveStreamsTask => true
                            | FillAudioBufferTask, FillAudioBufferTask => true
                            | _, _ => false
                            end) tasks
       then 1 else 0) + timesScheduled t rest
  end.

(** ** The rest of render.cpp: discovery of the multi-inlet variant *)

Module MultiInletDiscovery.

Inductive event : Type :=
| LogNoStreams
| LogFound (n : nat)
| LogStream (i : nat) (info : stream_info)
| NewInlet (info : stream_info)
| OpenStream (info : stream_info)
| LogOpened
| LogInletError (e : lsl_exception).

(** The exception of [std::vector<float>(n)] for a negative [n], which the
    conversion to an unsigned size turns into a length beyond [max_size]. *)
Definition length_error : lsl_exception := std_exception "length_error".

(** The body of the loop over the advertised streams, with its [catch]:
    the inlet is pushed as soon as it is created, its data vector and its
    name before [open_stream] is called. *)
Definition openOne (try_open : stream_info -> open_result) (i : nat)
  (info : stream_info) (acc : MultiInlet.state * list event)
  : MultiInlet.state * list event :=
  let '(st, evs) := acc in
  match try_open info with
  | CtorThrows e =>
      (st, evs ++ [LogStream i info; NewInlet info; LogInletError e])
  | r =>
      if channel_count info <? 0 then
        (MultiInlet.mkState (MultiInlet.streamInlets st ++ [Some info])
           (MultiInlet.streamData st) (MultiInlet.streamNames st)
           (MultiInlet.streamsResolved st)
           (MultiInlet.shouldResolveStreams st),
         evs ++ [LogStream i info; NewInlet info; LogInletError length_error])
      else
        let st' :=
          MultiInlet.mkState (MultiInlet.streamInlets st ++ [Some info])
            (MultiInlet.streamData st
             ++ [replicate (Z.to_nat (channel_count info)) silence])
            (MultiInlet.streamNames st ++ [name info])
            (MultiInlet.streamsResolved st)
            (MultiInlet.shouldResolveStreams st) in
        match r with
        | OpenThrows e =>
            (st', evs ++ [LogStream i info; NewInlet info; OpenStream info;
                          LogInletError e])
        | _ =>
            (st', evs ++ [LogStream i info; NewInlet info; OpenStream info;
                          LogOpened])
        end
  end.

Fixpoint openAll (try_open : stream_info -> open_result) (i : nat)
  (streams : list stream_info) (acc : MultiInlet.state * list event)
  : MultiInlet.state * list event :=
  match streams with
  | [] => acc
  | info :: rest => openAll try_open (S i) rest (openOne try_open i info acc)
  end.

(** [resolveStreams] of render.cpp, given the resolver's results
    ([availableStreams], which nothing else reads, is left out). *)
Definition resolveStreams (try_open : stream_info -> open_result)
  (streams : list stream_info) (st : MultiInlet.state)
  : MultiInlet.state * list event :=
  let needToReopen :=
    match MultiInlet.streamInlets st with [] => true | _ => false end in
  match streams with
  | [] => (st, [LogNoStreams])
  | _ =>
      if needToReopen then
        let '(st1, evs) :=
          openAll try_open 0 streams
            (MultiInlet.mkState [] [] [] (MultiInlet.streamsResolved st)
               (MultiInlet.shouldResolveStreams st),
             [LogFound (length streams)]) in
        (MultiInlet.mkState (MultiInlet.streamInlets st1)
           (MultiInlet.streamData st1) (MultiInlet.streamNames st1) true
           (MultiInlet.shouldResolveStreams st1), evs)
      else (st, [])
  end.

End MultiInletDiscovery.

(** The inlet of this stream is created. *)
Definition created (try_open : stream_info -> open_result)
  (info : stream_info) : bool :=
  match try_open info with CtorThrows _ => false | _ => true end.

(** This pull reports the loss of its stream. *)
Definition isLost (r : MultiInlet.sample_result) : bool :=
  match r with
  | MultiInlet.SampleThrows (lost_error _) => true
  | _ => false
  end.

(** The entries of a vector, from index [i] on, whose stream is not lost. *)
Fixpoint survivors {A : Type} (net : nat -> MultiInlet.sample_result)
  (i : nat) (l : list A) : list A :=
  match l with
  | [] => []
  | x :: rest =>
      if isLost (net i) then survivors net (S i) rest
      else x :: survivors net (S i) rest
  end.

(** The data vectors after the pulls, from index [i] on. *)
Fixpoint received (net : nat -> MultiInlet.sample_result) (i : nat)
  (l : list (list sample)) : list (list sample) :=
  match l with
  | [] => []
  | d :: rest =>
      match net i with
      | MultiInlet.SampleReturns _ data => data
      | _ => d
      end :: received net (S i) rest
  end.

(** Some pull among those of indices [i .. i + n - 1] reports a loss. *)
Fixpoint anyLost (net : nat -> MultiInlet.sample_result) (i : nat) (n : nat)
  : bool :=
  match n with
  | O => false
  | S n' => isLost (net i) || anyLost net (S i) n'
  end.

(** Two streams, and a network on which the first is lost. *)
Definition twoInlets : MultiInlet.state :=
  MultiInlet.mkState [Some monoInfo; Some stereoInfo]
    [[silence]; [silence; silence]] ["audio"%string; "audio"%string]
    true true.

Definition firstLost (i : nat) : MultiInlet.sample_result :=
  match i with
  | O => MultiInlet.SampleThrows (lost_error "lost")
  | _ => MultiInlet.SampleReturns 1%float [3; 4]
  end.

(** A network on which every stream is lost. *)
Definition allLost (i : nat) : MultiInlet.sample_result :=
  MultiInlet.SampleThrows (lost_error "lost").

(** The inlets after the pulls and before the clean-up, from index [i] on:
    a lost one is [nullptr]. *)
Fixpoint marked (net : nat -> MultiInlet.sample_result) (i : nat)
  (l : list (option stream_info)) : list (option stream_info) :=
  match l with
  | [] => []
  | x :: rest =>
      (if isLost (net i) then None else x) :: marked net (S i) rest
  end.

(** * Properties *)

(** ** Loops and arrays *)

Lemma for_loop_inv {T : Type} (P : Z -> T -> Prop) (body : Z -> T -> option T)
  (n : nat) (i : Z) (s : T) :
  P i s ->
  (forall j t, i <= j < i + Z.of_nat n -> P j t ->
     exists t', body j t = Some t' /\ P (j + 1) t') ->
  exists s', for_loop body n i s = Some s' /\ P (i + Z.of_nat n) s'.
Proof.
  revert i s. induction n as [|n IH]; intros i s Hi Hstep.
  - exists s. split; [reflexivity|]. now replace (i + Z.of_nat 0) with i by lia.
  - destruct (Hstep i s ltac:(lia) Hi) as (t & Hb & Ht).
    destruct (IH (i + 1) t Ht) as (s' & Hl & Hs').
    + intros j u Hj Hu. apply Hstep; [lia|exact Hu].
    + exists s'. cbn [for_loop]. rewrite Hb. split; [exact Hl|].
      now replace (i + Z.of_nat (S n)) with (i + 1 + Z.of_nat n) by lia.
Qed.

Lemma for_range_inv {T : Type} (P : Z -> T -> Prop) (body : Z -> T -> option T)
  (hi : Z) (s : T) :
  0 <= hi ->
  P 0 s ->
  (forall j t, 0 <= j < hi -> P j t ->
     exists t', body j t = Some t' /\ P (j + 1) t') ->
  exists s', for_range 0 hi body s = Some s' /\ P hi s'.
Proof.
  intros Hhi H0 Hstep. unfold for_range.
  destruct (for_loop_inv P body (Z.to_nat (hi - 0)) 0 s H0) as (s' & Hl & Hs').
  - intros j t Hj. apply Hstep. lia.
  - exists s'. split; [exact Hl|].
    replace (0 + Z.of_nat (Z.to_nat (hi - 0))) with hi in Hs' by lia.
    exact Hs'.
Qed.

Lemma land_bufferMask (x : Z) : Z.land x bufferMask = x mod AUDIO_BUFFER_FRAMES.
Proof. change bufferMask with (Z.ones 13). now rewrite Z.land_ones by lia. Qed.

Lemma land_bufferMask_range (x : Z) : 0 <= Z.land x bufferMask < AUDIO_BUFFER_FRAMES.
Proof. rewrite land_bufferMask. apply Z.mod_pos_bound. reflexivity. Qed.

Lemma aget_Some {A : Type} (a : list A) (i : Z) (v : A) :
  aget a i = Some v <-> 0 <= i /\ a !! Z.to_nat i = Some v.
Proof.
  unfold aget. destruct (0 <=? i) eqn:E.
  - apply Z.leb_le in E. tauto.
  - apply Z.leb_gt in E. split; [discriminate|lia].
Qed.

Lemma aget_in_range {A : Type} (a : list A) (i : Z) :
  0 <= i < Z.of_nat (length a) -> exists v, aget a i = Some v.
Proof.
  intros Hi. destruct (lookup_lt_is_Some_2 a (Z.to_nat i)) as [v Hv]; [lia|].
  exists v. apply aget_Some. split; [lia|exact Hv].
Qed.

Lemma aset_in_range {A : Type} (a : list A) (i : Z) (v : A) :
  0 <= i < Z.of_nat (length a) -> aset a i v = Some (<[Z.to_nat i := v]> a).
Proof.
  intros Hi. unfold aset. destruct (aget_in_range a i Hi) as [x Hx].
  now rewrite Hx.
Qed.

(** ** One frame copied into its slot *)

Lemma frameAt_lookup (a : list sample) (K s : Z) (ch : nat) :
  0 <= s -> 0 <= K ->
  frameAt a K s !! ch
  = if decide (ch < Z.to_nat K)%nat then a !! (Z.to_nat (s * K) + ch)%nat
    else None.
Proof.
  intros Hs HK. unfold frameAt. destruct (decide (ch < Z.to_nat K)%nat).
  - rewrite lookup_take_lt by assumption. apply lookup_drop.
  - apply lookup_take_ge. lia.
Qed.

Lemma frameAt_length (a : list sample) (K s : Z) :
  0 <= s -> 0 <= K -> (s + 1) * K <= Z.of_nat (length a) ->
  length (frameAt a K s) = Z.to_nat K.
Proof.
  intros Hs HK Hlen. unfold frameAt. rewrite length_take, length_drop. nia.
Qed.

(** The channel loop stores frame [f] of [pull] in slot [s] of [buf] and
    leaves the rest of [buf] alone. *)
Lemma copyChannels_spec (pull buf : list sample) (K f s : Z) :
  0 < K -> 0 <= f -> 0 <= s ->
  (f + 1) * K <= Z.of_nat (length pull) ->
  (s + 1) * K <= Z.of_nat (length buf) ->
  exists buf',
    for_range 0 K (copyChannel pull (f * K) (s * K)) buf = Some buf'
    /\ length buf' = length buf
    /\ frameAt buf' K s = frameAt pull K f
    /\ (forall i : nat,
          (i < Z.to_nat (s * K) \/ Z.to_nat ((s + 1) * K) <= i)%nat ->
          buf' !! i = buf !! i).
Proof.
  intros HK Hf Hs Hpull Hbuf.
  destruct (for_range_inv
    (fun j b => length b = length buf
       /\ forall i : nat,
            b !! i = if decide (Z.to_nat (s * K) <= i < Z.to_nat (s * K + j))%nat
                     then pull !! (Z.to_nat (f * K) + (i - Z.to_nat (s * K)))%nat
                     else buf !! i)
    (copyChannel pull (f * K) (s * K)) K buf) as (buf' & Hrun & Hlen & Hget).
  - lia.
  - split; [reflexivity|]. intros i. destruct (decide _); [lia|reflexivity].
  - intros j b Hj [Hlen Hget]. unfold copyChannel.
    destruct (aget_in_range pull (f * K + j)) as [v Hv]; [nia|].
    rewrite Hv. rewrite aset_in_range by nia.
    eexists; split; [reflexivity|]. split; [now rewrite length_insert|].
    intros i. apply aget_Some in Hv as [_ Hv].
    destruct (decide (i = Z.to_nat (s * K + j))) as [->|Hne].
    + rewrite list_lookup_insert_eq by nia.
      destruct (decide _) as [_|Hn]; [|exfalso; apply Hn; nia].
      rewrite <- Hv. f_equal. nia.
    + rewrite list_lookup_insert_ne by lia. rewrite Hget.
      destruct (decide _), (decide _); try reflexivity; exfalso; nia.
  - exists buf'. split; [exact Hrun|]. split; [exact Hlen|]. split.
    + apply list_eq. intros ch. rewrite !frameAt_lookup by lia.
      destruct (decide _); [|reflexivity]. rewrite Hget.
      destruct (decide _) as [_|Hn]; [|exfalso; apply Hn; nia].
      f_equal. lia.
    + intros i Hi. rewrite Hget. destruct (decide _); [exfalso; nia|reflexivity].
Qed.

(** ** Occupancy *)

Ltac zmod := unfold AUDIO_BUFFER_FRAMES, MAX_CHANNELS, PULL_BUFFER_FRAMES in *;
  Z.to_euclidean_division_equations; lia.

Lemma samplesAvailable_mod (st : state) :
  audioStreamActive st = true ->
  0 <= readPos st < AUDIO_BUFFER_FRAMES ->
  0 <= writePos st < AUDIO_BUFFER_FRAMES ->
  samplesAvailable st = (writePos st - readPos st) mod AUDIO_BUFFER_FRAMES.
Proof.
  intros Ha Hr Hw. unfold samplesAvailable. rewrite Ha. cbn [negb].
  destruct (writePos st - readPos st <? 0) eqn:E;
    [apply Z.ltb_lt in E | apply Z.ltb_ge in E]; zmod.
Qed.

Lemma samplesAvailable_inactive (st : state) :
  audioStreamActive st = false -> samplesAvailable st = 0.
Proof. intros Ha. unfold samplesAvailable. now rewrite Ha. Qed.

Lemma samplesAvailable_range (st : state) :
  0 <= readPos st < AUDIO_BUFFER_FRAMES ->
  0 <= writePos st < AUDIO_BUFFER_FRAMES ->
  0 <= samplesAvailable st < AUDIO_BUFFER_FRAMES.
Proof.
  intros Hr Hw. unfold samplesAvailable, AUDIO_BUFFER_FRAMES in *.
  destruct (audioStreamActive st); cbn [negb]; [|lia].
  destruct (writePos st - readPos st <? 0) eqn:E;
    [apply Z.ltb_lt in E | apply Z.ltb_ge in E]; lia.
Qed.

(** One pass of the frame loop, whatever [writePos] holds. *)
Lemma copyFrame_spec (st : state) (f : Z) :
  arrays_ok st ->
  0 < audioChannels st <= MAX_CHANNELS ->
  0 <= f ->
  (f + 1) * audioChannels st <= Z.of_nat (length (pullBuffer st)) ->
  exists buf',
    copyFrame f st
    = Some (set_writePos ((writePos st + 1) mod AUDIO_BUFFER_FRAMES)
              (set_audioBuffer buf' st))
    /\ length buf' = length (audioBuffer st)
    /\ frameAt buf' (audioChannels st) (writePos st mod AUDIO_BUFFER_FRAMES)
       = frameAt (pullBuffer st) (audioChannels st) f
    /\ (forall s, 0 <= s < AUDIO_BUFFER_FRAMES ->
          s <> writePos st mod AUDIO_BUFFER_FRAMES ->
          frameAt buf' (audioChannels st) s
          = frameAt (audioBuffer st) (audioChannels st) s).
Proof.
  intros (Hab & Hpb & Hts) HK Hf Hpull. unfold copyFrame.
  rewrite !land_bufferMask.
  set (s := writePos st mod AUDIO_BUFFER_FRAMES).
  assert (Hs : 0 <= s < AUDIO_BUFFER_FRAMES) by (apply Z.mod_pos_bound; reflexivity).
  destruct (copyChannels_spec (pullBuffer st) (audioBuffer st)
              (audioChannels st) f s) as (buf' & Hrun & Hlen & Hfr & Hrest);
    try lia.
  { rewrite Hab. unfold AUDIO_BUFFER_FRAMES, MAX_CHANNELS in *. nia. }
  exists buf'. rewrite Hrun. split; [reflexivity|]. split; [exact Hlen|].
  split; [exact Hfr|]. intros s' Hs' Hne. apply list_eq. intros ch.
  rewrite !frameAt_lookup by lia. destruct (decide _); [|reflexivity].
  apply Hrest. nia.
Qed.

(** ** Pushes seen on the queue *)

Lemma seqZ_snoc (a : Z) : 0 <= a -> seqZ 0 (a + 1) = seqZ 0 a ++ [a].
Proof.
  intros Ha. rewrite seqZ_app by lia. reflexivity.
Qed.

(** A push, seen on the queue: the frame joins at the back. *)
Lemma push_contents (st : state) (f : Z) :
  state_ok st ->
  session_active st ->
  samplesAvailable st < AUDIO_BUFFER_FRAMES - 1 ->
  0 <= f ->
  (f + 1) * audioChannels st <= Z.of_nat (length (pullBuffer st)) ->
  exists buf',
    let st' := set_writePos ((writePos st + 1) mod AUDIO_BUFFER_FRAMES)
                 (set_audioBuffer buf' st) in
    copyFrame f st = Some st'
    /\ length buf' = length (audioBuffer st)
    /\ contents st' = contents st ++ [frameAt (pullBuffer st) (audioChannels st) f]
    /\ samplesAvailable st' = samplesAvailable st + 1.
Proof.
  intros (Harr & Hr & Hw & _) (Hact & _ & HK) Hroom Hf Hpull.
  destruct (copyFrame_spec st f Harr HK Hf Hpull)
    as (buf' & Hrun & Hlen & Hnew & Hold).
  exists buf'. cbn zeta. split; [exact Hrun|]. split; [exact Hlen|].
  pose proof (samplesAvailable_range st Hr Hw) as Ha.
  pose proof (samplesAvailable_mod st Hact Hr Hw) as Hmod.
  assert (Hw' : 0 <= (writePos st + 1) mod AUDIO_BUFFER_FRAMES < AUDIO_BUFFER_FRAMES)
    by (apply Z.mod_pos_bound; reflexivity).
  assert (Hav : samplesAvailable
                  (set_writePos ((writePos st + 1) mod AUDIO_BUFFER_FRAMES)
                     (set_audioBuffer buf' st))
                = samplesAvailable st + 1).
  { rewrite samplesAvailable_mod; cbn; try assumption. rewrite Hmod in *. zmod. }
  split; [|exact Hav].
  unfold contents. rewrite Hav. cbn [set_writePos set_audioBuffer readPos
    audioChannels audioBuffer].
  rewrite seqZ_snoc by lia. rewrite fmap_app. cbn [fmap list_fmap]. f_equal.
  - apply list_fmap_ext. intros i j Hj. apply lookup_seqZ in Hj as [-> Hi].
    apply Hold; [apply Z.mod_pos_bound; reflexivity|]. rewrite Hmod in *. zmod.
  - f_equal. rewrite <- Hnew. f_equal. rewrite Hmod in *. zmod.
Qed.

Lemma session_fillGuard (st : state) : session_active st -> fillGuard st = true.
Proof.
  intros (Ha & (info & Hi) & HK). unfold fillGuard. rewrite Ha, Hi. cbn.
  apply andb_true_intro. split; [apply Z.ltb_lt | apply Z.leb_le]; lia.
Qed.

Lemma concat_frames_length (K : Z) (frames : list (list sample)) :
  Forall (fun f => Z.of_nat (length f) = K) frames ->
  Z.of_nat (length (concat frames)) = Z.of_nat (length frames) * K.
Proof.
  induction 1 as [|f frames Hf _ IH]; [reflexivity|].
  cbn [concat length]. rewrite length_app. lia.
Qed.

Lemma frameAt_concat (K : Z) (frames : list (list sample)) (rest : list sample)
  (j : nat) (fr : list sample) :
  0 < K ->
  Forall (fun f => Z.of_nat (length f) = K) frames ->
  frames !! j = Some fr ->
  frameAt (concat frames ++ rest) K (Z.of_nat j) = fr.
Proof.
  intros HK Hall. revert j. induction Hall as [|f frames Hf _ IH]; intros j Hj.
  - discriminate.
  - destruct j as [|j].
    + injection Hj as ->. unfold frameAt. cbn [concat].
      replace (Z.to_nat (Z.of_nat 0 * K)) with 0%nat by lia. cbn [drop].
      rewrite <- app_assoc. apply take_app_length'. lia.
    + cbn in Hj. rewrite <- (IH j Hj). unfold frameAt. cbn [concat].
      rewrite <- app_assoc. f_equal.
      replace (Z.to_nat (Z.of_nat (S j) * K))
        with (length f + Z.to_nat (Z.of_nat j * K))%nat by nia.
      now rewrite drop_app_add.
Qed.

Lemma pushed_ok (st : state) (j : Z) (buf : list sample) :
  state_ok st -> length buf = length (audioBuffer st) ->
  state_ok (pushed st j buf).
Proof.
  intros ((Hab & Hpb & Hts) & Hr & Hw & Hs) Hlen.
  split; [|split; [|split]]; cbn.
  - unfold arrays_ok. cbn. rewrite Hlen. auto.
  - exact Hr.
  - apply Z.mod_pos_bound. reflexivity.
  - exact Hs.
Qed.

(** The frame loop, seen on the queue: the frames of the pull buffer join
    at the back, in order. *)
Lemma copyFrames_contents (st : state) (frames : list (list sample)) :
  state_ok st ->
  session_active st ->
  Forall (fun f => Z.of_nat (length f) = audioChannels st) frames ->
  (forall j fr, frames !! j = Some fr ->
     frameAt (pullBuffer st) (audioChannels st) (Z.of_nat j) = fr) ->
  Z.of_nat (length frames) * audioChannels st
    <= Z.of_nat (length (pullBuffer st)) ->
  samplesAvailable st + Z.of_nat (length frames) <= AUDIO_BUFFER_FRAMES - 1 ->
  exists buf',
    for_range 0 (Z.of_nat (length frames)) copyFrame st
    = Some (pushed st (Z.of_nat (length frames)) buf')
    /\ length buf' = length (audioBuffer st)
    /\ contents (pushed st (Z.of_nat (length frames)) buf')
       = contents st ++ frames
    /\ samplesAvailable (pushed st (Z.of_nat (length frames)) buf')
       = samplesAvailable st + Z.of_nat (length frames).
Proof.
  intros Hok Hsess Hall Hpull Hfit Hroom.
  destruct (for_range_inv
    (fun j t => exists b, t = pushed st j b
       /\ length b = length (audioBuffer st)
       /\ contents t = contents st ++ take (Z.to_nat j) frames
       /\ samplesAvailable t = samplesAvailable st + j)
    copyFrame (Z.of_nat (length frames)) st) as (t & Hrun & b & -> & Hlen & Hc & Ha).
  - lia.
  - exists (audioBuffer st). destruct Hok as (_ & _ & Hw & _).
    unfold pushed. rewrite Z.add_0_r, Z.mod_small by exact Hw.
    destruct st; cbn. rewrite app_nil_r. repeat split; try reflexivity. lia.
  - intros j t Hj (b & -> & Hlen & Hc & Ha).
    pose proof (pushed_ok st j b Hok Hlen) as Hok'.
    assert (Hsess' : session_active (pushed st j b)) by exact Hsess.
    destruct (lookup_lt_is_Some_2 frames (Z.to_nat j)) as [fr Hfr]; [lia|].
    destruct (push_contents (pushed st j b) j Hok' Hsess') as
      (buf' & Hrun & Hlen' & Hc' & Ha'); cbn; try lia.
    { destruct Hsess as (_ & _ & HK). nia. }
    exists (pushed st (j + 1) buf'). split.
    + cbn zeta in Hrun. rewrite Hrun. f_equal. unfold pushed. cbn.
      unfold set_writePos, set_audioBuffer. cbn. f_equal. zmod.
    + exists buf'. split; [reflexivity|]. split; [cbn in Hlen'; congruence|].
      cbn zeta in Hc', Ha'.
      assert (E : set_writePos ((writePos (pushed st j b) + 1) mod AUDIO_BUFFER_FRAMES)
                    (set_audioBuffer buf' (pushed st j b))
                  = pushed st (j + 1) buf').
      { unfold pushed, set_writePos, set_audioBuffer. cbn. f_equal. zmod. }
      rewrite E in Hc', Ha'. split.
      * rewrite Hc', Hc, <- app_assoc. f_equal.
        replace (Z.to_nat (j + 1)) with (S (Z.to_nat j)) by lia.
        rewrite (take_S_r _ _ fr Hfr). f_equal. f_equal.
        cbn. rewrite <- (Hpull _ _ Hfr). f_equal. lia.
      * rewrite Ha', Ha. lia.
  - exists b. split; [exact Hrun|]. split; [exact Hlen|]. split; [|exact Ha].
    rewrite Hc. f_equal. rewrite Nat2Z.id. apply take_ge. lia.
Qed.

(** ** The transport and the frame loop *)

Lemma overwrite_length {A : Type} (new old : list A) :
  (length new <= length old)%nat -> length (overwrite new old) = length old.
Proof. intros H. unfold overwrite. rewrite length_app, length_drop. lia. Qed.

Lemma pull_chunk_total (samples : list sample) (stamps : list float)
  (data : list sample) (ts : list float) (data_len ts_len : Z) :
  data_len <= Z.of_nat (length data) ->
  ts_len <= Z.of_nat (length ts) ->
  exists pb ts' n,
    pull_chunk_multiplexed samples stamps data ts data_len ts_len
    = Some (pb, ts', n)
    /\ length pb = length data /\ length ts' = length ts
    /\ 0 <= n <= Z.max 0 data_len /\ n <= Z.of_nat (length pb).
Proof.
  intros Hd Ht. unfold pull_chunk_multiplexed.
  destruct (Z.leb_spec data_len (Z.of_nat (length data))); [|lia].
  destruct (Z.leb_spec ts_len (Z.of_nat (length ts))); [|lia].
  cbn [andb]. do 3 eexists. split; [reflexivity|].
  rewrite !overwrite_length by (rewrite length_take; lia).
  rewrite length_take. repeat split; lia.
Qed.

Lemma pull_chunk_exact (samples : list sample) (stamps : list float)
  (data : list sample) (ts : list float) (data_len ts_len : Z) :
  Z.of_nat (length samples) <= data_len <= Z.of_nat (length data) ->
  Z.of_nat (length stamps) <= ts_len <= Z.of_nat (length ts) ->
  pull_chunk_multiplexed samples stamps data ts data_len ts_len
  = Some (overwrite samples data, overwrite stamps ts,
          Z.of_nat (length samples)).
Proof.
  intros Hd Ht. unfold pull_chunk_multiplexed.
  destruct (Z.leb_spec data_len (Z.of_nat (length data))); [|lia].
  destruct (Z.leb_spec ts_len (Z.of_nat (length ts))); [|lia].
  cbn [andb]. now rewrite !take_ge by lia.
Qed.

Lemma maxFramesToPull_le (st : state) : maxFramesToPull st <= 512.
Proof. unfold maxFramesToPull. lia. Qed.

(** No pass of the frame loop leaves an array. *)
Lemma copyFrames_total (st : state) (m : Z) :
  arrays_ok st ->
  0 < audioChannels st <= MAX_CHANNELS ->
  m * audioChannels st <= Z.of_nat (length (pullBuffer st)) ->
  exists st',
    for_range 0 m copyFrame st = Some st'
    /\ arrays_ok st'
    /\ audioStreamActive st' = audioStreamActive st
    /\ audioInlet st' = audioInlet st
    /\ audioChannels st' = audioChannels st
    /\ readPos st' = readPos st
    /\ (0 < m -> writePos st' = (writePos st + m) mod AUDIO_BUFFER_FRAMES)
    /\ (m <= 0 -> st' = st).
Proof.
  intros Harr HK Hfit.
  destruct (Z.le_gt_cases m 0) as [Hm|Hm].
  { exists st. unfold for_range. replace (Z.to_nat (m - 0)) with 0%nat by lia.
    repeat split; try reflexivity; try apply Harr; lia. }
  destruct (for_range_inv
    (fun j t => arrays_ok t
       /\ audioStreamActive t = audioStreamActive st
       /\ audioInlet t = audioInlet st
       /\ audioChannels t = audioChannels st
       /\ pullBuffer t = pullBuffer st
       /\ readPos t = readPos st
       /\ writePos t mod AUDIO_BUFFER_FRAMES
          = (writePos st + j) mod AUDIO_BUFFER_FRAMES
       /\ (0 < j -> 0 <= writePos t < AUDIO_BUFFER_FRAMES))
    copyFrame m st) as (t & Hrun & Ht).
  - lia.
  - rewrite Z.add_0_r. repeat split; try reflexivity; try apply Harr; lia.
  - intros j t Hj (Harr' & Ha & Hi & Hk & Hp & Hr & Hwm & _).
    destruct (copyFrame_spec t j Harr') as (buf' & Hrun & Hlen & _);
      try rewrite Hk; try rewrite Hp; try lia; [nia|].
    eexists. split; [exact Hrun|]. cbn.
    destruct Harr' as (Hab & Hpb & Hts). unfold arrays_ok. cbn.
    rewrite Hlen. repeat split; try assumption; try lia;
      try (apply Z.mod_pos_bound; reflexivity).
    rewrite Z.mod_mod by (unfold AUDIO_BUFFER_FRAMES; lia).
    rewrite <- Z.add_mod_idemp_l, Hwm by (unfold AUDIO_BUFFER_FRAMES; lia).
    rewrite Z.add_mod_idemp_l by (unfold AUDIO_BUFFER_FRAMES; lia).
    f_equal. lia.
  - exists t. destruct Ht as (H1 & H2 & H3 & H4 & _ & H6 & H7 & H8).
    split; [exact Hrun|]. split; [exact H1|]. split; [exact H2|].
    split; [exact H3|]. split; [exact H4|]. split; [exact H6|].
    split; [|lia]. intros Hm'. rewrite <- H7. symmetry.
    apply Z.mod_small. now apply H8.
Qed.


(** After the frame loop the slots it went through hold the frames of the
    pull buffer, whether or not the slots were free. *)
Lemma copyFrames_slots (st : state) (m : Z) :
  arrays_ok st ->
  0 < audioChannels st <= MAX_CHANNELS ->
  m * audioChannels st <= Z.of_nat (length (pullBuffer st)) ->
  0 <= m <= AUDIO_BUFFER_FRAMES ->
  exists st',
    for_range 0 m copyFrame st = Some st'
    /\ forall i, 0 <= i < m ->
         frameAt (audioBuffer st') (audioChannels st)
           ((writePos st + i) mod AUDIO_BUFFER_FRAMES)
         = frameAt (pullBuffer st) (audioChannels st) i.
Proof.
  intros Harr HK Hfit Hm.
  destruct (for_range_inv
    (fun j t => arrays_ok t
       /\ audioChannels t = audioChannels st
       /\ pullBuffer t = pullBuffer st
       /\ writePos t mod AUDIO_BUFFER_FRAMES
          = (writePos st + j) mod AUDIO_BUFFER_FRAMES
       /\ forall i, 0 <= i < j ->
            frameAt (audioBuffer t) (audioChannels st)
              ((writePos st + i) mod AUDIO_BUFFER_FRAMES)
            = frameAt (pullBuffer st) (audioChannels st) i)
    copyFrame m st) as (t & Hrun & _ & _ & _ & _ & Hslots).
  - lia.
  - rewrite Z.add_0_r. split; [exact Harr|]. repeat split. intros i Hi. lia.
  - intros j t Hj (Harr' & Hk & Hp & Hwm & Hslots).
    destruct (copyFrame_spec t j Harr') as (buf' & Hrun & Hlen & Hnew & Hold);
      try rewrite Hk; try rewrite Hp; try lia; [nia|].
    eexists. split; [exact Hrun|]. cbn.
    split. { destruct Harr' as (Hab & Hpb & Hts). unfold arrays_ok. cbn.
             rewrite Hlen. auto. }
    split; [exact Hk|]. split; [exact Hp|]. split.
    { rewrite Z.mod_mod by (unfold AUDIO_BUFFER_FRAMES; lia).
      rewrite <- Z.add_mod_idemp_l, Hwm by (unfold AUDIO_BUFFER_FRAMES; lia).
      rewrite Z.add_mod_idemp_l by (unfold AUDIO_BUFFER_FRAMES; lia).
      f_equal. lia. }
    intros i Hi. rewrite Hk, Hp in *.
    destruct (Z.eq_dec i j) as [->|Hne].
    + rewrite <- Hwm. exact Hnew.
    + rewrite Hold; [apply Hslots; lia | apply Z.mod_pos_bound; reflexivity |].
      rewrite Hwm. zmod.
  - exists t. split; [exact Hrun | exact Hslots].
Qed.

(** ** The fill task *)

Lemma fillGuard_true (st : state) :
  fillGuard st = true ->
  audioStreamActive st = true /\ audioInlet st <> InletNull
  /\ 0 < audioChannels st <= MAX_CHANNELS.
Proof.
  unfold fillGuard. intros H.
  apply andb_prop in H as [H H4]. apply andb_prop in H as [H H3].
  apply andb_prop in H as [H1 H2].
  apply Z.ltb_lt in H3. apply Z.leb_le in H4.
  repeat split; try assumption. intros E. now rewrite E in H2.
Qed.

Lemma fill_frame_refl (st : state) : arrays_ok st -> fill_frame st st.
Proof. intros H. unfold fill_frame. tauto. Qed.

(** The fill task never leaves an array, whatever the network hands it. *)
Lemma fill_total (st : state) (net : pull_result) :
  arrays_ok st ->
  (audioStreamActive st = true -> audioInlet st <> InletFreed) ->
  exists st' evs,
    fillAudioBuffer st net = Some (st', evs) /\ fill_frame st st'.
Proof.
  intros Harr Hlive. unfold fillAudioBuffer.
  destruct (fillGuard st) eqn:Hg; cbn [negb];
    [|exists st, []; split; [reflexivity | now apply fill_frame_refl]].
  destruct (fillGuard_true st Hg) as (Ha & Hnn & HK).
  destruct (maxFramesToPull st <=? 0) eqn:Hmax;
    [exists st, []; split; [reflexivity | now apply fill_frame_refl]|].
  apply Z.leb_gt in Hmax. pose proof (maxFramesToPull_le st) as Hle.
  destruct (audioInlet st) as [|info|] eqn:Hin;
    [congruence| |exfalso; now apply Hlive].
  destruct net as [samples stamps|e].
  2:{ do 2 eexists. split; [reflexivity|]. unfold fill_frame. cbn.
      split; [exact Harr|]. repeat split; auto; try lia; try discriminate. }
  pose proof Harr as (Hab & Hpb & Hts).
  destruct (pull_chunk_total samples stamps (pullBuffer st) (timestampBuffer st)
              (maxFramesToPull st * audioChannels st) (maxFramesToPull st))
    as (pb & ts & n & -> & Hlpb & Hlts & Hn & Hnpb).
  { rewrite Hpb. unfold PULL_BUFFER_FRAMES, MAX_CHANNELS in *. nia. }
  { rewrite Hts. unfold PULL_BUFFER_FRAMES. lia. }
  set (st1 := set_pulled pb ts st).
  assert (Harr1 : arrays_ok st1).
  { unfold arrays_ok. cbn. rewrite Hlpb, Hlts. auto. }
  destruct (n / audioChannels st >? 0) eqn:Hfp.
  2:{ exists st1, []. split; [reflexivity|]. unfold fill_frame. cbn.
      split; [exact Harr1|]. repeat split; auto; lia. }
  destruct (copyFrames_total st1 (n / audioChannels st) Harr1 HK)
    as (st2 & -> & Harr2 & Ha2 & Hi2 & Hk2 & Hr2 & Hw2 & _).
  { cbn. pose proof (Z.mul_div_le n (audioChannels st)). lia. }
  assert (Hf : fill_frame st (set_reportCounter (reportCounter st2 + 1) st2)).
  { apply Z.gtb_lt in Hfp. unfold fill_frame. cbn.
    rewrite Hi2, Hk2, Hr2, Ha2. cbn.
    split; [exact Harr2|]. repeat split; auto; rewrite Hw2 by lia;
      apply Z.mod_pos_bound; reflexivity. }
  destruct (Z.rem (reportCounter st2 + 1) 1000 =? 0);
    do 2 eexists; (split; [reflexivity | exact Hf]).
Qed.

(** Away from the state [readPos = writePos + 1] the space computed by the
    fill task is the slack-by-one space. *)
Lemma writeSpace_slack (st : state) :
  audioStreamActive st = true ->
  0 <= readPos st < AUDIO_BUFFER_FRAMES ->
  0 <= writePos st < AUDIO_BUFFER_FRAMES ->
  readPos st <> writePos st + 1 ->
  writeSpace st + samplesAvailable st = AUDIO_BUFFER_FRAMES - 1.
Proof.
  intros Ha Hr Hw Hne. unfold writeSpace, samplesAvailable. rewrite Ha.
  cbn [negb]. unfold AUDIO_BUFFER_FRAMES in *.
  destruct (Z.leb_spec (readPos st - writePos st - 1) 0);
    destruct (Z.ltb_spec (writePos st - readPos st) 0); lia.
Qed.

(** In the state [readPos = writePos + 1], where the buffer holds
    [capacity - 1] frames, the fill task computes a space of [capacity]. *)
Lemma writeSpace_wrapped_full (st : state) :
  audioStreamActive st = true ->
  readPos st = writePos st + 1 ->
  writeSpace st = AUDIO_BUFFER_FRAMES
  /\ samplesAvailable st = AUDIO_BUFFER_FRAMES - 1.
Proof.
  intros Ha Hr. unfold writeSpace, samplesAvailable. rewrite Ha, Hr.
  cbn [negb]. unfold AUDIO_BUFFER_FRAMES.
  destruct (Z.leb_spec (writePos st + 1 - writePos st - 1) 0);
    destruct (Z.ltb_spec (writePos st - (writePos st + 1)) 0); lia.
Qed.

Lemma writeSpace_room (st : state) :
  audioStreamActive st = true ->
  0 <= readPos st < AUDIO_BUFFER_FRAMES ->
  0 <= writePos st < AUDIO_BUFFER_FRAMES ->
  samplesAvailable st < AUDIO_BUFFER_FRAMES - 1 ->
  writeSpace st = AUDIO_BUFFER_FRAMES - 1 - samplesAvailable st.
Proof.
  intros Ha Hr Hw Hroom.
  destruct (Z.eq_dec (readPos st) (writePos st + 1)) as [E|E].
  - destruct (writeSpace_wrapped_full st Ha E). lia.
  - pose proof (writeSpace_slack st Ha Hr Hw E). lia.
Qed.

Lemma contents_length (st : state) :
  0 <= readPos st < AUDIO_BUFFER_FRAMES ->
  0 <= writePos st < AUDIO_BUFFER_FRAMES ->
  Z.of_nat (length (contents st)) = samplesAvailable st.
Proof.
  intros Hr Hw. unfold contents. rewrite length_fmap, length_seqZ.
  pose proof (samplesAvailable_range st Hr Hw). lia.
Qed.

(** An invocation of the fill task that finds the frames [frames] waiting,
    seen on the queue: they join at the back. *)
Lemma fill_chunk (st : state) (frames : list (list sample)) :
  state_ok st ->
  session_active st ->
  Forall (fun f => Z.of_nat (length f) = audioChannels st) frames ->
  Z.of_nat (length frames) <= 512 ->
  samplesAvailable st + Z.of_nat (length frames) <= AUDIO_BUFFER_FRAMES - 1 ->
  exists st' evs,
    fillAudioBuffer st (chunk frames) = Some (st', evs)
    /\ state_ok st' /\ session_active st'
    /\ contents st' = contents st ++ frames
    /\ readPos st' = readPos st
    /\ audioChannels st' = audioChannels st.
Proof.
  intros Hok Hsess Hall Hm Hroom.
  pose proof Hok as (Harr & Hr & Hw & _).
  pose proof Hsess as (Hact & (info & Hin) & HK).
  pose proof Harr as (Hab & Hpb & Hts).
  destruct (decide (frames = [])) as [->|Hne].
  { destruct (fill_total st (chunk []) Harr) as (st' & evs & Hrun & Hf);
      [rewrite Hin; discriminate|].
    exists st', evs. split; [exact Hrun|].
    unfold fillAudioBuffer in Hrun. rewrite (session_fillGuard st Hsess) in Hrun.
    cbn [negb] in Hrun. rewrite Hin in Hrun.
    destruct (maxFramesToPull st <=? 0) eqn:Hmax.
    - injection Hrun as <- <-. rewrite app_nil_r. auto.
    - apply Z.leb_gt in Hmax. pose proof (maxFramesToPull_le st).
      unfold chunk in Hrun. cbn [concat length replicate] in Hrun.
      rewrite pull_chunk_exact in Hrun; cbn [length];
        [|rewrite Hpb; unfold PULL_BUFFER_FRAMES, MAX_CHANNELS in *; nia
         |rewrite Hts; unfold PULL_BUFFER_FRAMES; lia].
      cbn in Hrun. injection Hrun as <- <-. rewrite app_nil_r.
      unfold overwrite. cbn. destruct st; cbn in *. auto. }
  assert (Hpos : 0 < Z.of_nat (length frames))
    by (destruct frames; [congruence | cbn; lia]).
  pose proof (samplesAvailable_range st Hr Hw) as Hav.
  assert (Hspace : writeSpace st = AUDIO_BUFFER_FRAMES - 1 - samplesAvailable st)
    by (apply writeSpace_room; try assumption; lia).
  assert (Hmax : Z.of_nat (length frames) <= maxFramesToPull st <= 512)
    by (unfold maxFramesToPull; lia).
  pose proof (concat_frames_length _ _ Hall) as Hcl.
  unfold fillAudioBuffer. rewrite (session_fillGuard st Hsess). cbn [negb].
  destruct (Z.leb_spec (maxFramesToPull st) 0); [lia|]. rewrite Hin.
  unfold chunk. rewrite pull_chunk_exact;
    [|rewrite Hpb; unfold PULL_BUFFER_FRAMES, MAX_CHANNELS in *; nia
     |rewrite length_replicate, Hts; unfold PULL_BUFFER_FRAMES; lia].
  rewrite Hcl, Z.div_mul by lia.
  destruct (Z.gtb_spec (Z.of_nat (length frames)) 0); [|lia].
  set (st1 := set_pulled _ _ st).
  assert (Hok1 : state_ok st1).
  { split; [|split; [|split]]; cbn; try assumption.
    - unfold arrays_ok. cbn.
      rewrite !overwrite_length
        by (rewrite ?length_replicate, ?Hts, ?Hpb;
            unfold PULL_BUFFER_FRAMES, MAX_CHANNELS in *; nia).
      auto.
    - intros _. exact Hsess. }
  destruct (copyFrames_contents st1 frames Hok1 Hsess Hall)
    as (buf' & -> & Hlen & Hc & Ha).
  { intros j fr Hj. cbn. unfold overwrite. now apply frameAt_concat. }
  { cbn. rewrite overwrite_length;
      rewrite Hpb; unfold PULL_BUFFER_FRAMES, MAX_CHANNELS in *; nia. }
  { exact Hroom. }
  pose proof (pushed_ok st1 (Z.of_nat (length frames)) buf' Hok1 Hlen) as Hok2.
  set (st2 := pushed st1 _ buf') in *.
  assert (Hfin : forall c, state_ok (set_reportCounter c st2)
            /\ session_active (set_reportCounter c st2)
            /\ contents (set_reportCounter c st2) = contents st ++ frames
            /\ readPos (set_reportCounter c st2) = readPos st
            /\ audioChannels (set_reportCounter c st2) = audioChannels st).
  { intros c. split; [exact Hok2|]. split; [exact Hsess|].
    split; [exact Hc|]. split; reflexivity. }
  destruct (Z.rem (reportCounter st2 + 1) 1000 =? 0);
    do 2 eexists; (split; [reflexivity | apply Hfin]).
Qed.

(** ** The output loop *)

Lemma frameReady_true (st : state) :
  frameReady st = true <->
  audioStreamActive st = true /\ 0 < samplesAvailable st.
Proof.
  unfold frameReady. rewrite andb_true_iff, Z.gtb_lt. tauto.
Qed.

Lemma frameWrites_snoc (n : Z) (vals : list sample) (v : sample) :
  frameWrites n (vals ++ [v])
  = frameWrites n vals ++ [mkWrite n (Z.of_nat (length vals)) v].
Proof.
  unfold frameWrites. rewrite imap_app. cbn. now rewrite Nat.add_0_r.
Qed.

Lemma frameWrites_channels (n : Z) (vals : list sample) :
  w_channel <$> frameWrites n vals = seqZ 0 (Z.of_nat (length vals)).
Proof.
  induction vals as [|v vals IH] using rev_ind; [reflexivity|].
  rewrite frameWrites_snoc, fmap_app, IH, length_app. cbn [length fmap list_fmap].
  replace (Z.of_nat (length vals + 1)) with (Z.of_nat (length vals) + 1) by lia.
  now rewrite seqZ_snoc by lia.
Qed.

(** The channel loop of a played frame writes the first
    [min(audioChannels, audioOutChannels)] samples of the slot. *)
Lemma writeChannels_spec (buf : list sample) (K s outs n : Z)
  (acc : list audio_write) :
  0 < K <= MAX_CHANNELS -> 0 <= s < AUDIO_BUFFER_FRAMES -> 0 <= outs ->
  length buf = Z.to_nat (AUDIO_BUFFER_FRAMES * MAX_CHANNELS) ->
  for_range 0 (Z.min (to_unsigned K) outs) (writeChannel buf (s * K) n) acc
  = Some (acc ++ frameWrites n (take (Z.to_nat outs) (frameAt buf K s))).
Proof.
  intros HK Hs Houts Hlen.
  assert (HuK : to_unsigned K = K)
    by (unfold to_unsigned, MAX_CHANNELS in *; apply Z.mod_small; lia).
  rewrite HuK.
  assert (Hfl : length (frameAt buf K s) = Z.to_nat K).
  { apply frameAt_length; try lia. rewrite Hlen.
    unfold AUDIO_BUFFER_FRAMES, MAX_CHANNELS in *. nia. }
  destruct (for_range_inv
    (fun j out => out = acc ++ frameWrites n (take (Z.to_nat j) (frameAt buf K s)))
    (writeChannel buf (s * K) n) (Z.min K outs) acc) as (out & Hrun & ->).
  - lia.
  - cbn. now rewrite app_nil_r.
  - intros j out Hj ->. unfold writeChannel.
    destruct (lookup_lt_is_Some_2 (frameAt buf K s) (Z.to_nat j)) as [v Hv];
      [lia|].
    assert (Hget : aget buf (to_unsigned (s * K + j)) = Some v).
    { unfold to_unsigned. rewrite Z.mod_small
        by (unfold AUDIO_BUFFER_FRAMES, MAX_CHANNELS in *; nia).
      apply aget_Some. split; [nia|].
      rewrite frameAt_lookup in Hv by lia.
      destruct (decide _); [|discriminate]. rewrite <- Hv. f_equal. nia. }
    rewrite Hget. eexists. split; [reflexivity|].
    replace (Z.to_nat (j + 1)) with (S (Z.to_nat j)) by lia.
    rewrite (take_S_r _ _ v Hv), frameWrites_snoc, app_assoc.
    do 3 f_equal. rewrite length_take. lia.
  - rewrite Hrun. do 3 f_equal.
    destruct (Z.le_ge_cases K outs).
    + rewrite Z.min_l by lia. rewrite !take_ge by lia. reflexivity.
    + now rewrite Z.min_r by lia.
Qed.

(** A frame is ready: the frame at [readPos] is played and [readPos] moves. *)
Lemma renderFrame_pop (st : state) (outs n : Z) (acc : list audio_write) :
  state_ok st -> frameReady st = true -> 0 <= outs ->
  renderFrame outs n (st, acc)
  = Some (set_readPos ((readPos st + 1) mod AUDIO_BUFFER_FRAMES) st,
          acc ++ frameWrites n
                   (take (Z.to_nat outs)
                      (frameAt (audioBuffer st) (audioChannels st) (readPos st)))).
Proof.
  intros (Harr & Hr & Hw & Hs) Hready Houts. unfold renderFrame.
  rewrite Hready. apply frameReady_true in Hready as [Ha Hav].
  destruct (Hs Ha) as (_ & _ & HK). rewrite !land_bufferMask.
  rewrite (Z.mod_small (readPos st)) by exact Hr.
  rewrite writeChannels_spec; try assumption; [reflexivity | apply Harr].
Qed.

(** No frame is ready: silence on every output channel, nothing moves. *)
Lemma renderFrame_silent (st : state) (outs n : Z) (acc : list audio_write) :
  frameReady st = false ->
  renderFrame outs n (st, acc)
  = Some (st, acc ++ ((fun ch => mkWrite n ch silence) <$> seqZ 0 outs)).
Proof.
  intros Hready. unfold renderFrame. rewrite Hready.
  destruct (Z.le_gt_cases outs 0) as [Ho|Ho].
  { unfold for_range. replace (Z.to_nat (outs - 0)) with 0%nat by lia.
    cbn. rewrite seqZ_nil by lia. now rewrite app_nil_r. }
  destruct (for_range_inv
    (fun j out => out = acc ++ ((fun ch => mkWrite n ch silence) <$> seqZ 0 j))
    (writeSilence n) outs acc) as (out & -> & ->).
  - lia.
  - cbn. now rewrite app_nil_r.
  - intros j out Hj ->. eexists. split; [reflexivity|].
    rewrite seqZ_snoc by lia. now rewrite fmap_app, app_assoc.
  - reflexivity.
Qed.

(** A pop, seen on the queue: the front frame leaves. *)
Lemma pop_contents (st : state) :
  state_ok st -> frameReady st = true ->
  contents st
  = frameAt (audioBuffer st) (audioChannels st) (readPos st)
    :: contents (set_readPos ((readPos st + 1) mod AUDIO_BUFFER_FRAMES) st).
Proof.
  intros (Harr & Hr & Hw & Hs) Hready.
  apply frameReady_true in Hready as [Ha Hav].
  pose proof (samplesAvailable_mod st Ha Hr Hw) as Hmod.
  assert (Hr' : 0 <= (readPos st + 1) mod AUDIO_BUFFER_FRAMES < AUDIO_BUFFER_FRAMES)
    by (apply Z.mod_pos_bound; reflexivity).
  assert (Hav' : samplesAvailable
                   (set_readPos ((readPos st + 1) mod AUDIO_BUFFER_FRAMES) st)
                 = samplesAvailable st - 1).
  { rewrite samplesAvailable_mod; cbn; try assumption. rewrite Hmod in *. zmod. }
  unfold contents. rewrite Hav'. cbn [set_readPos readPos audioBuffer audioChannels].
  rewrite (seqZ_cons 0) by lia. cbn [fmap list_fmap]. f_equal.
  - f_equal. rewrite Z.add_0_r. now apply Z.mod_small.
  - rewrite <- (fmap_add_seqZ 1 0). rewrite <- list_fmap_compose.
    apply list_fmap_ext. intros i j _. cbn. f_equal. zmod.
Qed.

Lemma set_readPos_ok (st : state) (p : Z) :
  state_ok st -> 0 <= p < AUDIO_BUFFER_FRAMES -> state_ok (set_readPos p st).
Proof. intros (Harr & Hr & Hw & Hs) Hp. repeat split; try apply Harr; try apply Hs; tauto || lia. Qed.

(** ** Blocks of output frames and successive fills *)

Lemma contents_ready (st : state) (f : list sample) (rest : list (list sample)) :
  state_ok st -> session_active st -> contents st = f :: rest ->
  frameReady st = true.
Proof.
  intros (_ & Hr & Hw & _) (Ha & _) Hc. apply frameReady_true.
  split; [exact Ha|]. rewrite <- contents_length, Hc by assumption. cbn. lia.
Qed.

(** The output loop over a queue that holds [frames] at its front. *)
Lemma render_frames (outs : Z) (frames rest : list (list sample)) :
  0 <= outs ->
  forall (st : state) (n : Z) (acc : list audio_write),
  state_ok st -> session_active st -> contents st = frames ++ rest ->
  exists st',
    for_loop (renderFrame outs) (length frames) n (st, acc)
    = Some (st', acc ++ blockWrites outs n frames)
    /\ state_ok st' /\ session_active st' /\ contents st' = rest
    /\ writePos st' = writePos st
    /\ audioChannels st' = audioChannels st
    /\ readPos st'
       = (readPos st + Z.of_nat (length frames)) mod AUDIO_BUFFER_FRAMES.
Proof.
  intros Houts. induction frames as [|f frames IH]; intros st n acc Hok Hs Hc.
  - exists st. cbn. rewrite app_nil_r, Z.add_0_r.
    split; [reflexivity|]. split; [exact Hok|]. split; [exact Hs|].
    split; [exact Hc|]. split; [reflexivity|]. split; [reflexivity|].
    symmetry. apply Z.mod_small, Hok.
  - pose proof (contents_ready st f (frames ++ rest) Hok Hs Hc) as Hready.
    pose proof (pop_contents st Hok Hready) as Hpop. rewrite Hc in Hpop.
    injection Hpop as Hf Hrest.
    set (st1 := set_readPos ((readPos st + 1) mod AUDIO_BUFFER_FRAMES) st) in *.
    assert (Hok1 : state_ok st1)
      by (apply set_readPos_ok; [exact Hok | apply Z.mod_pos_bound; reflexivity]).
    destruct (IH st1 (n + 1)
                (acc ++ frameWrites n (take (Z.to_nat outs) f)) Hok1 Hs)
      as (st' & Hrun & Hok' & Hs' & Hc' & Hw' & Hk' & Hr'); [now symmetry|].
    exists st'. cbn [for_loop length]. rewrite renderFrame_pop by assumption.
    fold st1. rewrite <- Hf, Hrun. unfold blockWrites.
    cbn [fmap list_fmap playedFrames]. rewrite app_assoc.
    split; [reflexivity|]. split; [exact Hok'|]. split; [exact Hs'|].
    split; [exact Hc'|]. split; [exact Hw'|]. split; [exact Hk'|].
    rewrite Hr'. cbn. zmod.
Qed.

(** Without a ready frame the output loop writes silence and moves nothing. *)
Lemma render_silence (outs : Z) (st : state) :
  frameReady st = false ->
  forall (count : nat) (n : Z) (acc : list audio_write),
  for_loop (renderFrame outs) count n (st, acc)
  = Some (st, acc ++ silentWrites outs count n).
Proof.
  intros Hready. induction count as [|count IH]; intros n acc.
  - cbn. now rewrite app_nil_r.
  - cbn [for_loop silentWrites]. rewrite renderFrame_silent by exact Hready.
    rewrite IH. now rewrite app_assoc.
Qed.

(** Successive fills, seen on the queue. *)
Lemma fills_chunks (chunks : list (list (list sample))) :
  forall st : state,
  state_ok st -> session_active st ->
  Forall (fun c => Z.of_nat (length c) <= 512) chunks ->
  Forall (fun f => Z.of_nat (length f) = audioChannels st) (concat chunks) ->
  samplesAvailable st + Z.of_nat (length (concat chunks))
    <= AUDIO_BUFFER_FRAMES - 1 ->
  exists st',
    fills (chunk <$> chunks) st = Some st'
    /\ state_ok st' /\ session_active st'
    /\ contents st' = contents st ++ concat chunks
    /\ readPos st' = readPos st
    /\ audioChannels st' = audioChannels st.
Proof.
  induction chunks as [|c chunks IH]; intros st Hok Hs Hsz Hall Hroom.
  - exists st. cbn. rewrite app_nil_r. split; [reflexivity|].
    split; [exact Hok|]. split; [exact Hs|]. repeat split; reflexivity.
  - cbn [concat] in Hall, Hroom. rewrite length_app in Hroom.
    apply Forall_app in Hall as [Hc Hrest].
    apply Forall_cons in Hsz as [Hc512 Hsz].
    destruct (fill_chunk st c Hok Hs Hc Hc512)
      as (st1 & evs & Hrun & Hok1 & Hs1 & Hc1 & Hr1 & Hk1); [lia|].
    destruct (IH st1 Hok1 Hs1 Hsz) as (st' & Hrun' & Hok' & Hs' & Hc' & Hr' & Hk').
    + now rewrite Hk1.
    + destruct Hok as (_ & Hr & Hw & _). destruct Hok1 as (_ & Hr1' & Hw1 & _).
      rewrite <- contents_length, Hc1, length_app by assumption.
      rewrite <- contents_length in Hroom by assumption. lia.
    + exists st'. cbn [fmap list_fmap fills]. rewrite Hrun.
      split; [exact Hrun'|]. split; [exact Hok'|]. split; [exact Hs'|].
      split; [|split; congruence].
      rewrite Hc', Hc1. cbn [concat]. now rewrite app_assoc.
Qed.

(** Whatever the occupancy, the fill task copies every frame it asked for. *)
Lemma fill_accepts (st : state) (frames : list (list sample)) :
  arrays_ok st ->
  session_active st ->
  Forall (fun f => Z.of_nat (length f) = audioChannels st) frames ->
  0 < Z.of_nat (length frames) <= maxFramesToPull st ->
  exists st' evs,
    fillAudioBuffer st (chunk frames) = Some (st', evs)
    /\ writePos st'
       = (writePos st + Z.of_nat (length frames)) mod AUDIO_BUFFER_FRAMES
    /\ readPos st' = readPos st
    /\ audioStreamActive st' = true
    /\ forall (i : nat) (fr : list sample), frames !! i = Some fr ->
         frameAt (audioBuffer st') (audioChannels st)
           ((writePos st + Z.of_nat i) mod AUDIO_BUFFER_FRAMES) = fr.
Proof.
  intros Harr Hsess Hall Hm.
  pose proof Hsess as (Hact & (info & Hin) & HK).
  pose proof Harr as (Hab & Hpb & Hts).
  pose proof (maxFramesToPull_le st) as Hle.
  pose proof (concat_frames_length _ _ Hall) as Hcl.
  unfold fillAudioBuffer. rewrite (session_fillGuard st Hsess). cbn [negb].
  destruct (Z.leb_spec (maxFramesToPull st) 0); [lia|]. rewrite Hin.
  unfold chunk. rewrite pull_chunk_exact;
    [|rewrite Hpb; unfold PULL_BUFFER_FRAMES, MAX_CHANNELS in *; nia
     |rewrite length_replicate, Hts; unfold PULL_BUFFER_FRAMES; lia].
  rewrite Hcl, Z.div_mul by lia.
  destruct (Z.gtb_spec (Z.of_nat (length frames)) 0); [|lia].
  set (st1 := set_pulled _ _ st).
  assert (Harr1 : arrays_ok st1).
  { unfold arrays_ok. cbn.
    rewrite !overwrite_length
      by (rewrite ?length_replicate, ?Hts, ?Hpb;
          unfold PULL_BUFFER_FRAMES, MAX_CHANNELS in *; nia).
    auto. }
  assert (Hfit : Z.of_nat (length frames) * audioChannels st1
                 <= Z.of_nat (length (pullBuffer st1))).
  { cbn. rewrite overwrite_length;
      rewrite Hpb; unfold PULL_BUFFER_FRAMES, MAX_CHANNELS in *; nia. }
  destruct (copyFrames_slots st1 (Z.of_nat (length frames)) Harr1 HK Hfit)
    as (st2' & Hrun' & Hslots); [unfold AUDIO_BUFFER_FRAMES; lia|].
  destruct (copyFrames_total st1 (Z.of_nat (length frames)) Harr1 HK Hfit)
    as (st2 & Hrun & _ & Ha2 & _ & _ & Hr2 & Hw2 & _).
  rewrite Hrun in Hrun'. injection Hrun' as <-. rewrite Hrun.
  specialize (Hw2 ltac:(lia)). cbn in Ha2, Hr2, Hw2.
  assert (Hfr : forall (i : nat) (fr : list sample), frames !! i = Some fr ->
            frameAt (audioBuffer st2) (audioChannels st)
              ((writePos st + Z.of_nat i) mod AUDIO_BUFFER_FRAMES) = fr).
  { intros i fr Hi. pose proof (lookup_lt_Some _ _ _ Hi) as Hlt.
    specialize (Hslots (Z.of_nat i) ltac:(lia)). cbn in Hslots.
    rewrite Hslots. unfold overwrite. now apply frameAt_concat. }
  destruct (Z.rem (reportCounter st2 + 1) 1000 =? 0);
    do 2 eexists; (split; [reflexivity|]); cbn; rewrite Ha2; auto.
Qed.

(** ** The concrete runs *)

Lemma connected_ok : state_ok connected /\ session_active connected.
Proof.
  assert (Hs : session_active connected).
  { split; [reflexivity|]. split; [now exists monoInfo|]. cbn.
    unfold MAX_CHANNELS. lia. }
  split; [|exact Hs]. split; [|split; [|split]]; cbn;
    unfold AUDIO_BUFFER_FRAMES; try lia; [|now intros _].
  unfold arrays_ok. cbn. now rewrite !length_replicate.
Qed.

Lemma connected_empty : contents connected = [].
Proof. reflexivity. Qed.

Lemma tone_frames (v : sample) (m : Z) (K : Z) :
  K = 1 -> Forall (fun f => Z.of_nat (length f) = K) (tone v m).
Proof. intros ->. unfold tone. apply Forall_replicate. reflexivity. Qed.

Lemma fullLoad_concat (v : sample) : concat (fullLoad v) = tone v 8191.
Proof. vm_compute. reflexivity. Qed.

Lemma tone_length (v : sample) (m : Z) :
  0 <= m -> Z.of_nat (length (tone v m)) = m.
Proof. intros Hm. unfold tone. rewrite length_replicate. lia. Qed.

Lemma fullLoad_sizes (v : sample) :
  Forall (fun c => Z.of_nat (length c) <= 512) (fullLoad v).
Proof.
  unfold fullLoad. apply Forall_app. split.
  - apply Forall_replicate. rewrite tone_length; lia.
  - apply Forall_cons. split; [|constructor]. rewrite tone_length; lia.
Qed.

(** Index of [writePos] from the occupancy. *)
Lemma writePos_from_available (st : state) :
  audioStreamActive st = true ->
  0 <= readPos st < AUDIO_BUFFER_FRAMES ->
  0 <= writePos st < AUDIO_BUFFER_FRAMES ->
  writePos st = (readPos st + samplesAvailable st) mod AUDIO_BUFFER_FRAMES.
Proof.
  intros Ha Hr Hw. rewrite (samplesAvailable_mod st Ha Hr Hw). zmod.
Qed.

(** A full load pushed into an empty buffer whose indices stand at [p]. *)
Lemma fullLoad_from_empty (st : state) (v : sample) :
  state_ok st -> session_active st -> audioChannels st = 1 ->
  readPos st = writePos st ->
  exists st',
    fills (chunk <$> fullLoad v) st = Some st'
    /\ state_ok st' /\ session_active st'
    /\ contents st' = tone v 8191
    /\ readPos st' = readPos st
    /\ writePos st' = (readPos st + 8191) mod AUDIO_BUFFER_FRAMES
    /\ audioChannels st' = 1.
Proof.
  intros Hok Hs HK Hemp.
  pose proof Hok as (_ & Hr & Hw & _). pose proof Hs as (Ha & _).
  assert (Hav : samplesAvailable st = 0).
  { rewrite samplesAvailable_mod by assumption. rewrite Hemp.
    now rewrite Z.sub_diag. }
  destruct (fills_chunks (fullLoad v) st Hok Hs (fullLoad_sizes v))
    as (st' & Hrun & Hok' & Hs' & Hc & Hr' & Hk').
  - rewrite fullLoad_concat. now apply tone_frames.
  - rewrite fullLoad_concat, Hav, tone_length by lia.
    unfold AUDIO_BUFFER_FRAMES. lia.
  - exists st'. rewrite fullLoad_concat in Hc.
    assert (Hc0 : contents st = []).
    { unfold contents. rewrite Hav. reflexivity. }
    rewrite Hc0 in Hc. cbn [app] in Hc.
    repeat split; try assumption; try apply Hok'; try apply Hs'; try congruence.
    pose proof Hok' as (_ & Hr1 & Hw1 & _). destruct Hs' as (Ha' & _).
    rewrite (writePos_from_available st' Ha' Hr1 Hw1).
    rewrite <- contents_length, Hc, tone_length, Hr' by (assumption || lia).
    reflexivity.
Qed.

(** The state [oneFrame]: the frame [[7]] waits in the ring of a mono
    session. *)
Lemma oneFrame_spec :
  state_ok oneFrame /\ session_active oneFrame
  /\ contents oneFrame = [[7]] /\ samplesAvailable oneFrame = 1
  /\ frameReady oneFrame = true
  /\ readPos oneFrame = 0 /\ audioChannels oneFrame = 1.
Proof.
  destruct connected_ok as [Hok Hs].
  destruct (fill_chunk connected (tone 7 1) Hok Hs)
    as (st1 & evs & Hrun & Hok1 & Hs1 & Hc1 & Hr1 & Hk1).
  { now apply tone_frames. }
  { rewrite tone_length; lia. }
  { rewrite tone_length by lia. vm_compute. discriminate. }
  unfold oneFrame. rewrite Hrun.
  assert (Hav : samplesAvailable st1 = 1).
  { destruct Hok1 as (_ & Hr & Hw & _).
    rewrite <- contents_length, Hc1 by assumption. reflexivity. }
  split; [exact Hok1|]. split; [exact Hs1|]. split; [exact Hc1|].
  split; [exact Hav|].
  split; [exact (contents_ready st1 [7] [] Hok1 Hs1 Hc1)|].
  split; [exact Hr1 | exact Hk1].
Qed.

Lemma for_loop_app {T : Type} (body : Z -> T -> option T) (a b : nat) :
  forall (i : Z) (s : T),
  for_loop body (a + b) i s
  = match for_loop body a i s with
    | Some s' => for_loop body b (i + Z.of_nat a) s'
    | None => None
    end.
Proof.
  induction a as [|a IH]; intros i s.
  - cbn. now rewrite Z.add_0_r.
  - cbn [for_loop Nat.add]. destruct (body i s) as [s'|]; [|reflexivity].
    rewrite IH. replace (i + 1 + Z.of_nat a) with (i + Z.of_nat (S a)) by lia.
    reflexivity.
Qed.

Lemma fills_app (l1 l2 : list pull_result) (st : state) :
  fills (l1 ++ l2) st
  = match fills l1 st with Some st' => fills l2 st' | None => None end.
Proof.
  revert st. induction l1 as [|net l1 IH]; intros st; [reflexivity|].
  cbn [fills app]. destruct (fillAudioBuffer st net) as [[st' evs]|];
    [apply IH | reflexivity].
Qed.

Lemma playedFrames_app (l1 l2 : list (list sample)) :
  forall n : Z,
  playedFrames n (l1 ++ l2)
  = playedFrames n l1 ++ playedFrames (n + Z.of_nat (length l1)) l2.
Proof.
  induction l1 as [|f l1 IH]; intros n.
  - cbn. now rewrite Z.add_0_r.
  - cbn [playedFrames app length]. rewrite IH, <- app_assoc.
    do 3 f_equal. lia.
Qed.

Lemma blockWrites_whole (outs n : Z) (K : Z) (frames : list (list sample)) :
  Forall (fun f => Z.of_nat (length f) = K) frames -> K <= outs ->
  blockWrites outs n frames = playedFrames n frames.
Proof.
  intros Hall Hk. unfold blockWrites. f_equal.
  induction Hall as [|f frames Hf _ IH]; [reflexivity|].
  cbn [fmap list_fmap]. rewrite take_ge by lia. f_equal. exact IH.
Qed.

(** A block of as many output frames as the queue has frames at its front. *)
Lemma renderOutput_frames (outs : Z) (frames rest : list (list sample))
  (st : state) :
  0 <= outs -> state_ok st -> session_active st ->
  contents st = frames ++ rest ->
  exists st',
    renderOutput (Z.of_nat (length frames)) outs st
    = Some (st', blockWrites outs 0 frames)
    /\ state_ok st' /\ session_active st' /\ contents st' = rest
    /\ writePos st' = writePos st
    /\ audioChannels st' = audioChannels st
    /\ readPos st'
       = (readPos st + Z.of_nat (length frames)) mod AUDIO_BUFFER_FRAMES.
Proof.
  intros Houts Hok Hs Hc. unfold renderOutput, for_range.
  replace (Z.to_nat (Z.of_nat (length frames) - 0)) with (length frames) by lia.
  exact (render_frames outs frames rest Houts st 0 [] Hok Hs Hc).
Qed.

Lemma empty_indices (st : state) :
  state_ok st -> session_active st -> contents st = [] ->
  readPos st = writePos st.
Proof.
  intros (_ & Hr & Hw & _) (Ha & _) Hc.
  pose proof (contents_length st Hr Hw) as Hl. rewrite Hc in Hl. cbn in Hl.
  rewrite (writePos_from_available st Ha Hr Hw), <- Hl, Z.add_0_r.
  symmetry. now apply Z.mod_small.
Qed.

Lemma warmUp_connected :
  exists st, warmUp connected = Some st
    /\ state_ok st /\ session_active st /\ audioChannels st = 1
    /\ readPos st = 1 /\ writePos st = 1.
Proof.
  destruct connected_ok as [Hok Hs].
  destruct (fill_chunk connected (tone 5 1) Hok Hs)
    as (st1 & evs & Hrun & Hok1 & Hs1 & Hc1 & Hr1 & Hk1).
  { now apply tone_frames. }
  { rewrite tone_length; lia. }
  { rewrite tone_length by lia. vm_compute. discriminate. }
  rewrite connected_empty in Hc1. cbn [app] in Hc1.
  destruct (renderOutput_frames 1 (tone 5 1) [] st1) as
    (st2 & Hrun2 & Hok2 & Hs2 & Hc2 & Hw2 & Hk2 & Hr2);
    try assumption; try lia; try (now rewrite app_nil_r).
  exists st2. unfold warmUp. rewrite Hrun.
  change (renderOutput 1 1 st1)
    with (renderOutput (Z.of_nat (length (tone 5 1))) 1 st1).
  rewrite Hrun2.
  assert (Hr2' : readPos st2 = 1) by (rewrite Hr2, Hr1; reflexivity).
  pose proof (empty_indices st2 Hok2 Hs2 Hc2) as He.
  split; [reflexivity|]. split; [exact Hok2|]. split; [exact Hs2|].
  split; [rewrite Hk2, Hk1; reflexivity|]. split; congruence.
Qed.

(** The run that reaches the full buffer with [readPos = writePos + 1]. *)
Lemma wrappedFull_state :
  exists st, wrappedFull = Some st
    /\ state_ok st /\ session_active st /\ audioChannels st = 1
    /\ readPos st = 1 /\ writePos st = 0
    /\ contents st = tone 7 8191.
Proof.
  destruct warmUp_connected as (st0 & Hrun0 & Hok0 & Hs0 & Hk0 & Hr0 & Hw0).
  destruct (fullLoad_from_empty st0 7 Hok0 Hs0 Hk0)
    as (st & Hrun & Hok & Hs & Hc & Hr & Hw & Hk); [congruence|].
  exists st. unfold wrappedFull. rewrite Hrun0.
  split; [exact Hrun|]. split; [exact Hok|]. split; [exact Hs|].
  split; [exact Hk|]. split; [congruence|]. split; [|exact Hc].
  rewrite Hw, Hr0. reflexivity.
Qed.

(** ** The slack slot: C1 and C2 *)

(** The oldest frame of a queue sits in the slot at [readPos]. *)
Lemma oldest_frame (st : state) (f : list sample) (rest : list (list sample)) :
  state_ok st -> session_active st -> contents st = f :: rest ->
  frameAt (audioBuffer st) (audioChannels st) (readPos st) = f.
Proof.
  intros Hok Hs Hc. pose proof (contents_ready st f rest Hok Hs Hc) as Hready.
  pose proof (pop_contents st Hok Hready) as Hpop. rewrite Hc in Hpop.
  now injection Hpop.
Qed.

Lemma tone_cons (v : sample) (m : Z) :
  0 < m -> tone v m = [v] :: tone v (m - 1).
Proof.
  intros Hm. unfold tone.
  replace (Z.to_nat m) with (S (Z.to_nat (m - 1))) by lia. reflexivity.
Qed.

(** C1. The slack invariant [writeSpace + samplesAvailable = capacity - 1]
    does not hold in every reachable state. After one frame pushed and
    played and then [capacity - 1] frames pushed, the buffer is full with
    [readPos = 1] and [writePos = 0]; the fill task's test [available <= 0]
    takes the difference [readPos - writePos - 1 = 0] for a wrap and adds
    the capacity, so the space it computes is the whole capacity, 8192,
    while 8191 frames are waiting: the sum is 16383, not 8191. *)
Theorem slack_invariant_broken_when_wrapped_full :
  exists st,
    wrappedFull = Some st
    /\ session_active st
    /\ readPos st = 1 /\ writePos st = 0
    /\ writeSpace st = 8192
    /\ samplesAvailable st = 8191
    /\ writeSpace st + samplesAvailable st <> AUDIO_BUFFER_FRAMES - 1.
Proof.
  destruct wrappedFull_state as (st & Hrun & Hok & Hs & Hk & Hr & Hw & _).
  destruct (writeSpace_wrapped_full st) as [Hsp Hav];
    [apply Hs | rewrite Hr, Hw; reflexivity |].
  exists st. split; [exact Hrun|]. split; [exact Hs|]. split; [exact Hr|].
  split; [exact Hw|]. split; [exact Hsp|]. split; [exact Hav|].
  rewrite Hsp, Hav. unfold AUDIO_BUFFER_FRAMES. lia.
Qed.

(** C2. After exactly [capacity - 1] frames pushed with no pop in between
    (into the buffer emptied with both indices at 1), the space computed by
    the fill task is 8192, not 0; a further invocation that finds 512
    frames waiting copies them all: [writePos] moves from 0 to 512, past
    [readPos = 1]; the slot at [readPos], which held the oldest unread
    frame (sample 7), now holds a new one (sample 9), and only 511 frames
    are counted as waiting. *)
Theorem full_buffer_accepts_more_frames :
  exists st st' evs,
    wrappedFull = Some st
    /\ samplesAvailable st = AUDIO_BUFFER_FRAMES - 1
    /\ frameAt (audioBuffer st) 1 (readPos st) = [7]
    /\ writeSpace st = 8192
    /\ fillAudioBuffer st (chunk (tone 9 512)) = Some (st', evs)
    /\ readPos st' = readPos st /\ readPos st' = 1 /\ writePos st' = 512
    /\ samplesAvailable st' = 511
    /\ frameAt (audioBuffer st') 1 (readPos st') = [9].
Proof.
  destruct wrappedFull_state as (st & Hrun & Hok & Hs & Hk & Hr & Hw & Hc).
  destruct (writeSpace_wrapped_full st) as [Hsp Hav];
    [apply Hs | rewrite Hr, Hw; reflexivity |].
  destruct (fill_accepts st (tone 9 512))
    as (st' & evs & Hfill & Hw' & Hr' & Ha' & Hfr);
    [apply Hok | exact Hs | now apply tone_frames | |].
  { rewrite tone_length by lia. unfold maxFramesToPull. rewrite Hsp.
    unfold AUDIO_BUFFER_FRAMES. lia. }
  rewrite tone_length, Hw in Hw' by lia.
  assert (Hw512 : writePos st' = 512) by exact Hw'.
  assert (Hr1 : readPos st' = 1) by congruence.
  rewrite (tone_cons 7 8191) in Hc by lia.
  pose proof (oldest_frame st _ _ Hok Hs Hc) as Hold. rewrite Hk in Hold.
  specialize (Hfr 1%nat [9] eq_refl). rewrite Hk, Hw in Hfr.
  exists st, st', evs. split; [exact Hrun|]. split; [exact Hav|].
  split; [exact Hold|]. split; [exact Hsp|]. split; [exact Hfill|].
  split; [exact Hr'|]. split; [exact Hr1|]. split; [exact Hw512|]. split.
  - unfold samplesAvailable. rewrite Ha', Hw512, Hr1. reflexivity.
  - rewrite Hr1. exact Hfr.
Qed.

(** ** Round trip: C3 *)

Lemma contents_empty_available (st : state) :
  state_ok st -> contents st = [] -> samplesAvailable st = 0.
Proof.
  intros (_ & Hr & Hw & _) Hc. rewrite <- contents_length by assumption.
  now rewrite Hc.
Qed.

(** C3, amended. Round trip for at most [capacity - 1] frames
    ([n + 1 < capacity]): frames of [audioChannels] samples each, handed to
    successive invocations of the fill task in pulls of at most 512 frames,
    into an empty buffer of an active session, are all stored; an output
    block of as many frames on an output of at least [audioChannels]
    channels then plays exactly these frames, in order, every sample on its
    channel, and leaves the buffer empty. *)
Theorem roundtrip_below_capacity (st : state)
  (chunks : list (list (list sample))) (outs : Z) :
  state_ok st -> session_active st ->
  readPos st = writePos st ->
  Forall (fun c => Z.of_nat (length c) <= 512) chunks ->
  Forall (fun f => Z.of_nat (length f) = audioChannels st) (concat chunks) ->
  Z.of_nat (length (concat chunks)) < AUDIO_BUFFER_FRAMES ->
  audioChannels st <= outs ->
  exists st1 st2,
    fills (chunk <$> chunks) st = Some st1
    /\ renderOutput (Z.of_nat (length (concat chunks))) outs st1
       = Some (st2, playedFrames 0 (concat chunks))
    /\ samplesAvailable st2 = 0.
Proof.
  intros Hok Hs Hemp Hsz Hall Hlen Houts.
  pose proof Hok as (_ & Hr & Hw & _). pose proof Hs as (Ha & _ & HK).
  assert (Hav : samplesAvailable st = 0).
  { rewrite samplesAvailable_mod by assumption. rewrite Hemp.
    now rewrite Z.sub_diag. }
  destruct (fills_chunks chunks st Hok Hs Hsz Hall)
    as (st1 & Hrun & Hok1 & Hs1 & Hc1 & Hr1 & Hk1); [lia|].
  assert (Hc0 : contents st = []) by (unfold contents; now rewrite Hav).
  rewrite Hc0 in Hc1. cbn [app] in Hc1.
  destruct (renderOutput_frames outs (concat chunks) [] st1)
    as (st2 & Hrun2 & Hok2 & _ & Hc2 & _); try assumption; try lia;
    try (now rewrite app_nil_r).
  exists st1, st2. split; [exact Hrun|]. split.
  - rewrite Hrun2. f_equal. f_equal.
    apply (blockWrites_whole outs 0 (audioChannels st)); assumption.
  - now apply contents_empty_available.
Qed.

Lemma roundtrip_below_capacity_witness :
  exists st1 st2,
    fills (chunk <$> [tone 3 2]) connected = Some st1
    /\ renderOutput (Z.of_nat (length (concat [tone 3 2]))) 2 st1
       = Some (st2, playedFrames 0 (concat [tone 3 2]))
    /\ samplesAvailable st2 = 0.
Proof.
  apply (roundtrip_below_capacity connected [tone 3 2] 2).
  - apply connected_ok.
  - apply connected_ok.
  - reflexivity.
  - repeat constructor. vm_compute. discriminate.
  - repeat constructor.
  - vm_compute. reflexivity.
  - vm_compute. discriminate.
Defined.

Lemma tone_snoc (v : sample) (m : Z) :
  0 <= m -> tone v (m + 1) = tone v m ++ [[v]].
Proof.
  intros Hm. unfold tone.
  replace (Z.to_nat (m + 1)) with (Z.to_nat m + 1)%nat by lia.
  now rewrite replicate_add.
Qed.

Lemma overLoad_concat (v : sample) : concat (overLoad v) = tone v 8191 ++ [[v]].
Proof.
  unfold overLoad. rewrite concat_app, fullLoad_concat. reflexivity.
Qed.

Lemma fills_cons (net : pull_result) (rest : list pull_result) (st : state) :
  fills (net :: rest) st
  = match fillAudioBuffer st net with
    | Some (st', _) => fills rest st'
    | None => None
    end.
Proof. reflexivity. Qed.

(** The buffer takes [capacity - 1] frames of the over-long load and
    refuses the last. *)
Lemma overLoad_fills :
  exists st1,
    fills (chunk <$> overLoad 1) connected = Some st1
    /\ state_ok st1 /\ session_active st1 /\ contents st1 = tone 1 8191.
Proof.
  destruct connected_ok as [Hok Hs].
  destruct (fullLoad_from_empty connected 1 Hok Hs)
    as (st1 & Hrun & Hok1 & Hs1 & Hc1 & Hr1 & Hw1 & Hk1);
    [reflexivity | reflexivity |].
  assert (Hr0 : readPos st1 = 0) by exact Hr1.
  assert (Hw0 : writePos st1 = 8191) by exact Hw1.
  assert (Hfill : fillAudioBuffer st1 (chunk (tone 1 1)) = Some (st1, [])).
  { unfold fillAudioBuffer. rewrite (session_fillGuard st1 Hs1). cbn [negb].
    unfold maxFramesToPull, writeSpace. rewrite Hr0, Hw0. reflexivity. }
  exists st1. split; [|auto].
  unfold overLoad. rewrite fmap_app, fills_app, Hrun.
  change (chunk <$> [tone 1 1]) with [chunk (tone 1 1)].
  rewrite fills_cons, Hfill. reflexivity.
Qed.

(** One output frame more than the queue holds: the last is silence. *)
Lemma render_past_end (outs : Z) (frames : list (list sample)) (st : state) :
  0 <= outs -> state_ok st -> session_active st -> contents st = frames ->
  exists st',
    renderOutput (Z.of_nat (length frames + 1)) outs st
    = Some (st', blockWrites outs 0 frames
                 ++ silentWrites outs 1 (0 + Z.of_nat (length frames))).
Proof.
  intros Houts Hok Hs Hc.
  destruct (render_frames outs frames [] Houts st 0 [] Hok Hs)
    as (st2 & Hrun2 & Hok2 & Hs2 & Hc2 & _); [now rewrite app_nil_r|].
  cbn [app] in Hrun2.
  assert (Hnr : frameReady st2 = false).
  { unfold frameReady. rewrite (contents_empty_available st2 Hok2 Hc2).
    apply andb_false_r. }
  exists st2. unfold renderOutput, for_range.
  replace (Z.to_nat (Z.of_nat (length frames + 1) - 0))
    with (length frames + 1)%nat by lia.
  rewrite for_loop_app, Hrun2. now rewrite render_silence.
Qed.

(** C3 as stated fails for [n = capacity - 1]: of 8192 mono frames handed
    to the fill task the last is refused (the space is 0 once 8191 are
    stored), and the 8192nd output frame is silence. *)
Lemma roundtrip_fails_at_capacity :
  exists st1 st2 out,
    fills (chunk <$> overLoad 1) connected = Some st1
    /\ renderOutput (Z.of_nat (length (concat (overLoad 1)))) 1 st1
       = Some (st2, out)
    /\ out <> playedFrames 0 (concat (overLoad 1)).
Proof.
  destruct overLoad_fills as (st1 & Hrun & Hok1 & Hs1 & Hc1).
  destruct (render_past_end 1 (tone 1 8191) st1 ltac:(lia) Hok1 Hs1 Hc1)
    as (st2 & Hrun2).
  exists st1, st2. eexists. split; [exact Hrun|]. split.
  - rewrite overLoad_concat, length_app. exact Hrun2.
  - rewrite overLoad_concat, playedFrames_app.
    rewrite (blockWrites_whole 1 0 1) by (try apply tone_frames; reflexivity || lia).
    generalize (0 + Z.of_nat (length (tone 1 8191))).
    intros k E. apply app_inv_head in E. discriminate E.
Qed.

(** ** Counting pushes and pops: C4 *)

(** A push adds one to the occupancy, a pop that finds a frame takes one
    away: as long as the occupancy stays inside [0, capacity) after every
    operation, it follows the two counts. *)
Lemma run_counts (ops : list op) :
  forall st : state,
  state_ok st -> session_active st ->
  Forall (op_ok (audioChannels st)) ops ->
  (forall k : nat,
     0 <= samplesAvailable st + pushes (take k ops) - pops (take k ops)
       < AUDIO_BUFFER_FRAMES) ->
  exists st',
    run ops st = Some st'
    /\ state_ok st' /\ session_active st'
    /\ samplesAvailable st' = samplesAvailable st + pushes ops - pops ops.
Proof.
  induction ops as [|o ops IH]; intros st Hok Hs Hops Hd.
  - exists st. cbn. split; [reflexivity|]. split; [exact Hok|].
    split; [exact Hs | lia].
  - apply Forall_cons in Hops as [Ho Hops].
    pose proof (Hd 1%nat) as H1. cbn [take] in H1. rewrite take_0 in H1.
    pose proof Hok as (Harr & Hr & Hw & _). pose proof Hs as (Ha & _).
    pose proof (samplesAvailable_mod st Ha Hr Hw) as Hav.
    destruct o as [f|outs n].
    + destruct Ho as [Hf Hfit]. cbn [pushes pops] in H1.
      destruct (copyFrame_spec st f) as (buf' & Hrun & Hlen & _);
        [apply Hok | apply Hs | exact Hf | |].
      { destruct Hok as ((_ & -> & _) & _). lia. }
      pose proof (pushed_ok st 1 buf' Hok Hlen) as Hok1.
      assert (Hav1 : samplesAvailable (pushed st 1 buf')
                     = samplesAvailable st + 1).
      { destruct Hok1 as (_ & Hr1 & Hw1 & _).
        rewrite (samplesAvailable_mod (pushed st 1 buf') Ha Hr1 Hw1).
        cbn. revert H1. rewrite Hav. zmod. }
      destruct (IH (pushed st 1 buf') Hok1 Hs Hops)
        as (st' & Hrun' & Hok' & Hs' & Heq).
      { intros k. specialize (Hd (S k)). cbn [take pushes pops] in Hd.
        rewrite Hav1. lia. }
      exists st'. cbn [run pushes pops]. rewrite Hrun.
      fold (pushed st 1 buf').
      split; [exact Hrun'|]. split; [exact Hok'|]. split; [exact Hs'|].
      rewrite Heq, Hav1. lia.
    + cbn in Ho. cbn [pushes pops] in H1.
      assert (Hready : frameReady st = true)
        by (apply frameReady_true; split; [exact Ha | lia]).
      pose proof (set_readPos_ok st ((readPos st + 1) mod AUDIO_BUFFER_FRAMES)
                    Hok ltac:(apply Z.mod_pos_bound; reflexivity)) as Hok1.
      set (st1 := set_readPos ((readPos st + 1) mod AUDIO_BUFFER_FRAMES) st)
        in *.
      assert (Hav1 : samplesAvailable st1 = samplesAvailable st - 1).
      { destruct Hok1 as (_ & Hr1 & Hw1 & _).
        rewrite (samplesAvailable_mod st1 Ha Hr1 Hw1).
        cbn. revert H1. rewrite Hav. zmod. }
      destruct (IH st1 Hok1 Hs Hops) as (st' & Hrun' & Hok' & Hs' & Heq).
      { intros k. specialize (Hd (S k)). cbn [take pushes pops] in Hd.
        rewrite Hav1. lia. }
      exists st'. cbn [run pushes pops].
      rewrite renderFrame_pop by assumption. fold st1.
      split; [exact Hrun'|]. split; [exact Hok'|]. split; [exact Hs'|].
      rewrite Heq, Hav1. lia.
Qed.

(** C4, amended. From an empty buffer of an active session, for every
    sequence of pushes (passes of the frame loop of the fill task) and pops
    (passes of the output loop of render) such that after every operation
    the pushes [w'] and the pops [r'] made so far satisfy [r' <= w'] and
    [w' - r' < capacity] (no pop is made on an empty buffer, no push on a
    full one), the sequence runs to its end and [samplesAvailable] then
    returns [w - r], with [w] and [r] the numbers of pushes and of pops of
    the sequence. Without an active session [samplesAvailable] returns 0
    whatever the indices. *)
Theorem available_counts_pushes_minus_pops (ops : list op) (st : state) :
  state_ok st -> session_active st ->
  readPos st = writePos st ->
  Forall (op_ok (audioChannels st)) ops ->
  (forall k : nat,
     pops (take k ops) <= pushes (take k ops)
     /\ pushes (take k ops) - pops (take k ops) < AUDIO_BUFFER_FRAMES) ->
  (exists st',
     run ops st = Some st'
     /\ samplesAvailable st' = pushes ops - pops ops)
  /\ (forall s : state, audioStreamActive s = false -> samplesAvailable s = 0).
Proof.
  intros Hok Hs Hemp Hops Hd. split; [|exact samplesAvailable_inactive].
  assert (Hav : samplesAvailable st = 0).
  { destruct Hok as (_ & Hr & Hw & _). destruct Hs as (Ha & _).
    rewrite samplesAvailable_mod by assumption. rewrite Hemp, Z.sub_diag.
    reflexivity. }
  destruct (run_counts ops st Hok Hs Hops) as (st' & Hrun & _ & _ & Heq).
  { intros k. rewrite Hav. specialize (Hd k). lia. }
  exists st'. split; [exact Hrun|]. rewrite Heq, Hav. lia.
Qed.

Lemma available_counts_witness :
  (exists st',
     run [Push 0; Push 1; Pop 2 0; Push 0; Pop 2 1] connected = Some st'
     /\ samplesAvailable st'
        = pushes [Push 0; Push 1; Pop 2 0; Push 0; Pop 2 1]
          - pops [Push 0; Push 1; Pop 2 0; Push 0; Pop 2 1])
  /\ (forall s : state, audioStreamActive s = false -> samplesAvailable s = 0).
Proof.
  apply (available_counts_pushes_minus_pops
           [Push 0; Push 1; Pop 2 0; Push 0; Pop 2 1] connected).
  - apply connected_ok.
  - apply connected_ok.
  - reflexivity.
  - repeat constructor; vm_compute; discriminate.
  - intros k. unfold AUDIO_BUFFER_FRAMES.
    destruct k as [|[|[|[|[|k]]]]]; cbn [take]; rewrite ?take_nil; cbn; lia.
Defined.

(** C4 as stated fails: a pop on an empty buffer removes nothing. After
    one pop and then one push from the empty buffer, [w = 1] and [r = 1],
    so [r <= w] and [w - r = 0 < capacity], but [samplesAvailable] returns
    1, not 0. *)
Lemma pop_on_empty_buffer_is_not_counted :
  exists st',
    run [Pop 2 0; Push 0] connected = Some st'
    /\ pushes [Pop 2 0; Push 0] = 1 /\ pops [Pop 2 0; Push 0] = 1
    /\ samplesAvailable st' = 1
    /\ samplesAvailable st' <> pushes [Pop 2 0; Push 0] - pops [Pop 2 0; Push 0].
Proof.
  destruct connected_ok as [Hok Hs].
  destruct (copyFrame_spec connected 0) as (buf' & Hrun & _);
    [apply Hok | apply Hs | lia | |].
  { destruct Hok as ((_ & -> & _) & _). cbn. unfold PULL_BUFFER_FRAMES,
      MAX_CHANNELS. lia. }
  eexists. cbn [run]. rewrite renderFrame_silent by reflexivity.
  rewrite Hrun. split; [reflexivity|]. split; [reflexivity|].
  split; [reflexivity|]. split; [reflexivity|]. cbn. discriminate.
Qed.

(** ** Bounds, channels, and the end of a session: C9, C10 *)

(** C9. Under the entry guard of the fill task every array access of an
    invocation is in bounds: at most 512 frames, so at most
    [512 * audioChannels <= 4096] samples and 512 time stamps, are asked
    for, which the pull buffer (8192 samples) and the time stamp buffer
    (1024) hold; every ring index [(writePos & bufferMask) * audioChannels
    + ch] lies inside [audioBuffer]; and the invocation, whatever the
    network returns or throws, ends without an access outside an array. *)
Theorem fill_accesses_in_bounds (st : state) (net : pull_result) :
  arrays_ok st ->
  fillGuard st = true ->
  audioInlet st <> InletFreed ->
  maxFramesToPull st <= 512
  /\ maxFramesToPull st * audioChannels st <= 4096
  /\ 4096 <= Z.of_nat (length (pullBuffer st))
  /\ 512 <= Z.of_nat (length (timestampBuffer st))
  /\ (forall wp ch : Z, 0 <= ch < audioChannels st ->
        0 <= Z.land wp bufferMask * audioChannels st + ch
          < Z.of_nat (length (audioBuffer st)))
  /\ exists st' evs,
       fillAudioBuffer st net = Some (st', evs) /\ arrays_ok st'.
Proof.
  intros Harr Hg Hlive. destruct (fillGuard_true st Hg) as (Ha & _ & HK).
  pose proof (maxFramesToPull_le st) as Hle.
  pose proof Harr as (Hab & Hpb & Hts).
  split; [exact Hle|]. split; [unfold MAX_CHANNELS in *; nia|].
  split; [rewrite Hpb; unfold PULL_BUFFER_FRAMES, MAX_CHANNELS; lia|].
  split; [rewrite Hts; unfold PULL_BUFFER_FRAMES; lia|]. split.
  - intros wp ch Hch. pose proof (land_bufferMask_range wp) as Hs.
    rewrite Hab. unfold AUDIO_BUFFER_FRAMES, MAX_CHANNELS in *. nia.
  - destruct (fill_total st net Harr) as (st' & evs & Hrun & Hf); [auto|].
    exists st', evs. split; [exact Hrun | apply Hf].
Qed.

Lemma fill_accesses_in_bounds_witness :
  maxFramesToPull connected <= 512
  /\ maxFramesToPull connected * audioChannels connected <= 4096
  /\ 4096 <= Z.of_nat (length (pullBuffer connected))
  /\ 512 <= Z.of_nat (length (timestampBuffer connected))
  /\ (forall wp ch : Z, 0 <= ch < audioChannels connected ->
        0 <= Z.land wp bufferMask * audioChannels connected + ch
          < Z.of_nat (length (audioBuffer connected)))
  /\ exists st' evs,
       fillAudioBuffer connected (chunk (tone 3 700)) = Some (st', evs)
       /\ arrays_ok st'.
Proof.
  apply (fill_accesses_in_bounds connected (chunk (tone 3 700))).
  - apply connected_ok.
  - reflexivity.
  - discriminate.
Defined.

(** C10. In a pass of the output loop that finds a frame, exactly the
    output channels [0 .. min(audioChannels, audioOutChannels) - 1] are
    written, each once, for this output frame; no channel at or above
    [audioChannels] is written. In a pass that finds none, every output
    channel is written with silence and the state is unchanged. *)
Theorem render_frame_channels (st : state) (outs n : Z)
  (acc : list audio_write) :
  0 <= outs ->
  (frameReady st = true -> state_ok st ->
   exists ws,
     renderFrame outs n (st, acc)
     = Some (set_readPos ((readPos st + 1) mod AUDIO_BUFFER_FRAMES) st,
             acc ++ ws)
     /\ w_channel <$> ws = seqZ 0 (Z.min (audioChannels st) outs)
     /\ Forall (fun w => w_frame w = n /\ w_channel w < audioChannels st) ws)
  /\ (frameReady st = false ->
      renderFrame outs n (st, acc)
      = Some (st, acc ++ ((fun ch => mkWrite n ch silence) <$> seqZ 0 outs))).
Proof.
  intros Houts. split; [|apply renderFrame_silent].
  intros Hready Hok. pose proof Hok as (Harr & Hr & Hw & Hs).
  destruct (proj1 (frameReady_true st) Hready) as [Ha _].
  destruct (Hs Ha) as (_ & _ & HK).
  set (vals := take (Z.to_nat outs)
                 (frameAt (audioBuffer st) (audioChannels st) (readPos st))).
  assert (Hlen : Z.of_nat (length vals) = Z.min (audioChannels st) outs).
  { unfold vals. rewrite length_take, frameAt_length; try lia.
    destruct Harr as (-> & _). unfold AUDIO_BUFFER_FRAMES, MAX_CHANNELS in *.
    nia. }
  exists (frameWrites n vals). split; [now apply renderFrame_pop|].
  split; [now rewrite frameWrites_channels, Hlen|].
  apply Forall_lookup. intros i w Hw'. unfold frameWrites in Hw'.
  rewrite list_lookup_imap in Hw'.
  destruct (vals !! i) as [v|] eqn:Hv; [|discriminate].
  injection Hw' as <-. cbn. apply lookup_lt_Some in Hv. lia.
Qed.

Lemma render_frame_channels_witness :
  (audioChannels oneFrame = 1 /\ frameReady oneFrame = true
   /\ exists ws,
        renderFrame 2 0 (oneFrame, [])
        = Some (set_readPos ((readPos oneFrame + 1) mod AUDIO_BUFFER_FRAMES)
                  oneFrame, [] ++ ws)
        /\ w_channel <$> ws = seqZ 0 (Z.min (audioChannels oneFrame) 2)
        /\ Forall (fun w => w_frame w = 0
                            /\ w_channel w < audioChannels oneFrame) ws)
  /\ (frameReady connected = false
      /\ renderFrame 2 0 (connected, [])
         = Some (connected,
                 [] ++ ((fun ch => mkWrite 0 ch silence) <$> seqZ 0 2))).
Proof.
  split.
  - split; [apply oneFrame_spec|]. split; [apply oneFrame_spec|].
    apply (render_frame_channels oneFrame 2 0 []);
      [lia | apply oneFrame_spec | apply oneFrame_spec].
  - split; [reflexivity|].
    apply (render_frame_channels connected 2 0 []); [lia | reflexivity].
Defined.

(** C5 as stated fails: in [fillAudioBuffer] a pull error that is no loss
    ends the session ([audioStreamActive] becomes false). *)
Lemma transient_error_ends_session :
  fillAudioBuffer connected (PullThrows (std_exception "timeout"))
  = Some (set_active false connected,
          [LogFillError (std_exception "timeout")])
  /\ audioStreamActive (set_active false connected) = false.
Proof. split; reflexivity. Qed.

(** C6 as stated fails: a frame is waiting in the ring when the pull
    reports the loss; the next output frame is silence and the waiting
    frame is not played. *)
Lemma buffered_frame_dropped_on_loss :
  exists st1 evs1 st2 evs2,
    fillAudioBuffer connected (chunk (tone 7 1)) = Some (st1, evs1)
    /\ contents st1 = [[7]]
    /\ fillAudioBuffer st1 (PullThrows (lost_error "lost")) = Some (st2, evs2)
    /\ renderOutput 1 1 st2 = Some (st2, [mkWrite 0 0 silence]).
Proof.
  destruct connected_ok as [Hok Hs].
  destruct (fill_chunk connected (tone 7 1) Hok Hs)
    as (st1 & evs & Hrun & Hok1 & Hs1 & Hc1 & Hr1 & Hk1).
  { now apply tone_frames. }
  { rewrite tone_length; lia. }
  { rewrite tone_length by lia. vm_compute. discriminate. }
  exists st1, evs, (set_active false st1), [LogFillError (lost_error "lost")].
  split; [exact Hrun|]. split; [exact Hc1|]. split.
  - unfold fillAudioBuffer. rewrite (session_fillGuard st1 Hs1). cbn [negb].
    destruct Hs1 as (Ha & (info & ->) & HK).
    destruct (Z.leb_spec (maxFramesToPull st1) 0) as [Hm|Hm]; [|reflexivity].
    exfalso. revert Hm. unfold maxFramesToPull.
    destruct Hok1 as (_ & Hr & Hw & _).
    assert (Hav : samplesAvailable st1 = 1)
      by (rewrite <- contents_length, Hc1 by assumption; reflexivity).
    rewrite writeSpace_room
      by (try assumption; rewrite Hav; unfold AUDIO_BUFFER_FRAMES; lia).
    rewrite Hav. unfold AUDIO_BUFFER_FRAMES. lia.
  - unfold renderOutput, for_range. change (Z.to_nat (1 - 0)) with 1%nat.
    cbn [for_loop]. rewrite renderFrame_silent by reflexivity. reflexivity.
Qed.

(** ** Discovery *)

Lemma openInlet_spec (try_open : stream_info -> open_result)
  (info : stream_info) (st : state) :
  let R := openInlet try_open info st in
  (forall i, NewInlet i ∈ fst R \/ OpenStream i ∈ fst R -> i = info)
  /\ (forall st', snd R = Some st' -> audioStreamActive st = false ->
        audioStreamActive st' = true -> audioInlet st' = InletLive info).
Proof.
  unfold openInlet.
  destruct (audioInlet st) as [|old|] eqn:Hin; destruct (try_open info);
    cbn; (split; [intros i [Hi|Hi] | intros st' Hst' Ha Ha']);
    repeat (apply elem_of_cons in Hi as [Hi|Hi]; [congruence|]);
    try (apply elem_of_nil in Hi; contradiction);
    try (injection Hst' as <-; cbn in *; congruence);
    try discriminate.
Qed.

Lemma scan_opens_compatible (try_open : stream_info -> open_result)
  (streams : list stream_info) :
  forall st : state,
  let R := scanStreams try_open streams st in
  (forall i, NewInlet i ∈ fst R \/ OpenStream i ∈ fst R ->
     i ∈ streams /\ name i = AUDIO_STREAM_NAME /\ rateCompatible i st = true)
  /\ (forall st', snd R = Some st' -> audioStreamActive st = false ->
        audioStreamActive st' = true ->
        exists i, i ∈ streams /\ rateCompatible i st = true
                  /\ audioInlet st' = InletLive i).
Proof.
  induction streams as [|info rest IH]; intros st; cbn zeta.
  - cbn. split.
    + intros i [Hi|Hi]; apply elem_of_nil in Hi; contradiction.
    + intros st' [= <-] Ha Ha'. congruence.
  - cbn [scanStreams].
    destruct (String.eqb (name info) AUDIO_STREAM_NAME) eqn:Hname.
    2:{ destruct (IH st) as [H1 H2]. split.
        - intros i Hi. destruct (H1 i Hi) as (? & ? & ?).
          split; [now apply elem_of_cons; right | auto].
        - intros st' Hst' Ha Ha'. destruct (H2 st' Hst' Ha Ha') as (i & ? & ?).
          exists i. split; [now apply elem_of_cons; right | auto]. }
    apply String.eqb_eq in Hname.
    destruct (rateCompatible info st) eqn:Hrate.
    2:{ destruct (IH st) as [H1 H2].
        destruct (scanStreams try_open rest st) as [evs r]. cbn in *. split.
        - intros i [Hi|Hi]; apply elem_of_cons in Hi as [Hi|Hi];
            try discriminate;
            (destruct (H1 i) as (? & ? & ?); [auto|]);
            (split; [now apply elem_of_cons; right | auto]).
        - intros st' Hst' Ha Ha'. destruct (H2 st' Hst' Ha Ha') as (i & ? & ?).
          exists i. split; [now apply elem_of_cons; right | auto]. }
    destruct ((audioChannels (set_channels (channel_count info) st) <=? 0)
              || (audioChannels (set_channels (channel_count info) st)
                  >? MAX_CHANNELS)).
    + destruct (IH (set_channels (channel_count info) st)) as [H1 H2].
      destruct (scanStreams try_open rest (set_channels (channel_count info) st))
        as [evs r]. cbn in *. split.
      * intros i [Hi|Hi]; apply elem_of_cons in Hi as [Hi|Hi];
          try discriminate;
          (destruct (H1 i) as (? & ? & ?); [auto|]);
          (split; [now apply elem_of_cons; right | auto]).
      * intros st' Hst' Ha Ha'. destruct (H2 st' Hst' Ha Ha') as (i & ? & ?).
        exists i. split; [now apply elem_of_cons; right | auto].
    + destruct (openInlet_spec try_open info
                  (set_channels (channel_count info) st)) as [H1 H2]. split.
      * intros i Hi. rewrite (H1 i Hi). split; [apply elem_of_cons; now left|].
        auto.
      * intros st' Hst' Ha Ha'. exists info.
        split; [apply elem_of_cons; now left|]. split; [exact Hrate|].
        now apply H2.
Qed.

(** C8. In a discovery pass an inlet is created or opened only for an
    advertised stream that bears the configured name and whose nominal rate
    passes the test [|nominal - local| < local * 0.001]; a stream that
    fails the test is never opened, whatever its name. A session that the
    pass makes active is connected to such a stream. *)
Theorem incompatible_rate_never_opened
  (try_open : stream_info -> open_result) (streams : list stream_info)
  (st : state) :
  (forall info,
     NewInlet info ∈ fst (resolveStreams try_open streams st)
     \/ OpenStream info ∈ fst (resolveStreams try_open streams st) ->
     info ∈ streams /\ name info = AUDIO_STREAM_NAME
     /\ rateCompatible info st = true)
  /\ (forall st',
        snd (resolveStreams try_open streams st) = Some st' ->
        audioStreamActive st = false -> audioStreamActive st' = true ->
        exists info, info ∈ streams /\ rateCompatible info st = true
                     /\ audioInlet st' = InletLive info).
Proof.
  unfold resolveStreams. destruct (resolver st); cbn [negb].
  2:{ cbn. split.
      - intros i [Hi|Hi]; apply elem_of_nil in Hi; contradiction.
      - intros st' [= <-] Ha Ha'. congruence. }
  destruct streams as [|info rest].
  { cbn. split.
    - intros i [Hi|Hi]; apply elem_of_cons in Hi as [Hi|Hi]; try discriminate;
        apply elem_of_nil in Hi; contradiction.
    - intros st' [= <-] Ha Ha'. congruence. }
  destruct (audioStreamActive st) eqn:Hact; cbn [negb].
  - cbn. split.
    + intros i [Hi|Hi]; apply elem_of_nil in Hi; contradiction.
    + intros st' _ Ha. discriminate.
  - destruct (scan_opens_compatible try_open (info :: rest) st) as [H1 H2].
    split; [exact H1|]. intros st' Hst' _ Ha'. now apply H2.
Qed.

Lemma incompatible_rate_witness :
  monoInfo ∈ [fastInfo; monoInfo] /\ name monoInfo = AUDIO_STREAM_NAME
  /\ rateCompatible monoInfo (setup 44100%float) = true.
Proof.
  apply (proj1 (incompatible_rate_never_opened (fun _ => Opened)
                  [fastInfo; monoInfo] (setup 44100%float)) monoInfo).
  left. vm_compute. apply elem_of_cons. right. apply elem_of_cons. now left.
Defined.

(** ** A candidate that fails: C7 *)

(** C7, amended. For a candidate of the configured name and a compatible
    rate, met while no session is active: if its channel count is invalid,
    the session stays inactive, the count is logged and the pass goes on
    with the remaining candidates; if instead creating or opening its inlet
    fails, the session stays inactive, the error is logged, and the pass
    ends there: the remaining candidates are not examined until the next
    pass. *)
Theorem failed_candidate_handling (try_open : stream_info -> open_result)
  (info : stream_info) (rest : list stream_info) (st : state) :
  name info = AUDIO_STREAM_NAME ->
  rateCompatible info st = true ->
  audioStreamActive st = false ->
  audioInlet st <> InletFreed ->
  (channel_count info <= 0 \/ MAX_CHANNELS < channel_count info ->
     audioStreamActive (set_channels (channel_count info) st) = false
     /\ scanStreams try_open [info] st
        = ([LogInvalidChannels (channel_count info)],
           Some (set_channels (channel_count info) st))
     /\ scanContinues try_open info rest st)
  /\ (0 < channel_count info <= MAX_CHANNELS ->
      forall e, try_open info = CtorThrows e \/ try_open info = OpenThrows e ->
      exists evs st',
        scanStreams try_open (info :: rest) st
        = (evs ++ [LogInletError e], Some st')
        /\ audioStreamActive st' = false
        /\ scanStreams try_open (info :: rest) st
           = scanStreams try_open [info] st).
Proof.
  intros Hname Hrate Hact Hlive.
  apply String.eqb_eq in Hname. split.
  - intros Hbad.
    assert (Hchk : (channel_count info <=? 0)
                   || (channel_count info >? MAX_CHANNELS) = true).
    { apply orb_true_iff. rewrite Z.leb_le, Z.gtb_lt. lia. }
    split; [exact Hact|]. split.
    + cbn [scanStreams]. rewrite Hname, Hrate. cbn. now rewrite Hchk.
    + unfold scanContinues. cbn [scanStreams]. rewrite Hname, Hrate. cbn.
      rewrite Hchk.
      destruct (scanStreams try_open rest (set_channels (channel_count info) st)).
      reflexivity.
  - intros Hgood e He.
    assert (Hchk : (channel_count info <=? 0)
                   || (channel_count info >? MAX_CHANNELS) = false).
    { apply orb_false_iff. rewrite Z.leb_gt, Z.gtb_ltb, Z.ltb_ge. lia. }
    cbn [scanStreams]. rewrite Hname, Hrate. cbn. rewrite Hchk.
    unfold openInlet. cbn [audioInlet set_channels].
    destruct (audioInlet st) as [|old|]; [| |congruence];
      destruct He as [-> | ->].
    + exists [NewInlet info]. eexists. split; [reflexivity|]. now split.
    + exists [NewInlet info; OpenStream info]. eexists.
      split; [reflexivity|]. now split.
    + exists [CloseInlet; NewInlet info]. eexists.
      split; [reflexivity|]. now split.
    + exists [CloseInlet; NewInlet info; OpenStream info]. eexists.
      split; [reflexivity|]. now split.
Qed.

(** C7 as stated fails: after a failed open the pass ends and the next
    candidate, which would open, is not examined. *)
Lemma open_failure_ends_pass :
  scanStreams stereoFails [stereoInfo; monoInfo] (setup 44100%float)
  = ([NewInlet stereoInfo; OpenStream stereoInfo;
      LogInletError (std_exception "open failed")],
     Some (set_inlet (InletLive stereoInfo)
             (set_channels 2 (setup 44100%float))))
  /\ ~ scanContinues stereoFails stereoInfo [monoInfo] (setup 44100%float).
Proof.
  split; [reflexivity|]. unfold scanContinues.
  change (scanStreams stereoFails [stereoInfo] (setup 44100%float))
    with ([NewInlet stereoInfo; OpenStream stereoInfo;
           LogInletError (std_exception "open failed")],
          Some (set_inlet (InletLive stereoInfo)
                  (set_channels 2 (setup 44100%float)))).
  cbv iota beta. intros E. apply (f_equal fst) in E.
  apply (f_equal (@length event)) in E. vm_compute in E. discriminate E.
Qed.

Lemma failed_candidate_witness :
  (channel_count stereoInfo <= 0 \/ MAX_CHANNELS < channel_count stereoInfo ->
     audioStreamActive
       (set_channels (channel_count stereoInfo) (setup 44100%float)) = false
     /\ scanStreams stereoFails [stereoInfo] (setup 44100%float)
        = ([LogInvalidChannels (channel_count stereoInfo)],
           Some (set_channels (channel_count stereoInfo) (setup 44100%float)))
     /\ scanContinues stereoFails stereoInfo [monoInfo] (setup 44100%float))
  /\ (0 < channel_count stereoInfo <= MAX_CHANNELS ->
      forall e,
        stereoFails stereoInfo = CtorThrows e
        \/ stereoFails stereoInfo = OpenThrows e ->
      exists evs st',
        scanStreams stereoFails [stereoInfo; monoInfo] (setup 44100%float)
        = (evs ++ [LogInletError e], Some st')
        /\ audioStreamActive st' = false
        /\ scanStreams stereoFails [stereoInfo; monoInfo] (setup 44100%float)
           = scanStreams stereoFails [stereoInfo] (setup 44100%float)).
Proof.
  apply (failed_candidate_handling stereoFails stereoInfo [monoInfo]
           (setup 44100%float)).
  - reflexivity.
  - vm_compute. reflexivity.
  - reflexivity.
  - discriminate.
Defined.

(** ** Exceptions of the pull: C5 and C6 *)

(** Any exception of the pull ends the session in [fillAudioBuffer]. *)
Lemma fill_pull_throws (st : state) (e : lsl_exception) :
  session_active st -> 0 < maxFramesToPull st ->
  fillAudioBuffer st (PullThrows e)
  = Some (set_active false st, [LogFillError e]).
Proof.
  intros Hs Hm. unfold fillAudioBuffer. rewrite (session_fillGuard st Hs).
  cbn [negb]. destruct (Z.leb_spec (maxFramesToPull st) 0); [lia|].
  destruct Hs as (_ & (info & ->) & _). reflexivity.
Qed.

(** ** The multi-inlet variant *)

Lemma pullAll_keeps (net : nat -> MultiInlet.sample_result) (n : nat) :
  forall (i : nat) (ms : MultiInlet.state) (evs : list MultiInlet.event),
  inlets_ok ms -> no_loss net ->
  (i + n <= length (MultiInlet.streamInlets ms))%nat ->
  exists ms' evs',
    MultiInlet.pullAll net n i (ms, evs) = Some (ms', evs')
    /\ inlets_ok ms'
    /\ MultiInlet.streamInlets ms' = MultiInlet.streamInlets ms
    /\ MultiInlet.streamsResolved ms' = MultiInlet.streamsResolved ms.
Proof.
  induction n as [|n IH]; intros i ms evs Hok Hnl Hi.
  - exists ms, evs. cbn. auto.
  - pose proof Hok as (Hall & Hnames & Hdata).
    destruct (lookup_lt_is_Some_2 (MultiInlet.streamInlets ms) i) as [x Hx];
      [lia|].
    destruct (lookup_lt_is_Some_2 (MultiInlet.streamNames ms) i) as [nm Hnm];
      [lia|].
    destruct (lookup_lt_is_Some_2 (MultiInlet.streamData ms) i) as [d Hd];
      [lia|].
    destruct x as [inl|];
      [|exfalso; exact (Forall_lookup_1 _ _ _ _ Hall Hx eq_refl)].
    cbn [MultiInlet.pullAll]. unfold MultiInlet.pullOne, MultiInlet.logNamed.
    rewrite Hx, Hd. cbn [MultiInlet.streamNames]. rewrite ?Hnm.
    destruct (net i) as [ts data|[w|w]] eqn:Hnet.
    + set (ms1 := MultiInlet.mkState _ _ _ _ _).
      assert (Hok1 : inlets_ok ms1).
      { unfold inlets_ok, ms1. cbn. rewrite length_insert. auto. }
      destruct (negb (PrimFloat.eqb ts 0)).
      * destruct (IH (S i) ms1 (evs ++ [MultiInlet.LogSample nm data ts])
                    Hok1 Hnl) as (ms' & evs' & Hrun & H); [cbn; lia|].
        exists ms', evs'. split; [exact Hrun | exact H].
      * destruct (IH (S i) ms1 evs Hok1 Hnl) as (ms' & evs' & Hrun & H);
          [cbn; lia|].
        exists ms', evs'. split; [exact Hrun | exact H].
    + exfalso. exact (Hnl i w Hnet).
    + destruct (IH (S i) ms
                  (evs ++ [MultiInlet.LogPullError nm (std_exception w)])
                  Hok Hnl) as (ms' & evs' & Hrun & H); [lia|].
      exists ms', evs'. split; [exact Hrun | exact H].
Qed.

Lemma eraseClosed_live (inlets : list (option stream_info)) :
  forall (names : list string) (data : list (list sample)),
  Forall (fun x => x <> None) inlets ->
  length names = length inlets -> length data = length inlets ->
  MultiInlet.eraseClosed inlets names data = Some (inlets, names, data).
Proof.
  induction inlets as [|x inlets IH]; intros names data Hall Hn Hd.
  - destruct names; [|discriminate]. destruct data; [|discriminate].
    reflexivity.
  - apply Forall_cons in Hall as [Hx Hall].
    destruct names as [|nm names]; [discriminate|].
    destruct data as [|d data]; [discriminate|].
    destruct x as [x|]; [|congruence].
    cbn [MultiInlet.eraseClosed]. rewrite IH; cbn in *; auto with lia.
Qed.

(** In [pullSamples] an exception that is no loss keeps every inlet. *)
Lemma pullSamples_keeps_inlets (net : nat -> MultiInlet.sample_result)
  (ms : MultiInlet.state) :
  inlets_ok ms -> no_loss net ->
  exists ms' evs,
    MultiInlet.pullSamples net ms = Some (ms', evs)
    /\ MultiInlet.streamInlets ms' = MultiInlet.streamInlets ms
    /\ MultiInlet.streamsResolved ms' = MultiInlet.streamsResolved ms.
Proof.
  intros Hok Hnl. unfold MultiInlet.pullSamples.
  destruct (negb (MultiInlet.streamsResolved ms)
            || match MultiInlet.streamInlets ms with
               | [] => true | _ => false end) eqn:Hskip.
  { exists ms, []. auto. }
  destruct (pullAll_keeps net (length (MultiInlet.streamInlets ms)) 0 ms []
              Hok Hnl) as (ms1 & evs & -> & Hok1 & Hin & Hres); [lia|].
  destruct Hok1 as (Hall & Hn & Hd).
  rewrite (eraseClosed_live _ _ _ Hall Hn Hd).
  apply orb_false_iff in Hskip as [_ Hne]. rewrite Hin.
  destruct (MultiInlet.streamInlets ms) as [|x l] eqn:E; [discriminate|].
  do 2 eexists. split; [reflexivity|]. cbn. auto.
Qed.

(** C5, amended. In [fillAudioBuffer] any exception of the pull, a loss or
    not, is caught and logged and ends the invocation with no frame copied
    and the indices untouched, and it marks the session inactive; only in
    [pullSamples] of the multi-inlet variant does an exception that is no
    loss leave every inlet open for the next cycle. *)
Theorem pull_exception_handling (st : state) (e : lsl_exception)
  (net : nat -> MultiInlet.sample_result) (ms : MultiInlet.state) :
  session_active st -> 0 < maxFramesToPull st ->
  inlets_ok ms -> no_loss net ->
  fillAudioBuffer st (PullThrows e)
  = Some (set_active false st, [LogFillError e])
  /\ audioStreamActive (set_active false st) = false
  /\ audioBuffer (set_active false st) = audioBuffer st
  /\ writePos (set_active false st) = writePos st
  /\ exists ms' evs,
       MultiInlet.pullSamples net ms = Some (ms', evs)
       /\ MultiInlet.streamInlets ms' = MultiInlet.streamInlets ms
       /\ MultiInlet.streamsResolved ms' = MultiInlet.streamsResolved ms.
Proof.
  intros Hs Hm Hok Hnl. split; [now apply fill_pull_throws|].
  split; [reflexivity|]. split; [reflexivity|]. split; [reflexivity|].
  now apply pullSamples_keeps_inlets.
Qed.

(** C6, amended. When a pull failure ends the session, [samplesAvailable]
    is 0 at once and every later output frame is silence on every output
    channel, whatever the ring still holds; the render step does not move
    [readPos], so the buffered frames are never played. *)
Theorem loss_silences_at_once (st : state) (e : lsl_exception)
  (audioFrames outs : Z) :
  session_active st -> 0 < maxFramesToPull st ->
  fillAudioBuffer st (PullThrows e)
  = Some (set_active false st, [LogFillError e])
  /\ samplesAvailable (set_active false st) = 0
  /\ renderOutput audioFrames outs (set_active false st)
     = Some (set_active false st,
             silentWrites outs (Z.to_nat audioFrames) 0).
Proof.
  intros Hs Hm. split; [now apply fill_pull_throws|].
  split; [reflexivity|]. unfold renderOutput, for_range.
  rewrite render_silence by reflexivity.
  now rewrite Z.sub_0_r.
Qed.

(** ** Concrete instances *)

(** [connected] is where the program stands after [setup] and one discovery
    pass that finds [monoInfo]. *)
Lemma resolve_connects :
  resolveStreams (fun _ => Opened) [monoInfo] (setup 44100%float)
  = ([NewInlet monoInfo; OpenStream monoInfo; LogConnected monoInfo],
     Some connected).
Proof. reflexivity. Qed.

Lemma oneInlet_ok : inlets_ok oneInlet.
Proof.
  split; [|split; reflexivity]. apply Forall_cons. split; [discriminate|].
  constructor.
Qed.

Lemma timeouts_no_loss : no_loss timeouts.
Proof. intros i w. discriminate. Qed.

Lemma pull_exception_witness :
  fillAudioBuffer connected (PullThrows (std_exception "timeout"))
  = Some (set_active false connected,
          [LogFillError (std_exception "timeout")])
  /\ audioStreamActive (set_active false connected) = false
  /\ audioBuffer (set_active false connected) = audioBuffer connected
  /\ writePos (set_active false connected) = writePos connected
  /\ exists ms' evs,
       MultiInlet.pullSamples timeouts oneInlet = Some (ms', evs)
       /\ MultiInlet.streamInlets ms' = MultiInlet.streamInlets oneInlet
       /\ MultiInlet.streamsResolved ms' = MultiInlet.streamsResolved oneInlet.
Proof.
  apply (pull_exception_handling connected (std_exception "timeout")
           timeouts oneInlet).
  - apply connected_ok.
  - reflexivity.
  - exact oneInlet_ok.
  - exact timeouts_no_loss.
Defined.

Lemma loss_silences_witness :
  fillAudioBuffer connected (PullThrows (lost_error "lost"))
  = Some (set_active false connected, [LogFillError (lost_error "lost")])
  /\ samplesAvailable (set_active false connected) = 0
  /\ renderOutput 2 2 (set_active false connected)
     = Some (set_active false connected, silentWrites 2 (Z.to_nat 2) 0).
Proof.
  apply (loss_silences_at_once connected (lost_error "lost") 2 2).
  - apply connected_ok.
  - reflexivity.
Defined.

(** * Further properties of the code *)

(** ** The fill task on any pull *)

Lemma concat_frames_nil (K : Z) (frames : list (list sample)) :
  0 < K -> Forall (fun f => Z.of_nat (length f) = K) frames ->
  concat frames = [] -> frames = [].
Proof.
  intros HK Hall Hc. destruct Hall as [|f frames Hf _]; [reflexivity|].
  cbn in Hc. apply app_eq_nil in Hc as [-> _]. cbn in Hf. lia.
Qed.

Lemma take_concat_frames (K : Z) (frames : list (list sample)) :
  0 < K -> Forall (fun f => Z.of_nat (length f) = K) frames ->
  forall n : nat,
  take (Z.to_nat (Z.of_nat n * K)) (concat frames) = concat (take n frames).
Proof.
  intros HK Hall. induction Hall as [|f frames Hf _ IH]; intros n.
  - cbn [concat]. now rewrite !take_nil.
  - destruct n as [|n].
    + replace (Z.to_nat (Z.of_nat 0 * K)) with 0%nat by lia. reflexivity.
    + cbn [concat take]. rewrite <- IH.
      replace (Z.to_nat (Z.of_nat (S n) * K))
        with (length f + Z.to_nat (Z.of_nat n * K))%nat by nia.
      now rewrite take_app_add.
Qed.

(** The space the fill task computes, away from the wrapped full state. *)
Lemma writeSpace_free (st : state) :
  state_ok st -> audioStreamActive st = true ->
  readPos st <> writePos st + 1 ->
  writeSpace st = AUDIO_BUFFER_FRAMES - 1 - samplesAvailable st
  /\ 0 <= writeSpace st.
Proof.
  intros (_ & Hr & Hw & _) Ha Hne.
  pose proof (writeSpace_slack st Ha Hr Hw Hne) as Hs.
  pose proof (samplesAvailable_range st Hr Hw) as Hav. split; [lia|].
  unfold samplesAvailable in *. rewrite Ha in *. cbn [negb] in *.
  unfold AUDIO_BUFFER_FRAMES in *.
  destruct (Z.ltb_spec (writePos st - readPos st) 0); lia.
Qed.

(** An invocation of the fill task on whatever the pull returns: the whole
    frames among the samples it accepted join the queue. *)
Lemma fill_returns (st : state) (samples : list sample) (stamps : list float)
  (frames : list (list sample)) (tail : list sample) :
  state_ok st -> session_active st ->
  readPos st <> writePos st + 1 ->
  Forall (fun f => Z.of_nat (length f) = audioChannels st) frames ->
  take (Z.to_nat (maxFramesToPull st * audioChannels st)) samples
  = concat frames ++ tail ->
  Z.of_nat (length tail) < audioChannels st ->
  exists st' evs,
    fillAudioBuffer st (PullReturns samples stamps) = Some (st', evs)
    /\ state_ok st' /\ session_active st'
    /\ contents st' = contents st ++ frames
    /\ readPos st' = readPos st
    /\ audioChannels st' = audioChannels st.
Proof.
  intros Hok Hsess Hne Hall Htake Htail.
  pose proof Hok as (Harr & Hr & Hw & _).
  pose proof Hsess as (Hact & (info & Hin) & HK).
  pose proof Harr as (Hab & Hpb & Hts).
  destruct (writeSpace_free st Hok Hact Hne) as [Hspace Hsp0].
  pose proof (samplesAvailable_range st Hr Hw) as Hav.
  pose proof (maxFramesToPull_le st) as Hle.
  pose proof (concat_frames_length _ _ Hall) as Hcl.
  assert (Hgot : Z.of_nat (length (concat frames ++ tail))
                 <= Z.max 0 (maxFramesToPull st * audioChannels st)).
  { rewrite <- Htake, length_take. lia. }
  rewrite length_app in Hgot.
  unfold fillAudioBuffer. rewrite (session_fillGuard st Hsess). cbn [negb].
  destruct (Z.leb_spec (maxFramesToPull st) 0) as [Hmax|Hmax].
  { assert (Hnil : concat frames = []).
    { destruct (concat frames); [reflexivity|]. cbn in Hgot. nia. }
    rewrite (concat_frames_nil _ _ (proj1 HK) Hall Hnil), app_nil_r.
    exists st, []. split; [reflexivity|]. split; [exact Hok|].
    split; [exact Hsess|]. repeat split; reflexivity. }
  rewrite Hin. unfold pull_chunk_multiplexed.
  destruct (Z.leb_spec (maxFramesToPull st * audioChannels st)
              (Z.of_nat (length (pullBuffer st))));
    [|rewrite Hpb in *; unfold PULL_BUFFER_FRAMES, MAX_CHANNELS in *; nia].
  destruct (Z.leb_spec (maxFramesToPull st)
              (Z.of_nat (length (timestampBuffer st))));
    [|rewrite Hts in *; unfold PULL_BUFFER_FRAMES in *; lia].
  cbn [andb]. rewrite Htake, length_app.
  set (ts1 := overwrite _ (timestampBuffer st)).
  assert (Hts1 : length ts1 = length (timestampBuffer st)).
  { unfold ts1. apply overwrite_length. rewrite length_take. lia. }
  assert (Hpb1 : length (overwrite (concat frames ++ tail) (pullBuffer st))
                 = length (pullBuffer st)).
  { apply overwrite_length. rewrite length_app. lia. }
  replace (Z.of_nat (length (concat frames) + length tail) / audioChannels st)
    with (Z.of_nat (length frames)).
  2:{ replace (Z.of_nat (length (concat frames) + length tail))
        with (Z.of_nat (length frames) * audioChannels st
              + Z.of_nat (length tail)) by lia.
      rewrite Z.div_add_l by lia. rewrite Z.div_small by lia. lia. }
  set (st1 := set_pulled _ ts1 st).
  assert (Hok1 : state_ok st1).
  { split; [|split; [|split]]; cbn; try assumption.
    - unfold arrays_ok. cbn. rewrite Hpb1, Hts1. auto.
    - intros _. exact Hsess. }
  destruct (Z.gtb_spec (Z.of_nat (length frames)) 0) as [Hm|Hm].
  2:{ assert (frames = []) as -> by (destruct frames; [reflexivity|cbn in Hm; lia]).
      exists st1, []. rewrite app_nil_r. split; [reflexivity|].
      split; [exact Hok1|]. split; [exact Hsess|]. repeat split; reflexivity. }
  destruct (copyFrames_contents st1 frames Hok1 Hsess Hall)
    as (buf' & -> & Hlen & Hc & Ha).
  { intros j fr Hj. cbn. unfold overwrite. rewrite <- !app_assoc.
    now apply frameAt_concat. }
  { cbn. rewrite Hpb1, Hpb. unfold PULL_BUFFER_FRAMES, MAX_CHANNELS in *. nia. }
  { change (samplesAvailable st1) with (samplesAvailable st).
    unfold maxFramesToPull in *. nia. }
  pose proof (pushed_ok st1 (Z.of_nat (length frames)) buf' Hok1 Hlen) as Hok2.
  set (st2 := pushed st1 _ buf') in *.
  assert (Hfin : forall c, state_ok (set_reportCounter c st2)
            /\ session_active (set_reportCounter c st2)
            /\ contents (set_reportCounter c st2) = contents st ++ frames
            /\ readPos (set_reportCounter c st2) = readPos st
            /\ audioChannels (set_reportCounter c st2) = audioChannels st).
  { intros c. split; [exact Hok2|]. split; [exact Hsess|].
    split; [exact Hc|]. split; reflexivity. }
  destruct (Z.rem (reportCounter st2 + 1) 1000 =? 0);
    do 2 eexists; (split; [reflexivity | apply Hfin]).
Qed.

(** X1. An invocation of the fill task that finds whole frames waiting
    appends to the queue the first [min(512, capacity - 1 - occupancy)] of
    them, in order, and leaves the rest in the inlet; it does not touch
    [readPos]. This holds in every state but the full one with
    [readPos = writePos + 1]. *)
Theorem fill_appends_what_fits (st : state) (frames : list (list sample))
  (stamps : list float) :
  state_ok st -> session_active st ->
  readPos st <> writePos st + 1 ->
  Forall (fun f => Z.of_nat (length f) = audioChannels st) frames ->
  maxFramesToPull st = Z.min 512 (AUDIO_BUFFER_FRAMES - 1 - samplesAvailable st)
  /\ exists st' evs,
       fillAudioBuffer st (PullReturns (concat frames) stamps) = Some (st', evs)
       /\ state_ok st'
       /\ contents st'
          = contents st ++ take (Z.to_nat (maxFramesToPull st)) frames
       /\ readPos st' = readPos st.
Proof.
  intros Hok Hs Hne Hall.
  destruct (writeSpace_free st Hok (proj1 Hs) Hne) as [Hspace Hsp0].
  split; [unfold maxFramesToPull; now rewrite Hspace|].
  assert (Hmax : 0 <= maxFramesToPull st) by (unfold maxFramesToPull; lia).
  destruct (fill_returns st (concat frames) stamps
              (take (Z.to_nat (maxFramesToPull st)) frames) [] Hok Hs Hne)
    as (st' & evs & Hrun & Hok' & _ & Hc & Hr & _).
  - now apply Forall_take.
  - rewrite app_nil_r.
    rewrite <- (take_concat_frames (audioChannels st)) by (apply Hs || exact Hall).
    now rewrite Z2Nat.id by exact Hmax.
  - cbn. apply Hs.
  - exists st', evs. auto.
Qed.

Lemma fill_appends_what_fits_witness :
  maxFramesToPull connected
  = Z.min 512 (AUDIO_BUFFER_FRAMES - 1 - samplesAvailable connected)
  /\ exists st' evs,
       fillAudioBuffer connected (PullReturns (concat (tone 3 600)) [])
       = Some (st', evs)
       /\ state_ok st'
       /\ contents st'
          = contents connected
            ++ take (Z.to_nat (maxFramesToPull connected)) (tone 3 600)
       /\ readPos st' = readPos connected.
Proof.
  apply (fill_appends_what_fits connected (tone 3 600) []).
  - apply connected_ok.
  - apply connected_ok.
  - discriminate.
  - now apply tone_frames.
Defined.

(** A session of another channel count on the same arrays. *)
Lemma set_channels_ok (k : Z) (st : state) :
  state_ok st /\ session_active st -> 0 < k <= 8 ->
  state_ok (set_channels k st) /\ session_active (set_channels k st).
Proof.
  intros [(Harr & Hr & Hw & _) (Ha & Hin & _)] Hk.
  assert (Hs : session_active (set_channels k st)).
  { split; [exact Ha|]. split; [exact Hin|]. cbn. unfold MAX_CHANNELS. lia. }
  split; [|exact Hs].
  split; [exact Harr|]. split; [exact Hr|]. split; [exact Hw|]. now intros _.
Qed.

(** X2. Samples that do not make a whole frame are dropped: of a pull that
    returns whole frames followed by fewer than [audioChannels] samples,
    only the whole frames reach the queue. *)
Theorem partial_frame_discarded (st : state) (frames : list (list sample))
  (tail : list sample) (stamps : list float) :
  state_ok st -> session_active st ->
  readPos st <> writePos st + 1 ->
  Forall (fun f => Z.of_nat (length f) = audioChannels st) frames ->
  Z.of_nat (length tail) < audioChannels st ->
  Z.of_nat (length frames) < maxFramesToPull st ->
  exists st' evs,
    fillAudioBuffer st (PullReturns (concat frames ++ tail) stamps)
    = Some (st', evs)
    /\ contents st' = contents st ++ frames
    /\ samplesAvailable st' = samplesAvailable st + Z.of_nat (length frames).
Proof.
  intros Hok Hs Hne Hall Htail Hm.
  destruct (fill_returns st (concat frames ++ tail) stamps frames tail
              Hok Hs Hne Hall) as (st' & evs & Hrun & Hok' & _ & Hc & _);
    [|exact Htail|].
  - apply take_ge. rewrite length_app.
    pose proof (concat_frames_length _ _ Hall). nia.
  - exists st', evs. split; [exact Hrun|]. split; [exact Hc|].
    destruct Hok as (_ & Hr & Hw & _). destruct Hok' as (_ & Hr' & Hw' & _).
    rewrite <- !contents_length, Hc, length_app by assumption. lia.
Qed.

Lemma partial_frame_discarded_witness :
  exists st' evs,
    fillAudioBuffer (set_channels 2 connected)
      (PullReturns (concat [[1; 2]; [3; 4]] ++ [5]) []) = Some (st', evs)
    /\ contents st' = contents (set_channels 2 connected) ++ [[1; 2]; [3; 4]]
    /\ samplesAvailable st'
       = samplesAvailable (set_channels 2 connected)
         + Z.of_nat (length [[1; 2]; [3; 4]]).
Proof.
  apply (partial_frame_discarded (set_channels 2 connected)
           [[1; 2]; [3; 4]] [5] []).
  - apply (set_channels_ok 2 connected); [apply connected_ok | lia].
  - apply (set_channels_ok 2 connected); [apply connected_ok | lia].
  - discriminate.
  - repeat constructor.
  - cbn. lia.
  - vm_compute. reflexivity.
Defined.

(** ** The output loop on any queue *)

Lemma set_readPos_same (st : state) : set_readPos (readPos st) st = st.
Proof. now destruct st. Qed.

(** The output loop changes nothing but [readPos]. *)
Lemma renderFrame_shape (outs n : Z) (st st' : state)
  (acc acc' : list audio_write) :
  renderFrame outs n (st, acc) = Some (st', acc') ->
  st' = set_readPos (readPos st') st.
Proof.
  unfold renderFrame. destruct (frameReady st).
  - destruct (for_range _ _ _ _); [|discriminate]. now intros [= <- _].
  - destruct (for_range _ _ _ _); [|discriminate]. intros [= <- _].
    symmetry. apply set_readPos_same.
Qed.

Lemma renderFrames_shape (outs : Z) (count : nat) :
  forall (n : Z) (st st' : state) (acc acc' : list audio_write),
  for_loop (renderFrame outs) count n (st, acc) = Some (st', acc') ->
  st' = set_readPos (readPos st') st.
Proof.
  induction count as [|count IH]; intros n st st' acc acc' Hrun.
  - injection Hrun as <- _. symmetry. apply set_readPos_same.
  - cbn [for_loop] in Hrun.
    destruct (renderFrame outs n (st, acc)) as [[st1 acc1]|] eqn:H1;
      [|discriminate].
    rewrite (IH _ _ _ _ _ Hrun). rewrite (renderFrame_shape _ _ _ _ _ _ H1).
    reflexivity.
Qed.

(** What a block of output frames does to the queue and to the output. *)
Lemma renderOutput_block (st : state) (audioFrames outs : Z) :
  state_ok st -> 0 <= audioFrames -> 0 <= outs ->
  exists st',
    renderOutput audioFrames outs st
    = Some (st',
            playedThenSilent outs
              (take (Z.to_nat (Z.min audioFrames (samplesAvailable st)))
                 (contents st))
              (Z.to_nat (audioFrames - Z.min audioFrames (samplesAvailable st))))
    /\ st' = set_readPos
               ((readPos st + Z.min audioFrames (samplesAvailable st))
                mod AUDIO_BUFFER_FRAMES) st
    /\ state_ok st'.
Proof.
  intros Hok Hfr Houts. pose proof Hok as (Harr & Hr & Hw & Hsess).
  pose proof (samplesAvailable_range st Hr Hw) as Hav.
  pose proof (contents_length st Hr Hw) as Hcl.
  set (k := Z.min audioFrames (samplesAvailable st)).
  assert (Hk : 0 <= k <= audioFrames /\ k <= samplesAvailable st)
    by (unfold k; lia).
  unfold renderOutput, for_range, playedThenSilent.
  replace (Z.to_nat (audioFrames - 0))
    with (Z.to_nat k + Z.to_nat (audioFrames - k))%nat by lia.
  destruct (audioStreamActive st) eqn:Hact.
  - specialize (Hsess eq_refl).
    assert (Hlen : length (take (Z.to_nat k) (contents st)) = Z.to_nat k)
      by (rewrite length_take; lia).
    destruct (render_frames outs (take (Z.to_nat k) (contents st))
                (drop (Z.to_nat k) (contents st)) Houts st 0 [] Hok Hsess)
      as (st1 & Hrun & Hok1 & Hs1 & Hc1 & _ & _ & Hr1);
      [now rewrite take_drop|].
    rewrite Hlen in Hrun, Hr1. cbn [app] in Hrun.
    rewrite for_loop_app, Hrun.
    assert (Hshape := renderFrames_shape _ _ _ _ _ _ _ Hrun).
    rewrite Hr1, Z2Nat.id in Hshape by lia.
    destruct (Z.to_nat (audioFrames - k)) as [|rest] eqn:Hrest.
    + exists st1. cbn [for_loop silentWrites]. rewrite app_nil_r.
      split; [reflexivity|]. split; [exact Hshape | exact Hok1].
    + assert (Hnr : frameReady st1 = false).
      { unfold frameReady.
        rewrite (contents_empty_available st1 Hok1), andb_false_r; [reflexivity|].
        rewrite Hc1. apply drop_ge. lia. }
      exists st1. rewrite (render_silence outs st1 Hnr).
      rewrite Hlen. split; [reflexivity|]. split; [exact Hshape | exact Hok1].
  - assert (Hnr : frameReady st = false) by (unfold frameReady; now rewrite Hact).
    assert (Hk0 : k = 0).
    { unfold k. rewrite (samplesAvailable_inactive st Hact). lia. }
    exists st. rewrite (render_silence outs st Hnr).
    rewrite Hk0. change (Z.to_nat 0) with 0%nat.
    cbn [take blockWrites fmap list_fmap playedFrames length Z.of_nat Z.add
         app Nat.add].
    split; [reflexivity|]. split; [|exact Hok].
    rewrite Z.add_0_r, Z.mod_small by exact Hr. symmetry.
    apply set_readPos_same.
Qed.

(** X3. A block of [audioFrames] output frames plays the
    [min(audioFrames, samplesAvailable)] oldest frames of the queue, one
    per output frame, and fills the rest of the block with silence; it
    advances [readPos] by the number of frames played and changes nothing
    else: not [writePos], not the ring, not the session. *)
Theorem render_plays_then_silence (st : state) (audioFrames outs : Z) :
  state_ok st -> 0 <= audioFrames -> 0 <= outs ->
  exists st',
    renderOutput audioFrames outs st
    = Some (st',
            playedThenSilent outs
              (take (Z.to_nat (Z.min audioFrames (samplesAvailable st)))
                 (contents st))
              (Z.to_nat (audioFrames - Z.min audioFrames (samplesAvailable st))))
    /\ st' = set_readPos
               ((readPos st + Z.min audioFrames (samplesAvailable st))
                mod AUDIO_BUFFER_FRAMES) st
    /\ state_ok st'.
Proof. exact (renderOutput_block st audioFrames outs). Qed.

Lemma render_plays_then_silence_witness :
  samplesAvailable oneFrame = 1 /\ contents oneFrame = [[7]]
  /\ exists st',
       renderOutput 4 2 oneFrame
       = Some (st',
               playedThenSilent 2
                 (take (Z.to_nat (Z.min 4 (samplesAvailable oneFrame)))
                    (contents oneFrame))
                 (Z.to_nat (4 - Z.min 4 (samplesAvailable oneFrame))))
       /\ st' = set_readPos
                  ((readPos oneFrame + Z.min 4 (samplesAvailable oneFrame))
                   mod AUDIO_BUFFER_FRAMES) oneFrame
       /\ state_ok st'.
Proof.
  split; [apply oneFrame_spec|]. split; [apply oneFrame_spec|].
  apply (render_plays_then_silence oneFrame 4 2).
  - apply oneFrame_spec.
  - lia.
  - lia.
Defined.

(** ** Discovery passes *)

Lemma eligible_true (info : stream_info) (st : state) :
  eligible info st = true ->
  String.eqb (name info) AUDIO_STREAM_NAME = true
  /\ rateCompatible info st = true
  /\ (channel_count info <=? 0) || (channel_count info >? MAX_CHANNELS) = false.
Proof.
  unfold eligible. intros H. apply andb_prop in H as [H H3].
  apply andb_prop in H as [H1 H2]. apply negb_true_iff in H3. auto.
Qed.

Lemma scan_eligible (try_open : stream_info -> open_result)
  (info : stream_info) (rest : list stream_info) (st : state) :
  eligible info st = true ->
  scanStreams try_open (info :: rest) st
  = openInlet try_open info (set_channels (channel_count info) st).
Proof.
  intros He. destruct (eligible_true info st He) as (H1 & H2 & H3).
  cbn [scanStreams]. rewrite H1, H2. cbn. now rewrite H3.
Qed.

Lemma scan_stops (try_open : stream_info -> open_result)
  (info : stream_info) (post : list stream_info) (pre : list stream_info) :
  forall st : state,
  eligible info st = true ->
  scanStreams try_open (pre ++ info :: post) st
  = scanStreams try_open (pre ++ [info]) st.
Proof.
  induction pre as [|h pre IH]; intros st He.
  - cbn [app]. now rewrite !scan_eligible.
  - cbn [app scanStreams].
    destruct (String.eqb (name h) AUDIO_STREAM_NAME); [|now apply IH].
    destruct (rateCompatible h st); [|now rewrite IH].
    destruct ((audioChannels (set_channels (channel_count h) st) <=? 0)
              || (audioChannels (set_channels (channel_count h) st)
                  >? MAX_CHANNELS)); [|reflexivity].
    now rewrite IH.
Qed.

Lemma openInlet_created (try_open : stream_info -> open_result)
  (info : stream_info) (st : state) :
  (inletsCreated (fst (openInlet try_open info st)) <= 1)%nat.
Proof.
  unfold openInlet.
  destruct (audioInlet st); destruct (try_open info); cbn; lia.
Qed.

Lemma scan_created (try_open : stream_info -> open_result)
  (streams : list stream_info) :
  forall st : state,
  (inletsCreated (fst (scanStreams try_open streams st)) <= 1)%nat.
Proof.
  induction streams as [|h rest IH]; intros st; [cbn; lia|].
  cbn [scanStreams].
  destruct (String.eqb (name h) AUDIO_STREAM_NAME); [|apply IH].
  destruct (rateCompatible h st).
  - destruct ((audioChannels (set_channels (channel_count h) st) <=? 0)
              || (audioChannels (set_channels (channel_count h) st)
                  >? MAX_CHANNELS)); [|apply openInlet_created].
    specialize (IH (set_channels (channel_count h) st)).
    destruct (scanStreams try_open rest (set_channels (channel_count h) st)).
    exact IH.
  - specialize (IH st). destruct (scanStreams try_open rest st). exact IH.
Qed.

(** X4. The first candidate with the configured name, a compatible rate
    and a valid channel count ends the discovery pass: what is advertised
    after that candidate changes neither the outcome nor the log of the
    pass. *)
Theorem pass_ends_at_first_eligible (try_open : stream_info -> open_result)
  (pre post : list stream_info) (info : stream_info) (st : state) :
  eligible info st = true ->
  resolveStreams try_open (pre ++ info :: post) st
  = resolveStreams try_open (pre ++ [info]) st.
Proof.
  intros He. unfold resolveStreams.
  destruct (negb (resolver st)); [reflexivity|].
  destruct (negb (audioStreamActive st)).
  - rewrite (scan_stops try_open info post pre st He). now destruct pre.
  - now destruct pre.
Qed.

Lemma pass_ends_at_first_eligible_witness :
  resolveStreams stereoFails ([fastInfo] ++ monoInfo :: [stereoInfo])
    (setup 44100%float)
  = resolveStreams stereoFails ([fastInfo] ++ [monoInfo]) (setup 44100%float).
Proof.
  apply (pass_ends_at_first_eligible stereoFails [fastInfo] [stereoInfo]
           monoInfo (setup 44100%float)).
  reflexivity.
Defined.

(** X5. A discovery pass creates at most one inlet, whatever is advertised
    and whether opening succeeds or not. *)
Theorem one_inlet_per_pass (try_open : stream_info -> open_result)
  (streams : list stream_info) (st : state) :
  (inletsCreated (fst (resolveStreams try_open streams st)) <= 1)%nat.
Proof.
  unfold resolveStreams. destruct (negb (resolver st)); [cbn; lia|].
  destruct streams as [|h rest]; [cbn; lia|].
  destruct (negb (audioStreamActive st)); [apply scan_created | cbn; lia].
Qed.

(** What a pass that starts without a session leaves: either no session
    and the ring untouched, or a session on a listed stream with both
    indices at zero. *)
Lemma scan_outcome (try_open : stream_info -> open_result)
  (streams : list stream_info) :
  forall st st' : state,
  snd (scanStreams try_open streams st) = Some st' ->
  audioStreamActive st = false ->
  audioBuffer st' = audioBuffer st /\ pullBuffer st' = pullBuffer st
  /\ timestampBuffer st' = timestampBuffer st
  /\ ((audioStreamActive st' = false
       /\ readPos st' = readPos st /\ writePos st' = writePos st)
      \/ (audioStreamActive st' = true
          /\ readPos st' = 0 /\ writePos st' = 0
          /\ exists info, info ∈ streams
               /\ audioInlet st' = InletLive info
               /\ audioChannels st' = channel_count info
               /\ 0 < channel_count info <= MAX_CHANNELS)).
Proof.
  induction streams as [|h rest IH]; intros st st' Hrun Hact.
  - injection Hrun as <-. auto 10.
  - cbn [scanStreams] in Hrun.
    assert (Hrec : forall s, snd (scanStreams try_open rest s) = Some st' ->
              audioStreamActive s = false ->
              audioBuffer s = audioBuffer st -> pullBuffer s = pullBuffer st ->
              timestampBuffer s = timestampBuffer st ->
              readPos s = readPos st -> writePos s = writePos st ->
              audioBuffer st' = audioBuffer st /\ pullBuffer st' = pullBuffer st
              /\ timestampBuffer st' = timestampBuffer st
              /\ ((audioStreamActive st' = false
                   /\ readPos st' = readPos st /\ writePos st' = writePos st)
                  \/ (audioStreamActive st' = true
                      /\ readPos st' = 0 /\ writePos st' = 0
                      /\ exists info, info ∈ h :: rest
                           /\ audioInlet st' = InletLive info
                           /\ audioChannels st' = channel_count info
                           /\ 0 < channel_count info <= MAX_CHANNELS))).
    { intros s Hs Ha E1 E2 E3 E4 E5.
      destruct (IH s st' Hs Ha) as (H1 & H2 & H3 & H4).
      rewrite <- E1, <- E2, <- E3, <- E4, <- E5.
      split; [exact H1|]. split; [exact H2|]. split; [exact H3|].
      destruct H4 as [H4|(Ha' & Hr' & Hw' & info & Hin & H5)]; [now left|].
      right. split; [exact Ha'|]. split; [exact Hr'|]. split; [exact Hw'|].
      exists info. split; [now apply elem_of_cons; right | exact H5]. }
    destruct (String.eqb (name h) AUDIO_STREAM_NAME);
      [|now apply (Hrec st)].
    destruct (rateCompatible h st).
    2:{ destruct (scanStreams try_open rest st) as [evs r] eqn:E.
        apply (Hrec st); try reflexivity; [now rewrite E | exact Hact]. }
    destruct ((audioChannels (set_channels (channel_count h) st) <=? 0)
              || (audioChannels (set_channels (channel_count h) st)
                  >? MAX_CHANNELS)) eqn:Hchk.
    { destruct (scanStreams try_open rest (set_channels (channel_count h) st))
        as [evs r] eqn:E.
      apply (Hrec (set_channels (channel_count h) st)); try reflexivity;
        [now rewrite E | exact Hact]. }
    apply orb_false_iff in Hchk as [Hlo Hhi]. cbn in Hlo, Hhi.
    apply Z.leb_gt in Hlo. rewrite Z.gtb_ltb in Hhi. apply Z.ltb_ge in Hhi.
    unfold openInlet in Hrun. cbn [audioInlet set_channels] in Hrun.
    destruct (audioInlet st); [| |discriminate];
      destruct (try_open h); cbn in Hrun; injection Hrun as <-; cbn;
      (split; [reflexivity|]); (split; [reflexivity|]);
      (split; [reflexivity|]);
      first [ left; split; [exact Hact | split; reflexivity]
            | right; split; [reflexivity|]; split; [reflexivity|];
              split; [reflexivity|]; exists h;
              split; [apply elem_of_cons; now left|];
              split; [reflexivity|]; split; [reflexivity | lia] ].
Qed.

(** X6. When a discovery pass starts a session it first resets the ring:
    whatever the indices were, both are zero, no frame is available, the
    fill task has [capacity - 1] frames of space, and the session is on a
    listed stream whose channel count, between 1 and [MAX_CHANNELS], is the
    frame width; the invariant [state_ok] holds. *)
Theorem connection_resets_ring (try_open : stream_info -> open_result)
  (streams : list stream_info) (st st' : state) :
  arrays_ok st ->
  audioStreamActive st = false ->
  snd (resolveStreams try_open streams st) = Some st' ->
  audioStreamActive st' = true ->
  state_ok st'
  /\ readPos st' = 0 /\ writePos st' = 0
  /\ samplesAvailable st' = 0 /\ contents st' = []
  /\ writeSpace st' = AUDIO_BUFFER_FRAMES - 1
  /\ exists info, info ∈ streams
       /\ audioInlet st' = InletLive info
       /\ audioChannels st' = channel_count info
       /\ 0 < channel_count info <= MAX_CHANNELS.
Proof.
  intros Harr Hact Hrun Hact'. unfold resolveStreams in Hrun.
  destruct (negb (resolver st)); [injection Hrun as <-; congruence|].
  destruct streams as [|h rest]; [injection Hrun as <-; congruence|].
  rewrite Hact in Hrun. cbn [negb] in Hrun.
  destruct (scan_outcome try_open (h :: rest) st st' Hrun Hact)
    as (Hb & Hp & Ht & [(Hf & _)|(_ & Hr & Hw & info & Hin & Hi & Hk & Hv)]);
    [congruence|].
  assert (Hav : samplesAvailable st' = 0).
  { unfold samplesAvailable. rewrite Hact', Hr, Hw. reflexivity. }
  split.
  { split; [|split; [|split]].
    - unfold arrays_ok. rewrite Hb, Hp, Ht. exact Harr.
    - rewrite Hr. unfold AUDIO_BUFFER_FRAMES. lia.
    - rewrite Hw. unfold AUDIO_BUFFER_FRAMES. lia.
    - intros _. split; [exact Hact'|]. split; [now exists info|].
      now rewrite Hk. }
  split; [exact Hr|]. split; [exact Hw|]. split; [exact Hav|].
  split; [unfold contents; now rewrite Hav|].
  split; [unfold writeSpace; rewrite Hr, Hw; reflexivity|].
  exists info. auto.
Qed.

Lemma connection_resets_ring_witness :
  state_ok connected
  /\ readPos connected = 0 /\ writePos connected = 0
  /\ samplesAvailable connected = 0 /\ contents connected = []
  /\ writeSpace connected = AUDIO_BUFFER_FRAMES - 1
  /\ exists info, info ∈ [fastInfo; monoInfo]
       /\ audioInlet connected = InletLive info
       /\ audioChannels connected = channel_count info
       /\ 0 < channel_count info <= MAX_CHANNELS.
Proof.
  apply (connection_resets_ring (fun _ => Opened) [fastInfo; monoInfo]
           (setup 44100%float) connected).
  - unfold arrays_ok. cbn. now rewrite !length_replicate.
  - reflexivity.
  - reflexivity.
  - reflexivity.
Defined.

(** ** A constructor that throws *)

(** X7. If, after a lost session, the constructor of the new inlet throws,
    [audioInlet] is left pointing to the inlet just deleted: the session
    stays inactive, and the next discovery pass that reaches an eligible
    candidate, like [cleanup], calls [close_stream] on the deleted inlet. *)
Theorem failed_constructor_leaves_dangling_inlet
  (try_open : stream_info -> open_result) (info old : stream_info)
  (rest : list stream_info) (st : state) (e : lsl_exception) :
  resolver st = true ->
  audioStreamActive st = false ->
  audioInlet st = InletLive old ->
  eligible info st = true ->
  try_open info = CtorThrows e ->
  exists st1,
    resolveStreams try_open (info :: rest) st
    = ([CloseInlet; NewInlet info; LogInletError e], Some st1)
    /\ audioInlet st1 = InletFreed
    /\ audioStreamActive st1 = false
    /\ snd (cleanup st1) = None
    /\ forall try_open' info' rest',
         eligible info' st1 = true ->
         snd (resolveStreams try_open' (info' :: rest') st1) = None.
Proof.
  intros Hres Hact Hin He Hthrow.
  exists (set_inlet InletFreed (set_channels (channel_count info) st)).
  split.
  - unfold resolveStreams. rewrite Hres, Hact. cbn [negb].
    rewrite (scan_eligible _ _ _ _ He). unfold openInlet. cbn [audioInlet
      set_channels]. rewrite Hin, Hthrow. reflexivity.
  - split; [reflexivity|]. split; [exact Hact|]. split; [reflexivity|].
    intros try_open' info' rest' He'. unfold resolveStreams. cbn [resolver
      set_inlet set_channels audioStreamActive]. rewrite Hres, Hact.
    cbn [negb]. now rewrite (scan_eligible _ _ _ _ He').
Qed.

Lemma failed_constructor_witness :
  exists st1,
    resolveStreams (fun _ => CtorThrows (std_exception "no memory"))
      (monoInfo :: []) (set_active false connected)
    = ([CloseInlet; NewInlet monoInfo;
        LogInletError (std_exception "no memory")], Some st1)
    /\ audioInlet st1 = InletFreed
    /\ audioStreamActive st1 = false
    /\ snd (cleanup st1) = None
    /\ forall try_open' info' rest',
         eligible info' st1 = true ->
         snd (resolveStreams try_open' (info' :: rest') st1) = None.
Proof.
  apply (failed_constructor_leaves_dangling_inlet
           (fun _ => CtorThrows (std_exception "no memory")) monoInfo monoInfo
           [] (set_active false connected) (std_exception "no memory")).
  - reflexivity.
  - reflexivity.
  - reflexivity.
  - reflexivity.
  - reflexivity.
Defined.

(** ** The invariant of the program *)

Lemma scan_keeps_ok (try_open : stream_info -> open_result)
  (streams : list stream_info) :
  (forall info e, try_open info <> CtorThrows e) ->
  forall st : state,
  audioStreamActive st = false -> audioInlet st <> InletFreed ->
  exists st', snd (scanStreams try_open streams st) = Some st'
    /\ audioInlet st' <> InletFreed.
Proof.
  intros Hsafe. induction streams as [|h rest IH]; intros st Hact Hlive.
  - exists st. auto.
  - cbn [scanStreams].
    destruct (String.eqb (name h) AUDIO_STREAM_NAME); [|now apply IH].
    destruct (rateCompatible h st).
    2:{ destruct (IH st Hact Hlive) as (st' & Hrun & H).
        destruct (scanStreams try_open rest st). now exists st'. }
    destruct ((audioChannels (set_channels (channel_count h) st) <=? 0)
              || (audioChannels (set_channels (channel_count h) st)
                  >? MAX_CHANNELS)).
    { destruct (IH (set_channels (channel_count h) st) Hact Hlive)
        as (st' & Hrun & H).
      destruct (scanStreams try_open rest (set_channels (channel_count h) st)).
      now exists st'. }
    unfold openInlet. cbn [audioInlet set_channels].
    destruct (audioInlet st); [| |congruence];
      destruct (try_open h) eqn:Ht; try (exfalso; exact (Hsafe _ _ Ht));
      eexists; (split; [reflexivity | discriminate]).
Qed.

Lemma resolve_keeps_ok (try_open : stream_info -> open_result)
  (streams : list stream_info) (st : state) :
  (forall info e, try_open info <> CtorThrows e) ->
  state_ok st -> audioInlet st <> InletFreed ->
  exists st', snd (resolveStreams try_open streams st) = Some st'
    /\ state_ok st' /\ audioInlet st' <> InletFreed.
Proof.
  intros Hsafe Hok Hlive. unfold resolveStreams.
  destruct (negb (resolver st)); [now exists st|].
  destruct streams as [|h rest]; [now exists st|].
  destruct (audioStreamActive st) eqn:Hact; cbn [negb]; [now exists st|].
  destruct (scan_keeps_ok try_open (h :: rest) Hsafe st Hact Hlive)
    as (st' & Hrun & Hlive').
  exists st'. split; [exact Hrun|]. split; [|exact Hlive'].
  destruct (scan_outcome try_open (h :: rest) st st' Hrun Hact)
    as (Hb & Hp & Ht & Hcase).
  destruct Hok as (Harr & Hr & Hw & _).
  assert (Harr' : arrays_ok st') by (unfold arrays_ok; now rewrite Hb, Hp, Ht).
  destruct Hcase as [(Hf & Hr' & Hw')|(Ha' & Hr' & Hw' & info & _ & Hi & Hk & Hv)].
  - split; [exact Harr'|]. rewrite Hr', Hw'. split; [exact Hr|].
    split; [exact Hw|]. congruence.
  - split; [exact Harr'|]. rewrite Hr', Hw'. unfold AUDIO_BUFFER_FRAMES.
    split; [lia|]. split; [lia|]. intros _. split; [exact Ha'|].
    split; [now exists info | now rewrite Hk].
Qed.

Lemma fill_keeps_ok (st : state) (net : pull_result) :
  state_ok st -> audioInlet st <> InletFreed ->
  exists st' evs, fillAudioBuffer st net = Some (st', evs)
    /\ state_ok st' /\ audioInlet st' <> InletFreed.
Proof.
  intros Hok Hlive. pose proof Hok as (Harr & Hr & Hw & Hs).
  destruct (fill_total st net Harr) as (st' & evs & Hrun & Hf); [auto|].
  destruct Hf as (Harr' & Hi & Hk & Hr' & Ha & Hw').
  exists st', evs. split; [exact Hrun|]. split; [|congruence].
  split; [exact Harr'|]. rewrite Hr'. split; [exact Hr|].
  split; [now apply Hw'|]. intros Ha'. destruct (Hs (Ha Ha')) as (_ & Hin & HK).
  split; [exact Ha'|]. rewrite Hi, Hk. auto.
Qed.

(** X8. The invariant of the program. From the state [setup] leaves, or any
    state that satisfies [state_ok] with no dangling inlet, every sequence
    of invocations of [resolveStreams], [fillAudioBuffer] and the output
    loop of [render], whatever the network returns or throws short of a
    throwing inlet constructor, runs to its end without an access outside
    an array, and keeps [state_ok]: both indices inside the ring and, while
    a session is active, a live inlet and a channel count between 1 and
    [MAX_CHANNELS]. *)
Theorem invocations_keep_state_ok (l : list invocation) :
  forall st : state,
  state_ok st -> audioInlet st <> InletFreed ->
  Forall invocation_ok l ->
  exists st', invokeAll l st = Some st'
    /\ state_ok st' /\ audioInlet st' <> InletFreed.
Proof.
  induction l as [|i l IH]; intros st Hok Hlive Hall.
  - now exists st.
  - apply Forall_cons in Hall as [Hi Hall]. cbn [invokeAll].
    assert (Hstep : exists st1, invoke i st = Some st1
              /\ state_ok st1 /\ audioInlet st1 <> InletFreed).
    { destruct i as [try_open streams|net|audioFrames outs]; cbn [invoke].
      - now apply resolve_keeps_ok.
      - destruct (fill_keeps_ok st net Hok Hlive) as (st1 & evs & -> & H).
        now exists st1.
      - destruct Hi as [Hfr Houts].
        destruct (renderOutput_block st audioFrames outs Hok Hfr Houts)
          as (st1 & -> & -> & Hok1).
        eexists. split; [reflexivity|]. split; [exact Hok1 | exact Hlive]. }
    destruct Hstep as (st1 & -> & Hok1 & Hlive1). now apply IH.
Qed.

Lemma setup_ok (rate : float) :
  state_ok (setup rate) /\ audioInlet (setup rate) <> InletFreed.
Proof.
  split; [|discriminate]. split; [|split; [|split]].
  - unfold arrays_ok. cbn. now rewrite !length_replicate.
  - cbn. unfold AUDIO_BUFFER_FRAMES. lia.
  - cbn. unfold AUDIO_BUFFER_FRAMES. lia.
  - discriminate.
Qed.

Lemma invocations_keep_state_ok_witness :
  exists st',
    invokeAll [RunResolve stereoFails [stereoInfo; monoInfo];
               RunRender 16 2;
               RunResolve (fun _ => Opened) [monoInfo];
               RunFill (chunk (tone 3 100));
               RunRender 16 2;
               RunFill (PullThrows (lost_error "lost"));
               RunRender 16 2] (setup 44100%float) = Some st'
    /\ state_ok st' /\ audioInlet st' <> InletFreed.
Proof.
  apply (invocations_keep_state_ok _ (setup 44100%float)).
  - apply setup_ok.
  - apply setup_ok.
  - repeat (apply Forall_cons; split); try apply Forall_nil; cbn;
      try exact I; try lia; try discriminate.
    intros info e. unfold stereoFails. destruct (channel_count info =? 2);
      discriminate.
Defined.

(** ** cleanup *)

(** X9. After [cleanup] the three entry points are inert: a discovery pass
    does and logs nothing, the fill task returns at its guard, and the
    output loop writes silence only; the inlet pointer is null. *)
Theorem after_cleanup_nothing_runs (st : state) :
  audioInlet st <> InletFreed ->
  exists evs st',
    cleanup st = (evs, Some st')
    /\ audioInlet st' = InletNull /\ audioStreamActive st' = false
    /\ (forall try_open streams,
          resolveStreams try_open streams st' = ([], Some st'))
    /\ (forall net, fillAudioBuffer st' net = Some (st', []))
    /\ (forall audioFrames outs,
          renderOutput audioFrames outs st'
          = Some (st', silentWrites outs (Z.to_nat audioFrames) 0)).
Proof.
  intros Hlive. unfold cleanup.
  destruct (audioInlet st) as [|old|] eqn:Hin; [| |congruence];
    do 2 eexists; (split; [reflexivity|]);
    (split; [first [exact Hin | reflexivity]|]); (split; [reflexivity|]);
    (split; [reflexivity|]); (split; [reflexivity|]);
    intros audioFrames outs; unfold renderOutput, for_range;
    rewrite render_silence by reflexivity; now rewrite Z.sub_0_r.
Qed.

Lemma after_cleanup_witness :
  exists evs st',
    cleanup connected = (evs, Some st')
    /\ audioInlet st' = InletNull /\ audioStreamActive st' = false
    /\ (forall try_open streams,
          resolveStreams try_open streams st' = ([], Some st'))
    /\ (forall net, fillAudioBuffer st' net = Some (st', []))
    /\ (forall audioFrames outs,
          renderOutput audioFrames outs st'
          = Some (st', silentWrites outs (Z.to_nat audioFrames) 0)).
Proof. apply (after_cleanup_nothing_runs connected). discriminate. Defined.

(** ** Scheduling *)

Lemma eighth_step (f : Z) :
  0 <= f ->
  (f + 1) / 8 - f / 8 = if Z.rem (f + 1) 8 =? 0 then 1 else 0.
Proof.
  intros Hf. rewrite Z.rem_mod_nonneg by lia.
  destruct (Z.eqb_spec ((f + 1) mod 8) 0); Z.to_euclidean_division_equations; lia.
Qed.

Lemma period_step (c p : Z) :
  0 <= c -> 0 < p ->
  (c + 1 + p - 1) / p - (c + p - 1) / p = if c mod p =? 0 then 1 else 0.
Proof.
  intros Hc Hp. pose proof (Z.div_mod c p ltac:(lia)) as Hdm.
  pose proof (Z.mod_pos_bound c p Hp) as Hr.
  set (q := c / p) in *. set (r := c mod p) in *.
  replace (c + 1 + p - 1) with ((q + 1) * p + r) by lia.
  replace (c + p - 1) with (q * p + (r + p - 1)) by lia.
  rewrite !Z.div_add_l by lia. rewrite (Z.div_small r p) by lia.
  destruct (Z.eqb_spec r 0) as [->|Hne].
  - rewrite Z.div_small by lia. lia.
  - replace (r + p - 1) with (1 * p + (r - 1)) by lia.
    rewrite Z.div_add_l, Z.div_small by lia. lia.
Qed.

(** X10. Over [n] successive calls of [render] the fill task is scheduled
    on every eighth call made while a session is active, and never while
    none is: [fillCounter] advances only then. Discovery is scheduled on
    the calls at which [count] is a multiple of the period, as long as
    [shouldResolveStreams] holds. (Stated for runs in which neither
    counter reaches the end of its range.) *)
Theorem render_schedules_fill_every_eighth (n : nat) (period : Z)
  (shouldResolve : bool) (audioFrames outs : Z) :
  0 < period -> 0 <= audioFrames -> 0 <= outs ->
  forall (c : Statics.render_statics) (st : state),
  state_ok st -> 0 <= Statics.fillCounter c -> 0 <= Statics.count c ->
  Statics.count c + Z.of_nat n < 2 ^ 32 ->
  Statics.fillCounter c + Z.of_nat n < 2 ^ 31 ->
  exists c' st' sched,
    renders n period shouldResolve audioFrames outs c st
    = Some (c', st', sched)
    /\ audioStreamActive st' = audioStreamActive st
    /\ Statics.count c' = Statics.count c + Z.of_nat n
    /\ Statics.fillCounter c'
       = (if audioStreamActive st then Statics.fillCounter c + Z.of_nat n
          else Statics.fillCounter c)
    /\ timesScheduled FillAudioBufferTask sched
       = (if audioStreamActive st
          then (Statics.fillCounter c + Z.of_nat n) / 8 - Statics.fillCounter c / 8 else 0)
    /\ timesScheduled ResolveStreamsTask sched
       = (if shouldResolve
          then (Statics.count c + Z.of_nat n + period - 1) / period
               - (Statics.count c + period - 1) / period
          else 0).
Proof.
  intros Hp Hfr Houts. induction n as [|n IH]; intros c st Hok Hf Hc Hn Hfn.
  - exists c, st, []. cbn [renders timesScheduled]. rewrite !Z.add_0_r.
    split; [reflexivity|]. split; [reflexivity|].
    split; [reflexivity|].
    split; [now destruct (audioStreamActive st)|].
    split; [destruct (audioStreamActive st); lia|].
    destruct shouldResolve; lia.
  - cbn [renders]. unfold render, renderSchedule.
    destruct (Z.eqb_spec period 0) as [|_]; [lia|].
    destruct (renderOutput_block st audioFrames outs Hok Hfr Houts)
      as (st1 & Hrun & Hst1 & Hok1).
    assert (Hact1 : audioStreamActive st1 = audioStreamActive st)
      by (rewrite Hst1; reflexivity).
    assert (Hcount : 0 <= (Statics.count c + 1) mod 2 ^ 32
                     /\ (Statics.count c + 1) mod 2 ^ 32 + Z.of_nat n < 2 ^ 32
                     /\ (Statics.count c + 1) mod 2 ^ 32 + Z.of_nat n
                        = Statics.count c + Z.of_nat (S n)).
    { rewrite Z.mod_small by lia. lia. }
    destruct Hcount as (Hc1 & Hn1 & Hcm).
    pose proof (period_step (Statics.count c) period Hc Hp) as Hps.
    pose proof (eighth_step (Statics.fillCounter c) Hf) as Hes.
    destruct (audioStreamActive st) eqn:Hact;
      [destruct (Z.leb_spec (2 ^ 31) (Statics.fillCounter c + 1)); [lia|]|];
      rewrite Hrun.
    + destruct (IH (Statics.mkStatics ((Statics.count c + 1) mod 2 ^ 32) (Statics.fillCounter c + 1))
                  st1 Hok1 ltac:(cbn; lia) Hc1 Hn1 ltac:(cbn; lia))
        as (c' & st' & sched & -> & Ha' & Hcc & Hfc & Hfs & Hrs).
      rewrite Hact1 in Hfc, Hfs. cbn [Statics.count Statics.fillCounter] in *.
      do 3 eexists. split; [reflexivity|]. split; [congruence|].
      split; [rewrite Hcc; exact Hcm|]. split; [rewrite Hfc; lia|].
      cbn [timesScheduled]. rewrite Hfs, Hrs.
      rewrite (Z.mod_small (Statics.count c + 1)) by lia. split.
      * rewrite existsb_app.
        replace (existsb _ (if (Statics.count c mod period =? 0) && shouldResolve
                            then [ResolveStreamsTask] else []))
          with false by (destruct ((Statics.count c mod period =? 0) && shouldResolve);
                         reflexivity).
        cbn [orb].
        replace (Statics.fillCounter c + 1 + Z.of_nat n)
          with (Statics.fillCounter c + Z.of_nat (S n)) by lia.
        destruct (Z.rem (Statics.fillCounter c + 1) 8 =? 0); cbn [existsb orb]; lia.
      * rewrite existsb_app.
        replace (existsb _ (if Z.rem (Statics.fillCounter c + 1) 8 =? 0
                            then [FillAudioBufferTask] else []))
          with false by (destruct (Z.rem (Statics.fillCounter c + 1) 8 =? 0);
                         reflexivity).
        rewrite orb_false_r.
        replace (Statics.count c + 1 + Z.of_nat n) with (Statics.count c + Z.of_nat (S n))
          by lia.
        destruct shouldResolve; [|rewrite andb_false_r; cbn; lia].
        rewrite andb_true_r.
        destruct (Statics.count c mod period =? 0); cbn [existsb orb]; lia.
    + destruct (IH (Statics.mkStatics ((Statics.count c + 1) mod 2 ^ 32) (Statics.fillCounter c))
                  st1 Hok1 Hf Hc1 Hn1 ltac:(cbn; lia))
        as (c' & st' & sched & -> & Ha' & Hcc & Hfc & Hfs & Hrs).
      rewrite Hact1 in Hfc, Hfs. cbn [Statics.count Statics.fillCounter] in *.
      do 3 eexists. split; [reflexivity|]. split; [congruence|].
      split; [rewrite Hcc; exact Hcm|]. split; [exact Hfc|].
      cbn [timesScheduled]. rewrite Hfs, Hrs.
      rewrite (Z.mod_small (Statics.count c + 1)) by lia. split.
      * replace (existsb _ (if (Statics.count c mod period =? 0) && shouldResolve
                            then [ResolveStreamsTask] else []))
          with false by (destruct ((Statics.count c mod period =? 0) && shouldResolve);
                         reflexivity).
        reflexivity.
      * replace (Statics.count c + 1 + Z.of_nat n) with (Statics.count c + Z.of_nat (S n))
          by lia.
        destruct shouldResolve; [|rewrite andb_false_r; cbn; lia].
        rewrite andb_true_r.
        destruct (Statics.count c mod period =? 0); cbn [existsb orb]; lia.
Qed.

Lemma render_schedules_witness :
  exists c' st' sched,
    renders 20 1378 true 16 2 (Statics.mkStatics 0 0) connected = Some (c', st', sched)
    /\ audioStreamActive st' = audioStreamActive connected
    /\ Statics.count c' = Statics.count (Statics.mkStatics 0 0) + Z.of_nat 20
    /\ Statics.fillCounter c'
       = (if audioStreamActive connected
          then Statics.fillCounter (Statics.mkStatics 0 0) + Z.of_nat 20
          else Statics.fillCounter (Statics.mkStatics 0 0))
    /\ timesScheduled FillAudioBufferTask sched
       = (if audioStreamActive connected
          then (Statics.fillCounter (Statics.mkStatics 0 0) + Z.of_nat 20) / 8
               - Statics.fillCounter (Statics.mkStatics 0 0) / 8 else 0)
    /\ timesScheduled ResolveStreamsTask sched
       = (if true
          then (Statics.count (Statics.mkStatics 0 0) + Z.of_nat 20 + 1378 - 1) / 1378
               - (Statics.count (Statics.mkStatics 0 0) + 1378 - 1) / 1378
          else 0).
Proof.
  apply (render_schedules_fill_every_eighth 20 1378 true 16 2); try lia.
  - apply connected_ok.
  - cbn. lia.
  - cbn. lia.
  - cbn. lia.
  - cbn. lia.
Defined.

(** ** The multi-inlet variant: losses *)

Lemma suffix_step {A : Type} (l : list A) (i : nat) (x : A) (y : A) :
  l !! i = Some x ->
  take (S i) (<[i := y]> l) = take i l ++ [y]
  /\ drop (S i) (<[i := y]> l) = drop (S i) l
  /\ drop i l = x :: drop (S i) l.
Proof.
  intros Hx. pose proof (lookup_lt_Some _ _ _ Hx) as Hlt. split; [|split].
  - rewrite (take_S_r _ _ y) by (now apply list_lookup_insert_eq).
    now rewrite take_insert_ge by lia.
  - apply drop_insert_lt. lia.
  - now apply drop_S.
Qed.

Lemma suffix_step_same {A : Type} (l : list A) (i : nat) (x : A) :
  l !! i = Some x ->
  take (S i) l = take i l ++ [x] /\ drop i l = x :: drop (S i) l.
Proof.
  intros Hx. split; [now apply take_S_r | now apply drop_S].
Qed.

(** The loop over the inlets: the lost ones become [nullptr], the data
    vectors take what the pulls return, the names stay. *)
Lemma pullAll_marks (net : nat -> MultiInlet.sample_result) (n : nat) :
  forall (i : nat) (ms : MultiInlet.state) (evs : list MultiInlet.event),
  Forall (fun x => x <> None) (drop i (MultiInlet.streamInlets ms)) ->
  length (MultiInlet.streamNames ms) = length (MultiInlet.streamInlets ms) ->
  length (MultiInlet.streamData ms) = length (MultiInlet.streamInlets ms) ->
  (i + n)%nat = length (MultiInlet.streamInlets ms) ->
  exists ms' evs',
    MultiInlet.pullAll net n i (ms, evs) = Some (ms', evs')
    /\ MultiInlet.streamInlets ms'
       = take i (MultiInlet.streamInlets ms)
         ++ marked net i (drop i (MultiInlet.streamInlets ms))
    /\ MultiInlet.streamNames ms' = MultiInlet.streamNames ms
    /\ MultiInlet.streamData ms'
       = take i (MultiInlet.streamData ms)
         ++ received net i (drop i (MultiInlet.streamData ms))
    /\ MultiInlet.streamsResolved ms' = MultiInlet.streamsResolved ms
    /\ MultiInlet.shouldResolveStreams ms'
       = MultiInlet.shouldResolveStreams ms || anyLost net i n.
Proof.
  induction n as [|n IH]; intros i ms evs Hall Hn Hd Hi.
  - exists ms, evs. cbn [MultiInlet.pullAll anyLost].
    rewrite !drop_ge by lia. cbn [marked received].
    rewrite !app_nil_r, !take_ge by lia. rewrite orb_false_r. auto 10.
  - destruct (lookup_lt_is_Some_2 (MultiInlet.streamInlets ms) i) as [x Hx];
      [lia|].
    destruct (lookup_lt_is_Some_2 (MultiInlet.streamNames ms) i) as [nm Hnm];
      [lia|].
    destruct (lookup_lt_is_Some_2 (MultiInlet.streamData ms) i) as [d Hdi];
      [lia|].
    destruct (suffix_step_same _ _ _ Hx) as [Htx Hdx].
    destruct (suffix_step_same _ _ _ Hdi) as [Htd Hdd].
    rewrite Hdx in Hall. apply Forall_cons in Hall as [Hxn Hall].
    destruct x as [inl|]; [|congruence].
    cbn [MultiInlet.pullAll anyLost]. unfold MultiInlet.pullOne,
      MultiInlet.logNamed. rewrite Hx, Hdi, Hnm.
    rewrite Hdx, Hdd. cbn [marked received].
    destruct (net i) as [ts data|[w|w]] eqn:Hnet; cbn [isLost].
    + destruct (suffix_step _ _ _ data Hdi) as (Hti & Hdr & _).
      set (ms1 := MultiInlet.mkState _ _ _ _ _).
      assert (Hgo : forall evs1, exists ms' evs',
                MultiInlet.pullAll net n (S i) (ms1, evs1) = Some (ms', evs')
                /\ MultiInlet.streamInlets ms'
                   = take i (MultiInlet.streamInlets ms)
                     ++ Some inl :: marked net (S i)
                                      (drop (S i) (MultiInlet.streamInlets ms))
                /\ MultiInlet.streamNames ms' = MultiInlet.streamNames ms
                /\ MultiInlet.streamData ms'
                   = take i (MultiInlet.streamData ms)
                     ++ data :: received net (S i)
                                  (drop (S i) (MultiInlet.streamData ms))
                /\ MultiInlet.streamsResolved ms' = MultiInlet.streamsResolved ms
                /\ MultiInlet.shouldResolveStreams ms'
                   = MultiInlet.shouldResolveStreams ms
                     || (false || anyLost net (S i) n)).
      { intros evs1.
        destruct (IH (S i) ms1 evs1) as (ms' & evs' & Hrun & H1 & H2 & H3 & H4 & H5);
          unfold ms1; cbn [MultiInlet.streamInlets MultiInlet.streamNames
                           MultiInlet.streamData]; try rewrite length_insert;
          try assumption; try lia.
        exists ms', evs'. split; [exact Hrun|]. cbn in H1, H2, H3, H4, H5.
        rewrite H1, H2, H3, H4, H5, Htx, Hti, Hdr, <- !app_assoc. auto 10. }
      destruct (negb (PrimFloat.eqb ts 0)); apply Hgo.
    + destruct (suffix_step _ _ _ None Hx) as (Hti & Hdr & _).
      set (ms1 := MultiInlet.mkState _ _ _ _ _).
      destruct (IH (S i) ms1
                  (evs ++ [MultiInlet.LogStreamLost nm (lost_error w);
                           MultiInlet.CloseStream i]))
        as (ms' & evs' & Hrun & H1 & H2 & H3 & H4 & H5);
        unfold ms1; cbn [MultiInlet.streamInlets MultiInlet.streamNames
                         MultiInlet.streamData]; try rewrite length_insert;
        try assumption; try lia.
      { now rewrite Hdr. }
      exists ms', evs'. split; [exact Hrun|]. cbn in H1, H2, H3, H4, H5.
      rewrite H1, H2, H3, H4, H5, Hti, Hdr, Htd, <- !app_assoc. cbn [app].
      rewrite orb_true_r. auto 10.
    + destruct (IH (S i) ms
                  (evs ++ [MultiInlet.LogPullError nm (std_exception w)]))
        as (ms' & evs' & Hrun & H1 & H2 & H3 & H4 & H5);
        try assumption; try lia.
      exists ms', evs'. split; [exact Hrun|].
      rewrite H1, H2, H3, H4, H5, Htx, Htd, <- !app_assoc. auto 10.
Qed.

Lemma eraseClosed_marked (net : nat -> MultiInlet.sample_result)
  (inlets : list (option stream_info)) :
  forall (i : nat) (names : list string) (data : list (list sample)),
  Forall (fun x => x <> None) inlets ->
  length names = length inlets -> length data = length inlets ->
  MultiInlet.eraseClosed (marked net i inlets) names data
  = Some (survivors net i inlets, survivors net i names, survivors net i data).
Proof.
  induction inlets as [|x inlets IH]; intros i names data Hall Hn Hd.
  - destruct names; [|discriminate]. destruct data; [|discriminate].
    reflexivity.
  - apply Forall_cons in Hall as [Hx Hall].
    destruct names as [|nm names]; [discriminate|].
    destruct data as [|d data]; [discriminate|].
    destruct x as [x|]; [|congruence].
    cbn [marked survivors MultiInlet.eraseClosed].
    destruct (isLost (net i)); cbn [MultiInlet.eraseClosed];
      rewrite IH by (cbn in *; auto with lia); reflexivity.
Qed.

Lemma survivors_length {A B : Type} (net : nat -> MultiInlet.sample_result)
  (l1 : list A) :
  forall (i : nat) (l2 : list B),
  length l1 = length l2 ->
  length (survivors net i l1) = length (survivors net i l2).
Proof.
  induction l1 as [|x l1 IH]; intros i [|y l2] Hlen; try discriminate;
    [reflexivity|].
  cbn [survivors]. destruct (isLost (net i)); cbn [length];
    rewrite (IH (S i) l2) by (cbn in Hlen; lia); reflexivity.
Qed.

Lemma survivors_live (net : nat -> MultiInlet.sample_result)
  (l : list (option stream_info)) :
  forall i : nat,
  Forall (fun x => x <> None) l -> Forall (fun x => x <> None) (survivors net i l).
Proof.
  induction l as [|x l IH]; intros i Hall; [constructor|].
  apply Forall_cons in Hall as [Hx Hall]. cbn [survivors].
  destruct (isLost (net i)); [now apply IH|].
  apply Forall_cons. split; [exact Hx | now apply IH].
Qed.

Lemma received_length (net : nat -> MultiInlet.sample_result)
  (l : list (list sample)) :
  forall i : nat, length (received net i l) = length l.
Proof.
  induction l as [|d l IH]; intros i; [reflexivity|].
  cbn [received length]. now rewrite IH.
Qed.

(** The outcome of one call of [pullSamples] on open inlets. *)
Lemma pullSamples_outcome
  (net : nat -> MultiInlet.sample_result) (ms : MultiInlet.state) :
  inlets_ok ms ->
  MultiInlet.streamsResolved ms = true ->
  MultiInlet.streamInlets ms <> [] ->
  exists ms' evs,
    MultiInlet.pullSamples net ms = Some (ms', evs)
    /\ MultiInlet.streamInlets ms'
       = survivors net 0 (MultiInlet.streamInlets ms)
    /\ MultiInlet.streamNames ms' = survivors net 0 (MultiInlet.streamNames ms)
    /\ MultiInlet.streamData ms'
       = survivors net 0 (received net 0 (MultiInlet.streamData ms))
    /\ inlets_ok ms'
    /\ MultiInlet.streamsResolved ms'
       = match survivors net 0 (MultiInlet.streamInlets ms) with
         | [] => false
         | _ => true
         end
    /\ MultiInlet.shouldResolveStreams ms'
       = MultiInlet.shouldResolveStreams ms
         || anyLost net 0 (length (MultiInlet.streamInlets ms)).
Proof.
  intros (Hall & Hn & Hd) Hres Hne. unfold MultiInlet.pullSamples.
  rewrite Hres. cbn [negb orb].
  destruct (MultiInlet.streamInlets ms) as [|x0 l0] eqn:Hin; [congruence|].
  rewrite <- Hin in *. clear Hne.
  destruct (pullAll_marks net (length (MultiInlet.streamInlets ms)) 0 ms [])
    as (ms1 & evs & -> & H1 & H2 & H3 & H4 & H5); try assumption;
    [reflexivity|].
  rewrite take_0, drop_0 in H1. rewrite take_0, drop_0 in H3.
  cbn [app] in H1, H3. rewrite H1, H2, H3.
  rewrite eraseClosed_marked
    by (try assumption; rewrite ?received_length; assumption).
  assert (Hok' : forall b1 b2,
            inlets_ok (MultiInlet.mkState
                         (survivors net 0 (MultiInlet.streamInlets ms))
                         (survivors net 0
                            (received net 0 (MultiInlet.streamData ms)))
                         (survivors net 0 (MultiInlet.streamNames ms)) b1 b2)).
  { intros b1 b2. split; [now apply survivors_live|]. cbn. split.
    - now apply survivors_length.
    - apply survivors_length. now rewrite received_length. }
  destruct (survivors net 0 (MultiInlet.streamInlets ms)) as [|y l] eqn:Hsurv.
  - do 2 eexists. split; [reflexivity|].
    cbn [MultiInlet.streamInlets MultiInlet.streamNames MultiInlet.streamData
         MultiInlet.streamsResolved MultiInlet.shouldResolveStreams].
    split; [reflexivity|]. split; [reflexivity|]. split; [reflexivity|].
    split; [apply Hok'|]. split; [reflexivity | exact H5].
  - do 2 eexists. split; [reflexivity|].
    cbn [MultiInlet.streamInlets MultiInlet.streamNames MultiInlet.streamData
         MultiInlet.streamsResolved MultiInlet.shouldResolveStreams].
    split; [reflexivity|]. split; [reflexivity|]. split; [reflexivity|].
    split; [apply Hok'|]. split; [now rewrite H4 | exact H5].
Qed.

(** X11. [pullSamples] removes exactly the streams whose pull reports a
    loss, each with its name and its data vector, and keeps the others in
    order (a stream whose pull raises another error included); the data
    vectors of the others hold what the pulls returned. The three vectors
    stay aligned and free of null inlets; [streamsResolved] is cleared
    when no stream is left, and a loss sets [shouldResolveStreams]. *)
Theorem pullSamples_drops_lost_streams
  (net : nat -> MultiInlet.sample_result) (ms : MultiInlet.state) :
  inlets_ok ms ->
  MultiInlet.streamsResolved ms = true ->
  MultiInlet.streamInlets ms <> [] ->
  exists ms' evs,
    MultiInlet.pullSamples net ms = Some (ms', evs)
    /\ MultiInlet.streamInlets ms'
       = survivors net 0 (MultiInlet.streamInlets ms)
    /\ MultiInlet.streamNames ms' = survivors net 0 (MultiInlet.streamNames ms)
    /\ MultiInlet.streamData ms'
       = survivors net 0 (received net 0 (MultiInlet.streamData ms))
    /\ inlets_ok ms'
    /\ MultiInlet.streamsResolved ms'
       = match survivors net 0 (MultiInlet.streamInlets ms) with
         | [] => false
         | _ => true
         end
    /\ MultiInlet.shouldResolveStreams ms'
       = MultiInlet.shouldResolveStreams ms
         || anyLost net 0 (length (MultiInlet.streamInlets ms)).
Proof. exact (pullSamples_outcome net ms). Qed.

Lemma pullSamples_drops_witness :
  exists ms' evs,
    MultiInlet.pullSamples firstLost twoInlets = Some (ms', evs)
    /\ MultiInlet.streamInlets ms'
       = survivors firstLost 0 (MultiInlet.streamInlets twoInlets)
    /\ MultiInlet.streamNames ms'
       = survivors firstLost 0 (MultiInlet.streamNames twoInlets)
    /\ MultiInlet.streamData ms'
       = survivors firstLost 0
           (received firstLost 0 (MultiInlet.streamData twoInlets))
    /\ inlets_ok ms'
    /\ MultiInlet.streamsResolved ms'
       = match survivors firstLost 0 (MultiInlet.streamInlets twoInlets) with
         | [] => false
         | _ => true
         end
    /\ MultiInlet.shouldResolveStreams ms'
       = MultiInlet.shouldResolveStreams twoInlets
         || anyLost firstLost 0 (length (MultiInlet.streamInlets twoInlets)).
Proof.
  apply (pullSamples_drops_lost_streams firstLost twoInlets).
  - split; [|split; reflexivity]. repeat (apply Forall_cons; split);
      try discriminate. constructor.
  - reflexivity.
  - discriminate.
Defined.

(** ** The multi-inlet variant: discovery *)

Lemma openAll_result (try_open : stream_info -> open_result)
  (streams : list stream_info) :
  Forall (fun info => 0 <= channel_count info) streams ->
  forall (i : nat) (st : MultiInlet.state)
    (evs : list MultiInletDiscovery.event),
  let st' := fst (MultiInletDiscovery.openAll try_open i streams (st, evs)) in
  MultiInlet.streamInlets st'
  = MultiInlet.streamInlets st
    ++ (Some <$> List.filter (created try_open) streams)
  /\ MultiInlet.streamNames st'
     = MultiInlet.streamNames st
       ++ (name <$> List.filter (created try_open) streams)
  /\ MultiInlet.streamData st'
     = MultiInlet.streamData st
       ++ ((fun info => replicate (Z.to_nat (channel_count info)) silence)
           <$> List.filter (created try_open) streams)
  /\ MultiInlet.streamsResolved st' = MultiInlet.streamsResolved st
  /\ MultiInlet.shouldResolveStreams st' = MultiInlet.shouldResolveStreams st.
Proof.
  induction 1 as [|info rest Hcc _ IH]; intros i st evs; cbn zeta.
  - cbn. now rewrite !app_nil_r.
  - cbn [MultiInletDiscovery.openAll List.filter].
    unfold MultiInletDiscovery.openOne, created.
    destruct (Z.ltb_spec (channel_count info) 0); [lia|].
    destruct (try_open info) eqn:Ht;
      match goal with
      | |- context [MultiInletDiscovery.openAll _ _ _ (?s, ?e)] =>
          destruct (IH (S i) s e) as (H1 & H2 & H3 & H4 & H5)
      end; cbn zeta in *; rewrite H1, H2, H3, H4, H5; cbn;
      rewrite <- ?app_assoc; auto.
Qed.

(** The outcome of a discovery pass that starts without inlets. *)
Lemma discovery_outcome (try_open : stream_info -> open_result)
  (streams : list stream_info) (ms : MultiInlet.state) :
  streams <> [] ->
  MultiInlet.streamInlets ms = [] ->
  Forall (fun info => 0 <= channel_count info) streams ->
  let ms' := fst (MultiInletDiscovery.resolveStreams try_open streams ms) in
  MultiInlet.streamInlets ms'
  = (Some <$> List.filter (created try_open) streams)
  /\ MultiInlet.streamNames ms'
     = (name <$> List.filter (created try_open) streams)
  /\ MultiInlet.streamData ms'
     = ((fun info => replicate (Z.to_nat (channel_count info)) silence)
        <$> List.filter (created try_open) streams)
  /\ inlets_ok ms'
  /\ MultiInlet.streamsResolved ms' = true
  /\ MultiInlet.shouldResolveStreams ms' = MultiInlet.shouldResolveStreams ms.
Proof.
  intros Hne Hemp Hcc. unfold MultiInletDiscovery.resolveStreams.
  rewrite Hemp. destruct streams as [|h rest]; [congruence|].
  pose proof (openAll_result try_open (h :: rest) Hcc 0
                (MultiInlet.mkState [] [] [] (MultiInlet.streamsResolved ms)
                   (MultiInlet.shouldResolveStreams ms))
                [MultiInletDiscovery.LogFound (length (h :: rest))]) as H.
  cbn zeta in H.
  destruct (MultiInletDiscovery.openAll try_open 0 (h :: rest) _)
    as [st1 evs]. cbn [fst] in *.
  destruct H as (H1 & H2 & H3 & _ & H5). cbn in H1, H2, H3, H5.
  cbn [MultiInlet.streamInlets MultiInlet.streamNames MultiInlet.streamData
       MultiInlet.streamsResolved MultiInlet.shouldResolveStreams].
  split; [exact H1|]. split; [exact H2|]. split; [exact H3|].
  split; [|split; [reflexivity | exact H5]].
  unfold inlets_ok. cbn [MultiInlet.streamInlets MultiInlet.streamNames
    MultiInlet.streamData]. rewrite H1, H2, H3, !length_fmap.
  split; [|split; reflexivity]. apply Forall_fmap, Forall_true. discriminate.
Qed.

(** X12. A discovery pass of the multi-inlet variant that starts without
    inlets creates one inlet for every advertised stream whose constructor
    does not throw, in the order advertised, with its name and a data
    vector of [channel_count] samples; an inlet whose [open_stream] fails
    is kept like the others. The three vectors end aligned, and
    [streamsResolved] is set even if no inlet could be created. *)
Theorem discovery_opens_every_stream (try_open : stream_info -> open_result)
  (streams : list stream_info) (ms : MultiInlet.state) :
  streams <> [] ->
  MultiInlet.streamInlets ms = [] ->
  Forall (fun info => 0 <= channel_count info) streams ->
  let ms' := fst (MultiInletDiscovery.resolveStreams try_open streams ms) in
  MultiInlet.streamInlets ms'
  = (Some <$> List.filter (created try_open) streams)
  /\ MultiInlet.streamNames ms'
     = (name <$> List.filter (created try_open) streams)
  /\ MultiInlet.streamData ms'
     = ((fun info => replicate (Z.to_nat (channel_count info)) silence)
        <$> List.filter (created try_open) streams)
  /\ inlets_ok ms'
  /\ MultiInlet.streamsResolved ms' = true
  /\ MultiInlet.shouldResolveStreams ms' = MultiInlet.shouldResolveStreams ms.
Proof. exact (discovery_outcome try_open streams ms). Qed.

Lemma discovery_opens_witness :
  let ms' := fst (MultiInletDiscovery.resolveStreams stereoFails
                    [stereoInfo; monoInfo]
                    (MultiInlet.mkState [] [] [] false true)) in
  MultiInlet.streamInlets ms'
  = (Some <$> List.filter (created stereoFails) [stereoInfo; monoInfo])
  /\ MultiInlet.streamNames ms'
     = (name <$> List.filter (created stereoFails) [stereoInfo; monoInfo])
  /\ MultiInlet.streamData ms'
     = ((fun info => replicate (Z.to_nat (channel_count info)) silence)
        <$> List.filter (created stereoFails) [stereoInfo; monoInfo])
  /\ inlets_ok ms'
  /\ MultiInlet.streamsResolved ms' = true
  /\ MultiInlet.shouldResolveStreams ms'
     = MultiInlet.shouldResolveStreams (MultiInlet.mkState [] [] [] false true).
Proof.
  apply (discovery_opens_every_stream stereoFails [stereoInfo; monoInfo]
           (MultiInlet.mkState [] [] [] false true)).
  - discriminate.
  - reflexivity.
  - repeat (apply Forall_cons; split); try apply Forall_nil; cbn; lia.
Defined.

(** X13. While an inlet is left open a discovery pass creates no inlet and
    leaves the state as it is, whatever is advertised (all it may log is
    that no stream was found); once [pullSamples] has dropped the last
    inlet, [streamsResolved] is cleared and the next pass that finds
    streams opens every one whose constructor does not throw. *)
Theorem discovery_waits_until_all_lost
  (net : nat -> MultiInlet.sample_result) (ms : MultiInlet.state) :
  inlets_ok ms ->
  MultiInlet.streamsResolved ms = true ->
  MultiInlet.streamInlets ms <> [] ->
  exists ms' evs,
    MultiInlet.pullSamples net ms = Some (ms', evs)
    /\ (survivors net 0 (MultiInlet.streamInlets ms) <> [] ->
        forall (try_open : stream_info -> open_result)
          (streams : list stream_info),
        MultiInletDiscovery.resolveStreams try_open streams ms'
        = (ms', match streams with
                | [] => [MultiInletDiscovery.LogNoStreams]
                | _ => []
                end))
    /\ (survivors net 0 (MultiInlet.streamInlets ms) = [] ->
        MultiInlet.streamsResolved ms' = false
        /\ forall (try_open : stream_info -> open_result)
             (streams : list stream_info),
           streams <> [] ->
           Forall (fun info => 0 <= channel_count info) streams ->
           MultiInlet.streamInlets
             (fst (MultiInletDiscovery.resolveStreams try_open streams ms'))
           = (Some <$> List.filter (created try_open) streams)).
Proof.
  intros Hok Hres Hne.
  destruct (pullSamples_outcome net ms Hok Hres Hne)
    as (ms' & evs & Hrun & Hin & _ & _ & _ & Hr' & _).
  exists ms', evs. split; [exact Hrun|]. split.
  - intros Hsurv try_open streams.
    unfold MultiInletDiscovery.resolveStreams. rewrite Hin.
    destruct (survivors net 0 (MultiInlet.streamInlets ms)); [congruence|].
    now destruct streams.
  - intros Hsurv. rewrite Hsurv in Hr', Hin. split; [exact Hr'|].
    intros try_open streams Hs Hcc. now apply discovery_outcome.
Qed.

Lemma discovery_waits_witness :
  (survivors firstLost 0 (MultiInlet.streamInlets twoInlets)
   = [Some stereoInfo]
   /\ exists ms' evs,
        MultiInlet.pullSamples firstLost twoInlets = Some (ms', evs)
        /\ MultiInletDiscovery.resolveStreams (fun _ => Opened) [fastInfo] ms'
           = (ms', [])
        /\ MultiInletDiscovery.resolveStreams (fun _ => Opened) [] ms'
           = (ms', [MultiInletDiscovery.LogNoStreams]))
  /\ (survivors allLost 0 (MultiInlet.streamInlets twoInlets) = []
      /\ exists ms' evs,
           MultiInlet.pullSamples allLost twoInlets = Some (ms', evs)
           /\ MultiInlet.streamsResolved ms' = false
           /\ MultiInlet.streamInlets
                (fst (MultiInletDiscovery.resolveStreams (fun _ => Opened)
                        [fastInfo; monoInfo] ms'))
              = (Some <$> List.filter (created (fun _ => Opened))
                            [fastInfo; monoInfo])).
Proof.
  assert (Hok : inlets_ok twoInlets).
  { split; [|split; reflexivity].
    repeat (apply Forall_cons; split); try discriminate. constructor. }
  split.
  - split; [reflexivity|].
    destruct (discovery_waits_until_all_lost firstLost twoInlets Hok eq_refl
                ltac:(discriminate)) as (ms' & evs & Hrun & Hkeep & _).
    exists ms', evs. split; [exact Hrun|].
    split; apply Hkeep; discriminate.
  - split; [reflexivity|].
    destruct (discovery_waits_until_all_lost allLost twoInlets Hok eq_refl
                ltac:(discriminate)) as (ms' & evs & Hrun & _ & Hopen).
    destruct (Hopen eq_refl) as [Hres Hall].
    exists ms', evs. split; [exact Hrun|]. split; [exact Hres|].
    apply Hall; [discriminate|].
    repeat (apply Forall_cons; split); try apply Forall_nil; cbn; lia.
Defined.

(** ** Where the slack slot is kept *)

(** X14. In an active session the space computed by the fill task and the
    occupancy add up to [capacity - 1] in every state but the full one
    with [readPos = writePos + 1], and in that one they do not: the full
    state with [readPos = 0] is handled, the others are not. *)
Theorem slack_kept_unless_wrapped_full (st : state) :
  audioStreamActive st = true ->
  0 <= readPos st < AUDIO_BUFFER_FRAMES ->
  0 <= writePos st < AUDIO_BUFFER_FRAMES ->
  (writeSpace st + samplesAvailable st = AUDIO_BUFFER_FRAMES - 1
   <-> readPos st <> writePos st + 1)
  /\ (samplesAvailable st = AUDIO_BUFFER_FRAMES - 1 -> readPos st = 0 ->
      maxFramesToPull st = 0).
Proof.
  intros Ha Hr Hw. split; [split|].
  - intros Hsum Heq.
    destruct (writeSpace_wrapped_full st Ha Heq) as [H1 H2].
    rewrite H1, H2 in Hsum. unfold AUDIO_BUFFER_FRAMES in Hsum. lia.
  - now apply writeSpace_slack.
  - intros Hfull H0.
    assert (Hne : readPos st <> writePos st + 1) by lia.
    pose proof (writeSpace_slack st Ha Hr Hw Hne) as Hs.
    unfold maxFramesToPull. lia.
Qed.

Lemma slack_kept_witness :
  (readPos (set_readPos 1 connected) = writePos (set_readPos 1 connected) + 1
   /\ writeSpace (set_readPos 1 connected)
      + samplesAvailable (set_readPos 1 connected)
      <> AUDIO_BUFFER_FRAMES - 1)
  /\ (samplesAvailable (set_writePos 8191 connected) = AUDIO_BUFFER_FRAMES - 1
      /\ readPos (set_writePos 8191 connected) = 0
      /\ maxFramesToPull (set_writePos 8191 connected) = 0)
  /\ (readPos connected <> writePos connected + 1
      /\ writeSpace connected + samplesAvailable connected
         = AUDIO_BUFFER_FRAMES - 1).
Proof.
  split; [|split].
  - split; [reflexivity|]. intros Hsum.
    apply (proj1 (proj1 (slack_kept_unless_wrapped_full
                           (set_readPos 1 connected) eq_refl
                           ltac:(cbn; unfold AUDIO_BUFFER_FRAMES; lia)
                           ltac:(cbn; unfold AUDIO_BUFFER_FRAMES; lia)))
             Hsum).
    reflexivity.
  - split; [reflexivity|]. split; [reflexivity|].
    apply (proj2 (slack_kept_unless_wrapped_full
                    (set_writePos 8191 connected) eq_refl
                    ltac:(cbn; unfold AUDIO_BUFFER_FRAMES; lia)
                    ltac:(cbn; unfold AUDIO_BUFFER_FRAMES; lia)));
      reflexivity.
  - split; [discriminate|].
    apply (proj2 (proj1 (slack_kept_unless_wrapped_full connected eq_refl
                           ltac:(cbn; unfold AUDIO_BUFFER_FRAMES; lia)
                           ltac:(cbn; unfold AUDIO_BUFFER_FRAMES; lia)))).
    discriminate.
Defined.
